(** * LLM Council client: conversation store, turn controller, audio capture

    A shallow embedding of the client-side core of the repository and the
    proofs of its specification's claims:

    - [Wav]     : [encodeWav], [floatTo16BitPCM], [writeString] and the
                  [DataView] writes they use (ChatInterface.jsx);
    - [Capture] : [startRecording], [onaudioprocess] and [stopRecording]
                  (ChatInterface.jsx);
    - [Sidebar] : [handleCouncilModelToggle] (Sidebar.jsx);
    - [Store]   : [localConversations] over the [localStorage] of a
                  session, whose index holds index entries
                  (localConversations.js);
    - [LocalConversations] : the same functions over any stored index,
                  whose elements may be [null];
    - [Sse]     : the reader loop of [api.sendMessageStream] (api.js);
    - [App]     : [handleSendMessage], its event switch,
                  [handleSkipClarification], [handleNewConversation],
                  [loadConversations], [loadConversation] and the effect
                  on the selected conversation (App.jsx).

    The modules [WavFacts] to [AppFacts] and [WavProps] to [AppProps]
    prove the claims of the specification and further properties of the
    same code, [LocalConversationsFacts] those of the store over any
    index.

    JavaScript exceptions are values of [outcome]; React state is passed
    explicitly, a handler reading the state of the render that created it.
    The state updates of a turn are a queue that React applies one by
    one, among those of other handlers. *)

From Stdlib Require Import ZArith QArith Qabs String Ascii List Sorted OrdersEx Lia.
From stdpp Require Import gmap strings list.

Local Close Scope Q_scope.
Local Open Scope string_scope.
Set Warnings "-register-all".

(* ===================================================================== *)
(** * JavaScript outcomes *)
(* ===================================================================== *)

Module Js.

(** What a [throw] carries. [Error msg] is [new Error(msg)]. *)
Inductive exn : Type :=
| RangeError
| TypeError
| Error (msg : string).

(** A call either returns or throws. *)
Inductive outcome (A : Type) : Type :=
| Return (a : A)
| Throw (e : exn).

Arguments Return {A} a.
Arguments Throw {A} e.

Definition bind {A B : Type} (m : outcome A) (k : A -> outcome B) : outcome B :=
  match m with
  | Return a => k a
  | Throw e => Throw e
  end.

(** A call fails when it throws. *)
Definition fails {A : Type} (o : outcome A) : Prop := exists e, o = Throw e.

End Js.

Import Js.

Notation "'do' x <- m ; k" := (Js.bind m (fun x => k))
  (at level 10, x name, m at level 100, k at level 200, only parsing).

(* ===================================================================== *)
(** * WaveEncoder *)
(* ===================================================================== *)

Module Wav.

Local Open Scope Z_scope.

(** A JavaScript Number as the encoder meets it. The samples are the
    elements of a [Float32Array]: a finite one is a rational, and its
    products with [0x8000] and [0x7fff] are exact in binary64 (24 + 16
    significant bits), so the rational product is the one the code
    computes. *)
Inductive number : Type :=
| Fin (q : Q)
| PInf
| NInf
| NaN.

(** [Math.min(1, x)]. *)
Definition Math_min_1 (x : number) : number :=
  match x with
  | NaN => NaN
  | PInf => Fin 1
  | NInf => NInf
  | Fin q => if Qle_bool 1 q then Fin 1 else Fin q
  end.

(** [Math.max(-1, x)]. *)
Definition Math_max_m1 (x : number) : number :=
  match x with
  | NaN => NaN
  | PInf => PInf
  | NInf => Fin (-1)
  | Fin q => if Qle_bool q (-1) then Fin (-1) else Fin q
  end.

(** [x < 0]. *)
Definition lt0 (x : number) : bool :=
  match x with
  | NaN => false
  | PInf => false
  | NInf => true
  | Fin q => negb (Qle_bool 0 q)
  end.

(** [x * k] for a positive integer constant [k]. *)
Definition mulc (x : number) (k : Z) : number :=
  match x with
  | Fin q => Fin (Qmult q (inject_Z k))
  | other => other
  end.

(** Truncation toward zero of a rational. *)
Definition truncate (q : Q) : Z := Z.quot (Qnum q) (Zpos (Qden q)).

(** [ToInt16]: NaN and the infinities become 0, a finite number is
    truncated and wrapped into [-2^15, 2^15). *)
Definition ToInt16 (x : number) : Z :=
  match x with
  | Fin q =>
      let int16bit := truncate q mod 65536 in
      if 32768 <=? int16bit then int16bit - 65536 else int16bit
  | _ => 0
  end.

(** [ToUint8], [ToUint16], [ToUint32] of an integral Number. *)
Definition ToUint8 (v : Z) : Z := v mod 256.
Definition ToUint16 (v : Z) : Z := v mod 65536.
Definition ToUint32 (v : Z) : Z := v mod 4294967296.

(** The bytes of a [DataView] over a whole [ArrayBuffer], each in [0, 256). *)
Abbreviation DataView := (list Z).

(** [new ArrayBuffer(n)] is zero-filled. *)
Definition new_ArrayBuffer (n : nat) : DataView := replicate n 0.

(** Little-endian bytes of an unsigned value, [n] of them. *)
Fixpoint le_bytes (n : nat) (v : Z) : list Z :=
  match n with
  | O => []
  | S n' => v mod 256 :: le_bytes n' (v / 256)
  end.

(** Store [bs] from [byteOffset] on; the range check is the caller's. *)
Fixpoint store (view : DataView) (byteOffset : nat) (bs : list Z) : DataView :=
  match bs with
  | [] => view
  | b :: bs' => store (<[byteOffset := b]> view) (S byteOffset) bs'
  end.

(** [SetViewValue]: a write outside the view throws a [RangeError]. *)
Definition SetViewValue (view : DataView) (byteOffset : nat) (bs : list Z)
  : outcome DataView :=
  if (byteOffset + length bs <=? length view)%nat
  then Return (store view byteOffset bs)
  else Throw RangeError.

Definition setUint8 (view : DataView) (byteOffset : nat) (v : Z) : outcome DataView :=
  SetViewValue view byteOffset (le_bytes 1 (ToUint8 v)).

(** [view.setUint16(byteOffset, v, true)]. *)
Definition setUint16 (view : DataView) (byteOffset : nat) (v : Z) : outcome DataView :=
  SetViewValue view byteOffset (le_bytes 2 (ToUint16 v)).

(** [view.setUint32(byteOffset, v, true)]. *)
Definition setUint32 (view : DataView) (byteOffset : nat) (v : Z) : outcome DataView :=
  SetViewValue view byteOffset (le_bytes 4 (ToUint32 v)).

(** [view.setInt16(byteOffset, x, true)]: the two's-complement bytes of
    [ToInt16 x]. *)
Definition setInt16 (view : DataView) (byteOffset : nat) (x : number) : outcome DataView :=
  SetViewValue view byteOffset (le_bytes 2 (ToInt16 x mod 65536)).

(** [string.charCodeAt(i)] for each [i]. *)
Definition charCodes (s : string) : list Z :=
  map (fun c => Z.of_nat (nat_of_ascii c)) (list_ascii_of_string s).

(** [floatTo16BitPCM(output, offset, input)]. *)
Fixpoint floatTo16BitPCM (output : DataView) (offset : nat) (input : list number)
  : outcome DataView :=
  match input with
  | [] => Return output
  | x :: rest =>
      let s := Math_max_m1 (Math_min_1 x) in
      do output' <- setInt16 output offset
                      (if lt0 s then mulc s 32768 else mulc s 32767);
      floatTo16BitPCM output' (offset + 2) rest
  end.

(** The loop of [writeString], over the char codes still to write. *)
Fixpoint writeCodes (view : DataView) (offset : nat) (codes : list Z)
  : outcome DataView :=
  match codes with
  | [] => Return view
  | c :: rest =>
      do view' <- setUint8 view offset c;
      writeCodes view' (S offset) rest
  end.

(** [writeString(view, offset, string)]. *)
Definition writeString (view : DataView) (offset : nat) (s : string) : outcome DataView :=
  writeCodes view offset (charCodes s).

(** [encodeWav({ samples, sampleRate, numChannels })]; the result is the
    content of the returned [Blob]. [sampleRate] is an integer, as the
    specification has it. *)
Definition encodeWav (samples : list number) (sampleRate numChannels : Z)
  : outcome DataView :=
  let bytesPerSample := 2 in
  let blockAlign := numChannels * bytesPerSample in
  let len := Z.of_nat (length samples) in
  let view := new_ArrayBuffer (44 + length samples * 2) in
  do view <- writeString view 0 "RIFF";
  do view <- setUint32 view 4 (36 + len * bytesPerSample);
  do view <- writeString view 8 "WAVE";
  do view <- writeString view 12 "fmt ";
  do view <- setUint32 view 16 16;
  do view <- setUint16 view 20 1;
  do view <- setUint16 view 22 numChannels;
  do view <- setUint32 view 24 sampleRate;
  do view <- setUint32 view 28 (sampleRate * blockAlign);
  do view <- setUint16 view 32 blockAlign;
  do view <- setUint16 view 34 16;
  do view <- writeString view 36 "data";
  do view <- setUint32 view 40 (len * bytesPerSample);
  floatTo16BitPCM view 44 samples.

(** ** A conformant reader of the container *)

(** Little-endian unsigned value of the [n] bytes at [byteOffset]. *)
Fixpoint getUint (view : DataView) (byteOffset n : nat) : option Z :=
  match n with
  | O => Some 0
  | S n' =>
      match view !! byteOffset, getUint view (S byteOffset) n' with
      | Some b, Some v => Some (b + 256 * v)
      | _, _ => None
      end
  end.

(** [view.getInt16(byteOffset, true)]. *)
Definition getInt16 (view : DataView) (byteOffset : nat) : option Z :=
  match getUint view byteOffset 2 with
  | Some u => Some (if 32768 <=? u then u - 65536 else u)
  | None => None
  end.

(** The [n] bytes at [byteOffset]. *)
Definition slice (view : DataView) (byteOffset n : nat) : list Z :=
  take n (drop byteOffset view).

(** ** The quantisation the specification describes *)

(** Clamp to [-1, 1]. *)
Definition clamp (q : Q) : Q :=
  if Qle_bool q (-1) then (-1)%Q else if Qle_bool 1 q then 1%Q else q.

(** Negative side scaled by 32768, non-negative side by 32767, truncated. *)
Definition quantize (q : Q) : Z :=
  let c := clamp q in
  if Qle_bool 0 c then truncate (Qmult c (inject_Z 32767))
  else truncate (Qmult c (inject_Z 32768)).

(** The 16-bit sample of a Number: the infinities clamp to the ends of the
    range, and NaN, which no clamp orders, is written as 0. *)
Definition pcm16 (x : number) : Z :=
  match x with
  | Fin q => quantize q
  | PInf => 32767
  | NInf => -32768
  | NaN => 0
  end.

(** The Number that [floatTo16BitPCM] hands to [setInt16]. *)
Definition scaled (x : number) : number :=
  let s := Math_max_m1 (Math_min_1 x) in
  if lt0 s then mulc s 32768 else mulc s 32767.

(** ** The container, byte for byte *)

(** The sample payload: two little-endian bytes per sample. *)
Definition payload (samples : list number) : list Z :=
  flat_map (fun x => le_bytes 2 (pcm16 x mod 65536)) samples.

(** The 44 bytes before it. *)
Definition header (sampleRate numChannels : Z) (n : nat) : list Z :=
  map ToUint8 (charCodes "RIFF")
  ++ le_bytes 4 (ToUint32 (36 + Z.of_nat n * 2))
  ++ map ToUint8 (charCodes "WAVE")
  ++ map ToUint8 (charCodes "fmt ")
  ++ le_bytes 4 (ToUint32 16)
  ++ le_bytes 2 (ToUint16 1)
  ++ le_bytes 2 (ToUint16 numChannels)
  ++ le_bytes 4 (ToUint32 sampleRate)
  ++ le_bytes 4 (ToUint32 (sampleRate * (numChannels * 2)))
  ++ le_bytes 2 (ToUint16 (numChannels * 2))
  ++ le_bytes 2 (ToUint16 16)
  ++ map ToUint8 (charCodes "data")
  ++ le_bytes 4 (ToUint32 (Z.of_nat n * 2)).

(** The container the specification describes, as a conformant reader
    finds it in [buf]: the size of the buffer, the fields of the header
    (format tag 1 is linear PCM) and the samples of the payload. *)
Definition container (samples : list number) (sampleRate numChannels : Z)
  (buf : DataView) : Prop :=
  length buf = (44 + 2 * length samples)%nat
  /\ getUint buf 20 2 = Some 1
  /\ getUint buf 22 2 = Some numChannels
  /\ getUint buf 24 4 = Some sampleRate
  /\ getUint buf 28 4 = Some (sampleRate * (numChannels * 2))
  /\ getUint buf 32 2 = Some (numChannels * 2)
  /\ getUint buf 34 2 = Some 16
  /\ getUint buf 40 4 = Some (2 * Z.of_nat (length samples))
  /\ forall (i : nat) (x : number),
       samples !! i = Some x -> getInt16 buf (44 + 2 * i) = Some (pcm16 x).

(** [encodeWav] returns that container, for one channel. *)
Definition encodes (samples : list number) (sampleRate : Z) : Prop :=
  exists buf : DataView,
    encodeWav samples sampleRate 1 = Return buf
    /\ container samples sampleRate 1 buf.

End Wav.

(* ===================================================================== *)
(** * AudioCapturer *)
(* ===================================================================== *)

Module Capture.

Import Wav.

(** The audio-processing graph and the input device of a capture session:
    what [stopRecording] releases. *)
Record Device : Type := mkDevice {
  processor_connected : bool;
  source_connected : bool;
  tracks_live : bool;
  context_open : bool
}.

(** [recordingRef.current]: the blocks pushed by [onaudioprocess], in
    arrival order, and the context's sample rate. *)
Record Session : Type := mkSession {
  device : Device;
  chunks : list (list number);
  sampleRate : Z
}.

(** The state of the component that the recorder reads and sets. *)
Record Chat : Type := mkChat {
  input : string;
  isRecording : bool;
  isTranscribing : bool;
  sttError : option string;
  recordingRef : option Session
}.

(** What reached the collaborators during a call: the argument of
    [encodeWav] and the blob handed to [api.speechToText]. *)
Record Trace : Type := mkTrace {
  released : option Device;
  encoded : option (list number * Z * Z);
  uploaded : option DataView
}.

Definition no_trace : Trace :=
  {| released := None; encoded := None; uploaded := None |}.

(** [processor.disconnect(); source.disconnect();
    stream.getTracks().forEach((t) => t.stop()); await audioContext.close()]. *)
Definition release (d : Device) : Device :=
  {| processor_connected := false;
     source_connected := false;
     tracks_live := false;
     context_open := false |}.

(** [target.set(source, offset)] of a typed array: out of range throws. *)
Fixpoint set_from (target : list number) (offset : nat) (source : list number)
  : list number :=
  match source with
  | [] => target
  | x :: rest => set_from (<[offset := x]> target) (S offset) rest
  end.

Definition Float32Array_set (target source : list number) (offset : nat)
  : outcome (list number) :=
  if (offset + length source <=? length target)%nat
  then Return (set_from target offset source)
  else Throw RangeError.

(** [chunks.reduce((sum, a) => sum + a.length, 0)]. *)
Definition totalLength (chunks : list (list number)) : nat :=
  foldl (fun sum a => (sum + length a)%nat) 0%nat chunks.

(** [for (const c of chunks) { merged.set(c, offset); offset += c.length; }]. *)
Fixpoint merge_loop (merged : list number) (offset : nat)
  (chunks : list (list number)) : outcome (list number) :=
  match chunks with
  | [] => Return merged
  | c :: rest =>
      do merged' <- Float32Array_set merged c offset;
      merge_loop merged' (offset + length c) rest
  end.

(** The merged [Float32Array] of [stopRecording]. *)
Definition merge (chunks : list (list number)) : outcome (list number) :=
  merge_loop (replicate (totalLength chunks) (Fin 0)) 0 chunks.

(** [e?.message || 'Failed to transcribe audio']; the text of a built-in
    error is the engine's and never empty. *)
Definition message_or (fallback : string) (e : exn) : string :=
  match e with
  | Error msg => if String.eqb msg "" then fallback else msg
  | RangeError => "RangeError"
  | TypeError => "TypeError"
  end.

(** [stopRecording], called from a render whose state is [c]. [trim] is
    [String.prototype.trim]; [reply] is what [api.speechToText] answers:
    the [text] of the response, or a rejection. *)
Definition stopRecording (trim : string -> string)
  (reply : outcome (option string)) (c : Chat) : outcome (Chat * Trace) :=
  match isRecording c, recordingRef c with
  | true, Some session =>
      (* recordingRef.current = null; setIsRecording(false); *)
      let dev := release (device session) in
      (* catch (e) { setSttError(...) } finally { setIsTranscribing(false) } *)
      let failed (e : exn) (tr : Trace) : outcome (Chat * Trace) :=
        Return ({| input := input c; isRecording := false;
                   isTranscribing := false;
                   sttError := Some (message_or "Failed to transcribe audio" e);
                   recordingRef := None |}, tr) in
      match merge (chunks session) with
      | Throw e =>
          failed e {| released := Some dev; encoded := None; uploaded := None |}
      | Return merged =>
          let args := (merged, sampleRate session, 1%Z) in
          match encodeWav merged (sampleRate session) 1 with
          | Throw e =>
              failed e {| released := Some dev; encoded := Some args;
                          uploaded := None |}
          | Return wavBlob =>
              let tr := {| released := Some dev; encoded := Some args;
                           uploaded := Some wavBlob |} in
              (* setIsTranscribing(true); await api.speechToText(wavBlob, ...) *)
              match reply with
              | Throw e => failed e tr
              | Return text =>
                  let transcript := trim (default "" text) in
                  Return ({| input :=
                               if String.eqb transcript "" then input c
                               else if String.eqb (input c) "" then transcript
                               else input c ++ " " ++ transcript;
                             isRecording := false;
                             isTranscribing := false;
                             sttError := sttError c;
                             recordingRef := None |}, tr)
              end
          end
      end
  | _, _ =>
      (* if (!isRecording || !recordingRef.current) return; *)
      Return (c, no_trace)
  end.

(** A capturer that is not recording. *)
Definition idle : Chat :=
  {| input := ""; isRecording := false; isTranscribing := false;
     sttError := None; recordingRef := None |}.

(** The graph that [startRecording] builds: the source connected to the
    processor, the processor to the destination, on a live stream. *)
Definition connected : Device :=
  {| processor_connected := true;
     source_connected := true;
     tracks_live := true;
     context_open := true |}.

(** [startRecording], called from a render whose state is [c], whose
    [isLoading] prop and whose [isMicStarting] are the two flags. [grant]
    is what [getUserMedia] and the audio context answer: the context's
    sample rate, or a rejection. The result is the state after the call
    and [isMicStarting] after it. *)
Definition startRecording (isLoading isMicStarting : bool) (grant : outcome Z)
  (c : Chat) : Chat * bool :=
  if isLoading || isTranscribing c || isRecording c || isMicStarting
  then (c, isMicStarting)
  else
    (* setSttError(null); setIsMicStarting(true); ... finally
       setIsMicStarting(false) *)
    match grant with
    | Return rate =>
        ({| input := input c; isRecording := true;
            isTranscribing := isTranscribing c;
            sttError := None;
            recordingRef := Some {| device := connected; chunks := [];
                                    sampleRate := rate |} |}, false)
    | Throw e =>
        ({| input := input c; isRecording := isRecording c;
            isTranscribing := isTranscribing c;
            sttError := Some (message_or "Microphone permission was denied" e);
            recordingRef := recordingRef c |}, false)
    end.

(** [processor.onaudioprocess]: a copy of the block goes to the end of
    the session's [chunks]. After [stopRecording] has taken the session
    out of [recordingRef], the array is read by nobody. *)
Definition onaudioprocess (channel : list number) (c : Chat) : Chat :=
  match recordingRef c with
  | Some session =>
      {| input := input c; isRecording := isRecording c;
         isTranscribing := isTranscribing c; sttError := sttError c;
         recordingRef :=
           Some {| device := device session;
                   chunks := (chunks session ++ [channel])%list;
                   sampleRate := sampleRate session |} |}
  | None => c
  end.

(** The capturer records exactly when it has a session. *)
Definition armed (c : Chat) : Prop :=
  isRecording c = true <-> is_Some (recordingRef c).

End Capture.

(* ===================================================================== *)
(** * Data model *)
(* ===================================================================== *)

Module Data.

(** A JavaScript value that came out of [JSON.parse], or [undefined]:
    the payloads of stream events, opaque to the client. *)
Inductive value : Type :=
| VUndefined
| VNull
| VBool (b : bool)
| VNum (n : Z)
| VStr (s : string)
| VArr (items : list value)
| VObj (fields : list (string * value)).

(** [!!v]. *)
Definition truthy (v : value) : bool :=
  match v with
  | VUndefined | VNull => false
  | VBool b => b
  | VNum n => negb (Z.eqb n 0)
  | VStr s => negb (String.eqb s "")
  | VArr _ | VObj _ => true
  end.

(** [!!s] for a string that may be [null] or [undefined]. *)
Definition nonempty (s : option string) : bool :=
  match s with
  | Some s => negb (String.eqb s "")
  | None => false
  end.

(** [s || fallback] for a string that may be [null] or [undefined]. *)
Definition or_else (s : option string) (fallback : string) : string :=
  match s with
  | Some s => if String.eqb s "" then fallback else s
  | None => fallback
  end.

(** The value of an own property in a list of fields. *)
Fixpoint field (fields : list (string * value)) (k : string) : value :=
  match fields with
  | [] => VUndefined
  | (k', v) :: rest => if String.eqb k' k then v else field rest k
  end.

(** [v.k]: reading a property of [null] or [undefined] is a [TypeError];
    a primitive or an array has none of the properties read here. *)
Definition get (v : value) (k : string) : outcome value :=
  match v with
  | VUndefined | VNull => Throw TypeError
  | VObj fields => Return (field fields k)
  | _ => Return VUndefined
  end.

(** [v?.k]. *)
Definition get_opt (v : value) (k : string) : value :=
  match v with
  | VObj fields => field fields k
  | _ => VUndefined
  end.

(** [v === 'literal']. *)
Definition is_str (v : value) (literal : string) : bool :=
  match v with
  | VStr s => String.eqb s literal
  | _ => false
  end.

(** [loading] of an assistant message. *)
Record Loading : Type := mkLoading {
  l_clarification : bool;
  l_stage1 : bool;
  l_stage2 : bool;
  l_stage3 : bool
}.

(** The fields of an assistant message ([role: 'assistant']). *)
Record Assistant : Type := mkAssistant {
  clarification : value;
  stage1 : value;
  stage2 : value;
  stage3 : value;
  metadata : value;
  loading : Loading
}.

(** A message: [{ role: 'user', content }] or an assistant message. *)
Inductive Message : Type :=
| User (content : string)
| Assistant_ (a : Assistant).

(** A conversation object. A field is [None] when the property is
    [null], [undefined] or missing ([messages]: when it is not an array). *)
Record Conversation : Type := mkConversation {
  id : option string;
  created_at : option string;
  title : option string;
  messages : option (list Message)
}.

(** An entry of the index, as [upsertIndexItem] builds it. *)
Record Entry : Type := mkEntry {
  e_id : string;
  e_created_at : string;
  e_title : string;
  e_message_count : nat
}.

End Data.

(* ===================================================================== *)
(** * Council selection *)
(* ===================================================================== *)

Module Sidebar.

(** [councilModels.includes(model)]. *)
Definition includes (councilModels : list string) (model : string) : bool :=
  existsb (String.eqb model) councilModels.

(** [handleCouncilModelToggle(model)], in a render whose selection is
    [councilModels]: the argument of [onCouncilModelsChange], or [None]
    when it is not called. *)
Definition handleCouncilModelToggle (councilModels : list string)
  (model : string) : option (list string) :=
  if includes councilModels model then
    if (2 <? length councilModels)%nat
    then Some (filter (fun m => m ≠ model) councilModels)
    else None
  else
    if (length councilModels <? 6)%nat
    then Some (councilModels ++ [model])%list
    else None.

(** The selection after the click: [setCouncilModels] is the callback. *)
Definition toggled (councilModels : list string) (model : string) : list string :=
  default councilModels (handleCouncilModelToggle councilModels model).

(** [disabled] of the checkbox of [model]. *)
Definition disabled (councilModels : list string) (model : string) : bool :=
  includes councilModels model && (length councilModels <=? 2)%nat.

(** A selection the panel asks for: two to six models, each once. *)
Definition valid (councilModels : list string) : Prop :=
  NoDup councilModels /\ (2 <= length councilModels <= 6)%nat.

End Sidebar.

(* ===================================================================== *)
(** * ConversationStore *)
(* ===================================================================== *)

Module Store.

Import Data.

(** What [JSON.parse] makes of a stored text. The elements of an array
    are index entries, as in every array that [upsertIndexItem] has
    written: this is the store of a session. [LocalConversations] below
    is the store over any array, on which reading an element may throw,
    and [LocalConversationsFacts.save_embed] relates the two. The fields
    of an object are those of a conversation, each possibly missing:
    [JObject] of four [None]s is the object with none of them. *)
Inductive json : Type :=
| JNull
| JPrimitive                       (* a boolean, a number or a string *)
| JArray (entries : list Entry)
| JObject (c : Conversation).

(** A string of [localStorage], identified by what [JSON.parse] makes of
    it: [Json j] is a text that parses to [j], [Garbage s] a string [s] on
    which [JSON.parse] throws, the empty string among them. The code only
    reads a text through [JSON.parse] and only writes one from
    [JSON.stringify], so nothing else of it is observed. *)
Inductive text : Type :=
| Json (j : json)
| Garbage (s : string).

Definition JSON_parse (t : text) : outcome json :=
  match t with
  | Json j => Return j
  | Garbage _ => Throw (Error "SyntaxError")
  end.

Definition JSON_stringify (j : json) : text := Json j.

(** [!raw] of a string: only the empty string is falsy. *)
Definition is_empty (raw : text) : bool :=
  match raw with
  | Garbage s => String.eqb s ""
  | Json _ => false
  end.

(** [localStorage], by key; [!!] is [getItem], [<[_:=_]>] is [setItem]
    and [delete] is [removeItem]. *)
Abbreviation Storage := (gmap string text).

Definition INDEX_KEY : string := "llmc:index:v1".
Definition CONV_PREFIX : string := "llmc:conv:v1:".

Definition convKey (id : string) : string := CONV_PREFIX ++ id.

Definition safeJsonParse (value : text) (fallback : json) : json :=
  match JSON_parse value with
  | Return j => j
  | Throw _ => fallback
  end.

Definition getIndex (ls : Storage) : list Entry :=
  let idx :=
    match ls !! INDEX_KEY with
    | Some raw => if is_empty raw then JArray [] else safeJsonParse raw (JArray [])
    | None => JArray []
    end in
  match idx with
  | JArray entries => entries
  | _ => []
  end.

Definition setIndex (index : list Entry) (ls : Storage) : Storage :=
  <[INDEX_KEY := JSON_stringify (JArray index)]> ls.

(** [index.findIndex((c) => c.id === id)]: [None] for [-1]. *)
Fixpoint findIndex (id : string) (index : list Entry) : option nat :=
  match index with
  | [] => None
  | c :: rest =>
      if String.eqb (e_id c) id then Some 0%nat
      else S <$> findIndex id rest
  end.

Section Sorting.

(** [String.prototype.localeCompare], negative, zero or positive: the
    host's collation. *)
Variable localeCompare : string -> string -> Z.

(** The comparator [(a, b) => String(b.created_at).localeCompare(String(a.created_at))]. *)
Definition newest_first (a b : Entry) : Z :=
  localeCompare (e_created_at b) (e_created_at a).

(** [Array.prototype.sort] is stable, so with a consistent comparator its
    result is the one of a stable insertion sort: an element goes before
    the first one it must strictly precede. *)
Fixpoint insert_sorted (x : Entry) (sorted : list Entry) : list Entry :=
  match sorted with
  | [] => [x]
  | y :: rest =>
      if (newest_first x y <=? 0)%Z then x :: y :: rest
      else y :: insert_sorted x rest
  end.

Definition sort (index : list Entry) : list Entry :=
  foldr insert_sorted [] index.

(** The array after [index[existingIdx] = nextItem] or
    [index.unshift(nextItem)]. *)
Definition upsert (nextItem : Entry) (index : list Entry) : list Entry :=
  match findIndex (e_id nextItem) index with
  | Some existingIdx => <[existingIdx := nextItem]> index
  | None => nextItem :: index
  end.

(** [upsertIndexItem(item)]; the callers pass the four fields, so
    [item.message_count ?? 0] is [item.message_count]. *)
Definition upsertIndexItem (item : Entry) (ls : Storage) : list Entry * Storage :=
  let index := getIndex ls in
  let nextItem :=
    {| e_id := e_id item;
       e_created_at := e_created_at item;
       e_title := or_else (Some (e_title item)) "New Conversation";
       e_message_count := e_message_count item |} in
  let index := sort (upsert nextItem index) in
  (index, setIndex index ls).

(** [localConversations.list()]. *)
Definition list_ (ls : Storage) : list Entry := getIndex ls.

(** [localConversations.create()]; [fresh] is what [randomId()] returns
    and [now] what [nowIso()] returns. *)
Definition create (fresh now : string) (ls : Storage)
  : Conversation * list Entry * Storage :=
  let conversation :=
    {| id := Some fresh; created_at := Some now;
       title := Some "New Conversation"; messages := Some [] |} in
  let ls := <[convKey fresh := JSON_stringify (JObject conversation)]> ls in
  let '(index, ls) :=
    upsertIndexItem {| e_id := fresh; e_created_at := now;
                       e_title := "New Conversation";
                       e_message_count := 0 |} ls in
  (conversation, index, ls).

(** [localConversations.get(id)]: [None] is [null]. *)
Definition get (id : string) (ls : Storage) : option json :=
  match ls !! convKey id with
  | None => None
  | Some raw =>
      if is_empty raw then None
      else
        match safeJsonParse raw JNull with
        | JObject c => Some (JObject c)
        | JArray entries => Some (JArray entries)   (* typeof [] === 'object' *)
        | JNull | JPrimitive => None
        end
  end.

(** [localConversations.save(conversation)]; [conversation] is [None]
    when the argument is [null] or [undefined], and [now] is what
    [nowIso()] would return. *)
Definition save (now : string) (conversation : option Conversation) (ls : Storage)
  : outcome (list Entry * Storage) :=
  match conversation with
  | Some c =>
      match id c with
      | Some i =>
          if String.eqb i "" then Throw (Error "Conversation missing id")
          else
            let ls := <[convKey i := JSON_stringify (JObject c)]> ls in
            Return (upsertIndexItem
              {| e_id := i;
                 e_created_at := or_else (created_at c) now;
                 e_title := or_else (title c) "New Conversation";
                 e_message_count := match messages c with
                                    | Some ms => length ms
                                    | None => 0
                                    end |} ls)
      | None => Throw (Error "Conversation missing id")
      end
  | None => Throw (Error "Conversation missing id")
  end.

End Sorting.

(** ** The specification's words *)

(** A well-formed record: a conversation with its four fields. *)
Definition well_formed_record (t : text) : Prop :=
  match t with
  | Json (JObject c) =>
      is_Some (id c) /\ is_Some (created_at c) /\ is_Some (title c)
      /\ is_Some (messages c)
  | _ => False
  end.

(** The index entry of a record whose id is [i]: the title defaults to
    "New Conversation", the count is the length of [messages]. *)
Definition entry_of (now i : string) (c : Conversation) : Entry :=
  {| e_id := i;
     e_created_at := or_else (created_at c) now;
     e_title := or_else (title c) "New Conversation";
     e_message_count := length (default [] (messages c)) |}.

(** [index] with [entry] upserted: the first entry with its id replaced,
    or [entry] prepended when there is none. *)
Definition upserted (entry : Entry) (index result : list Entry) : Prop :=
  (Forall (fun c => e_id c ≠ e_id entry) index /\ result = entry :: index)
  \/ (exists before c after,
        index = (before ++ c :: after)%list
        /\ e_id c = e_id entry
        /\ Forall (fun c => e_id c ≠ e_id entry) before
        /\ result = (before ++ entry :: after)%list).

(** [a] may stand before [b] in an index sorted by [created_at]
    descending: [b] is not newer than [a]. *)
Definition not_older (localeCompare : string -> string -> Z) (a b : Entry) : Prop :=
  (localeCompare (e_created_at b) (e_created_at a) <= 0)%Z.

(** A collation for the examples: by code unit. *)
Definition byCodeUnit (x y : string) : Z :=
  match String_as_OT.compare x y with
  | Lt => -1
  | Eq => 0
  | Gt => 1
  end.

(** The claim about [get], as the specification words it. *)
Definition absent_unless_record (id : string) (ls : Storage) : Prop :=
  (ls !! convKey id = None
   \/ exists t : text, ls !! convKey id = Some t /\ ~ well_formed_record t)
  -> get id ls = None.

(** The object with none of the fields of a record. *)
Definition empty_object : Conversation :=
  {| id := None; created_at := None; title := None; messages := None |}.

(** A text that holds a JSON object. *)
Definition parses_to_object (t : text) : Prop :=
  match t with
  | Json (JObject _) => True
  | _ => False
  end.

(** A text that holds a JSON array. *)
Definition parses_to_array (t : text) : Prop :=
  match t with
  | Json (JArray _) => True
  | _ => False
  end.

(** The ids of an index, in order. *)
Definition ids (index : list Entry) : list string := map e_id index.

End Store.

(* ===================================================================== *)
(** * ConversationStore over any stored index *)
(* ===================================================================== *)

(** [Store] above is the store of a session: every array it holds is an
    array of index entries, which is what [upsertIndexItem] writes and
    what a session reads back. The code itself takes whatever array
    [JSON.parse] returns and reads [c.id] and [c.created_at] of each
    element; on an element that is [null] these reads throw. This module
    is the store over any stored array: the elements are values, the
    reads may throw, and a call that throws leaves the store as it was
    at the [throw]. *)

Module LocalConversations.

Import Data.

(** What [JSON.parse] makes of a stored text; the elements of an array
    are any values of a JSON text, [null] among them. None is
    [undefined], which no JSON text holds. *)
Inductive json : Type :=
| JNull
| JPrimitive                       (* a boolean, a number or a string *)
| JArray (elements : list value)
| JObject (c : Conversation).

(** A string of [localStorage], identified by what [JSON.parse] makes of
    it, as in [Store]. *)
Inductive text : Type :=
| Json (j : json)
| Garbage (s : string).

Definition JSON_parse (t : text) : outcome json :=
  match t with
  | Json j => Return j
  | Garbage _ => Throw (Error "SyntaxError")
  end.

Definition JSON_stringify (j : json) : text := Json j.

(** [!raw] of a string: only the empty string is falsy. *)
Definition is_empty (raw : text) : bool :=
  match raw with
  | Garbage s => String.eqb s ""
  | Json _ => false
  end.

Abbreviation Storage := (gmap string text).

Abbreviation INDEX_KEY := Store.INDEX_KEY.
Abbreviation convKey := Store.convKey.

Definition safeJsonParse (value : text) (fallback : json) : json :=
  match JSON_parse value with
  | Return j => j
  | Throw _ => fallback
  end.

Definition getIndex (ls : Storage) : list value :=
  let idx :=
    match ls !! INDEX_KEY with
    | Some raw => if is_empty raw then JArray [] else safeJsonParse raw (JArray [])
    | None => JArray []
    end in
  match idx with
  | JArray elements => elements
  | _ => []
  end.

Definition setIndex (index : list value) (ls : Storage) : Storage :=
  <[INDEX_KEY := JSON_stringify (JArray index)]> ls.

(** [c.id === id], for a string [id]: the read throws on [null]. *)
Definition has_id (id : string) (c : value) : outcome bool :=
  do v <- Data.get c "id";
  Return (is_str v id).

(** [index.findIndex((c) => c.id === id)]: [None] for [-1]. The search
    stops at the first element found. *)
Fixpoint findIndex (id : string) (index : list value) : outcome (option nat) :=
  match index with
  | [] => Return None
  | c :: rest =>
      do found <- has_id id c;
      if found then Return (Some 0%nat)
      else
        do r <- findIndex id rest;
        Return (S <$> r)
  end.

(** [index.filter((c) => c.id !== id)]: every element is read. *)
Fixpoint filter_out (id : string) (index : list value) : outcome (list value) :=
  match index with
  | [] => Return []
  | c :: rest =>
      do found <- has_id id c;
      do kept <- filter_out id rest;
      Return (if found then kept else c :: kept)
  end.

(** The object that [upsertIndexItem] builds from its argument; the
    callers pass the four fields, so [item.message_count ?? 0] is
    [item.message_count]. *)
Definition nextItem (item : Entry) : value :=
  VObj [("id", VStr (e_id item));
        ("created_at", VStr (e_created_at item));
        ("title", VStr (or_else (Some (e_title item)) "New Conversation"));
        ("message_count", VNum (Z.of_nat (e_message_count item)))].

Section Sorting.

(** [String.prototype.localeCompare]: the host's collation. *)
Variable localeCompare : string -> string -> Z.

(** [String(v)] of a number, an array or an object: the host's. *)
Variable ToString : value -> string.

(** [String(v)]. *)
Definition String_ (v : value) : string :=
  match v with
  | VUndefined => "undefined"
  | VNull => "null"
  | VBool true => "true"
  | VBool false => "false"
  | VStr s => s
  | _ => ToString v
  end.

(** The comparator [(a, b) =>
    String(b.created_at).localeCompare(String(a.created_at))]. *)
Definition newest_first (a b : value) : outcome Z :=
  do cb <- Data.get b "created_at";
  do ca <- Data.get a "created_at";
  Return (localeCompare (String_ cb) (String_ ca)).

(** [Array.prototype.sort] with this comparator, as in [Store]: a stable
    insertion sort. The comparator is called on every element of an
    array of two or more, as any sort by comparison must; when it
    throws, so does the sort. (An element that is [undefined] would be
    set aside without a call; a parsed array has none.) *)
Fixpoint insert_sorted (x : value) (sorted : list value) : outcome (list value) :=
  match sorted with
  | [] => Return [x]
  | y :: rest =>
      do c <- newest_first x y;
      if (c <=? 0)%Z then Return (x :: y :: rest)
      else
        do rest' <- insert_sorted x rest;
        Return (y :: rest')
  end.

Fixpoint sort (index : list value) : outcome (list value) :=
  match index with
  | [] => Return []
  | x :: rest =>
      do sorted <- sort rest;
      insert_sorted x sorted
  end.

(** [upsertIndexItem(item)]: the index it returns, or what it throws,
    and the store after it. The index is written last. *)
Definition upsertIndexItem (item : Entry) (ls : Storage)
  : outcome (list value) * Storage :=
  let index := getIndex ls in
  let sorted :=
    do existingIdx <- findIndex (e_id item) index;
    sort (match existingIdx with
          | Some k => <[k := nextItem item]> index
          | None => nextItem item :: index
          end) in
  match sorted with
  | Return index => (Return index, setIndex index ls)
  | Throw e => (Throw e, ls)
  end.

(** [localConversations.list()]. *)
Definition list_ (ls : Storage) : list value := getIndex ls.

(** [localConversations.create()]; [fresh] is what [randomId()] returns
    and [now] what [nowIso()] returns. *)
Definition create (fresh now : string) (ls : Storage)
  : outcome (Conversation * list value) * Storage :=
  let conversation :=
    {| id := Some fresh; created_at := Some now;
       title := Some "New Conversation"; messages := Some [] |} in
  let ls := <[convKey fresh := JSON_stringify (JObject conversation)]> ls in
  let '(index, ls) :=
    upsertIndexItem {| e_id := fresh; e_created_at := now;
                       e_title := "New Conversation";
                       e_message_count := 0 |} ls in
  (do index <- index; Return (conversation, index), ls).

(** [localConversations.get(id)]: [None] is [null]. *)
Definition get (id : string) (ls : Storage) : option json :=
  match ls !! convKey id with
  | None => None
  | Some raw =>
      if is_empty raw then None
      else
        match safeJsonParse raw JNull with
        | JObject c => Some (JObject c)
        | JArray elements => Some (JArray elements)  (* typeof [] === 'object' *)
        | JNull | JPrimitive => None
        end
  end.

(** [localConversations.save(conversation)]; [conversation] is [None]
    when the argument is [null] or [undefined]. The record is written
    before the index is read. *)
Definition save (now : string) (conversation : option Conversation) (ls : Storage)
  : outcome (list value) * Storage :=
  match conversation with
  | Some c =>
      match id c with
      | Some i =>
          if String.eqb i "" then (Throw (Error "Conversation missing id"), ls)
          else
            let ls := <[convKey i := JSON_stringify (JObject c)]> ls in
            upsertIndexItem
              {| e_id := i;
                 e_created_at := or_else (created_at c) now;
                 e_title := or_else (title c) "New Conversation";
                 e_message_count := match messages c with
                                    | Some ms => length ms
                                    | None => 0
                                    end |} ls
      | None => (Throw (Error "Conversation missing id"), ls)
      end
  | None => (Throw (Error "Conversation missing id"), ls)
  end.

(** [localConversations.updateTitle(id, title)]; [None] is [null]. An
    array stored under the key has none of the fields of a conversation,
    so the spread of it is an object without them. *)
Definition updateTitle (now : string) (id : string) (title : option string)
  (ls : Storage)
  : outcome (option (Conversation * list value)) * Storage :=
  match get id ls with
  | None => (Return None, ls)
  | Some conv =>
      let c := match conv with
               | JObject c => c
               | _ => Store.empty_object
               end in
      let next :=
        {| Data.id := Data.id c;
           created_at := created_at c;
           Data.title := if nonempty title then title else Data.title c;
           messages := messages c |} in
      let '(index, ls) := save now (Some next) ls in
      (do index <- index; Return (Some (next, index)), ls)
  end.

(** [localConversations.remove(id)]: the record is removed before the
    index is read. *)
Definition remove (id : string) (ls : Storage) : outcome (list value) * Storage :=
  let ls := delete (convKey id) ls in
  match filter_out id (getIndex ls) with
  | Return index => (Return index, setIndex index ls)
  | Throw e => (Throw e, ls)
  end.

(** ** The specification's words *)

(** The sort key of an element. *)
Definition key (c : value) : string := String_ (get_opt c "created_at").

(** [a] may stand before [b] in an index sorted by [created_at]
    descending: [b] is not newer than [a]. *)
Definition not_older (a b : value) : Prop :=
  (localeCompare (key b) (key a) <= 0)%Z.

(** The claim about failure, as the specification words it. *)
Definition fails_exactly_when_absent (now : string) (c : Conversation)
  (ls : Storage) : Prop :=
  fails (fst (save now (Some c) ls)) <-> id c = None.

End Sorting.

(** An element whose properties can be read: any value but [null]
    ([undefined] is no element of a parsed array). *)
Definition readable (c : value) : Prop :=
  match c with
  | VNull | VUndefined => False
  | _ => True
  end.

(** The element has the id [i]. *)
Definition id_is (i : string) (c : value) : Prop :=
  is_str (get_opt c "id") i = true.

#[global] Instance id_is_dec (i : string) (c : value) : Decision (id_is i c).
Proof. unfold id_is. apply _. Defined.

(** An index entry as an element: the object with its four fields. *)
Definition entry_value (e : Entry) : value :=
  VObj [("id", VStr (e_id e));
        ("created_at", VStr (e_created_at e));
        ("title", VStr (e_title e));
        ("message_count", VNum (Z.of_nat (e_message_count e)))].

(** [index] with [entry] upserted under the id [i]: the first element
    with that id replaced, or [entry] prepended when there is none. *)
Definition upserted (i : string) (entry : value) (index result : list value)
  : Prop :=
  (Forall (fun c => ~ id_is i c) index /\ result = entry :: index)
  \/ (exists before c after,
        index = (before ++ c :: after)%list
        /\ id_is i c
        /\ Forall (fun c => ~ id_is i c) before
        /\ result = (before ++ entry :: after)%list).

(** The string ids of an index, in order. *)
Definition ids (index : list value) : list string :=
  omap (fun c => match get_opt c "id" with
                 | VStr s => Some s
                 | _ => None
                 end) index.

(** A stand-in for the host's [String] in the examples: their sort keys
    are strings, so it is never called. *)
Definition ToString_unused (v : value) : string := "".

(** ** The store of a session *)

(** What [Store] reads from a text, as this module reads it. *)
Definition embed_json (j : Store.json) : json :=
  match j with
  | Store.JNull => JNull
  | Store.JPrimitive => JPrimitive
  | Store.JArray entries => JArray (map entry_value entries)
  | Store.JObject c => JObject c
  end.

(** A text of [Store] as a text of this store. *)
Definition embed_text (t : Store.text) : text :=
  match t with
  | Store.Json j => Json (embed_json j)
  | Store.Garbage s => Garbage s
  end.

(** A store of [Store] as a store of this module. *)
Definition embed (ls : Store.Storage) : Storage := embed_text <$> ls.

End LocalConversations.

(* ===================================================================== *)
(** * The streaming reader *)
(* ===================================================================== *)

Module Sse.

Import Data.

Definition newline : ascii := "010"%char.

(** [chunk.split('\n')]. *)
Fixpoint split_lines (chunk : string) : list string :=
  match chunk with
  | EmptyString => [EmptyString]
  | String c rest =>
      if Ascii.eqb c newline then EmptyString :: split_lines rest
      else
        match split_lines rest with
        | line :: lines => String c line :: lines
        | [] => [String c EmptyString]
        end
  end.

(** [line.slice(6)]. *)
Fixpoint slice_from (n : nat) (line : string) : string :=
  match n, line with
  | O, _ => line
  | S n', String _ rest => slice_from n' rest
  | S _, EmptyString => EmptyString
  end.

(** What the transport does after the request is sent: [fetch] rejects,
    the response is not [ok], or the body yields decoded chunks until it
    is done or until [reader.read()] rejects. *)
Inductive Transport : Type :=
| FetchRejects
| ResponseNotOk
| Body (chunks : list string) (rejects : bool).

Section Reader.

(** [JSON.parse] on the payload of a line. *)
Variable JSON_parse : string -> outcome value.

(** The state the callback works on. *)
Context {S : Type}.

(** [onEvent(eventType, event)]. *)
Variable onEvent : value -> value -> S -> outcome S.

(** The body of [for (const line of lines)], with the console beside the
    state: a failure of [JSON.parse], of [event.type] or of the callback
    is caught and logged. *)
Definition on_line (line : string) (st : S * list string) : S * list string :=
  if String.prefix "data: " line then
    let data := slice_from 6 line in
    let attempt :=
      do event <- JSON_parse data;
      do eventType <- Data.get event "type";
      onEvent eventType event (fst st) in
    match attempt with
    | Return s' => (s', snd st)
    | Throw _ => (fst st, (snd st ++ ["Failed to parse SSE event:"])%list)
    end
  else st.

(** One turn of [while (true)] after a successful [reader.read()]. *)
Definition on_chunk (chunk : string) (st : S * list string) : S * list string :=
  foldl (fun st line => on_line line st) st (split_lines chunk).

(** [api.sendMessageStream] once the request is built: the state and the
    console after it, and whether the promise resolved or rejected. *)
Definition sendMessageStream (t : Transport) (s : S)
  : S * list string * outcome unit :=
  match t with
  | FetchRejects => (s, [], Throw TypeError)
  | ResponseNotOk => (s, [], Throw (Error "Failed to send message"))
  | Body chunks rejects =>
      (foldl (fun st chunk => on_chunk chunk st) (s, []) chunks,
       if rejects then Throw TypeError else Return tt)
  end.

(** ** The specification's words *)

(** The event of a line: the payload of a line that begins with
    ["data: "], when it parses to a value that has a [type] to read. *)
Definition event_of_line (line : string) : option (value * value) :=
  if String.prefix "data: " line then
    match JSON_parse (slice_from 6 line) with
    | Return event =>
        match Data.get event "type" with
        | Return eventType => Some (eventType, event)
        | Throw _ => None
        end
    | Throw _ => None
    end
  else None.

(** The events of a stream, in the order of its lines. *)
Definition events (chunks : list string) : list (value * value) :=
  omap event_of_line (concat (map split_lines chunks)).

(** A line that begins with ["data: "] and yields no event. *)
Definition skipped (line : string) : bool :=
  String.prefix "data: " line && bool_decide (event_of_line line = None).

(** Delivering an event to the callback; a callback that throws leaves
    the state as it was. *)
Definition deliver (s : S) (e : value * value) : S :=
  match onEvent (fst e) (snd e) s with
  | Return s' => s'
  | Throw _ => s
  end.

End Reader.


(** ** Chunks and lines *)

(** A string without a line feed. *)
Fixpoint one_line (s : string) : bool :=
  match s with
  | EmptyString => true
  | String c rest => negb (Ascii.eqb c newline) && one_line rest
  end.

(** A chunk that ends where a line ends. *)
Definition ends_line (chunk : string) : Prop :=
  exists body : string, chunk = body ++ String newline EmptyString.

(** The text of a stream: its chunks, joined. *)
Definition joined (chunks : list string) : string :=
  foldr String.append EmptyString chunks.


(** ** The text of a stream, line by line *)

(** A line of the stream: the text ["data: "] followed by a payload, or
    another text. *)
Inductive Line : Type :=
| DataLine (payload : string)
| OtherLine (text : string).

Definition text_of_line (l : Line) : string :=
  match l with
  | DataLine payload => "data: " ++ payload
  | OtherLine text => text
  end.

(** Lines joined by line feeds. *)
Fixpoint unlines (lines : list string) : string :=
  match lines with
  | [] => EmptyString
  | [line] => line
  | line :: rest => line ++ String newline (unlines rest)
  end.

(** The chunk that holds the lines [lines]. *)
Definition chunk_of (lines : list Line) : string :=
  unlines (map text_of_line lines).

(** A line holds no line feed, and a line that is not a data line does
    not begin with ["data: "]. *)
Definition proper (l : Line) : Prop :=
  match l with
  | DataLine payload => one_line payload = true
  | OtherLine text =>
      one_line text = true /\ forall payload, text ≠ ("data: " ++ payload)%string
  end.

(** A chunk as lines: at least one, each a proper line. *)
Definition lines_of_chunk (lines : list Line) : Prop :=
  lines ≠ [] /\ Forall proper lines.

(** The event that a line carries: the payload of a data line, when it
    parses to a value that has a [type] to read. *)
Definition parsed (JSON_parse : string -> outcome value) (l : Line)
  : option (value * value) :=
  match l with
  | DataLine payload =>
      match JSON_parse payload with
      | Return event =>
          match Data.get event "type" with
          | Return eventType => Some (eventType, event)
          | Throw _ => None
          end
      | Throw _ => None
      end
  | OtherLine _ => None
  end.

(** A data line that carries no event. *)
Definition unparsed (JSON_parse : string -> outcome value) (l : Line) : bool :=
  match l with
  | DataLine _ => bool_decide (parsed JSON_parse l = None)
  | OtherLine _ => false
  end.

End Sse.

(* ===================================================================== *)
(** * ConversationSession and StreamSessionController *)
(* ===================================================================== *)

Module App.

Import Data.

(** The state of the [App] component. *)
Record State : Type := mkState {
  conversations : list Entry;
  currentConversationId : option string;
  currentConversation : option Conversation;
  isLoading : bool;
  councilModels : list string;
  chairmanModel : option string;
  pendingClarification : value;
  originalQuery : option string
}.

(** The component's state and [localStorage]. *)
Record World : Type := mkWorld {
  state : State;
  localStorage : Store.Storage
}.

(** A state update queued by a [set...] call. React applies the queue in
    order; an updater that throws stops it. *)
Definition Update : Type := World -> outcome World.

Fixpoint apply_all (queue : list Update) (w : World) : outcome World :=
  match queue with
  | [] => Return w
  | u :: rest => do w' <- u w; apply_all rest w'
  end.

(** The body of the streaming request. *)
Record Request : Type := mkRequest {
  conversationId : string;
  content : string;
  chairman_model : option string;
  council_models : list string;
  skip_clarification : bool;
  is_first_message : bool
}.

(** What a call of a handler did before its first [await]: the updates
    it queued and the request it sent, if it sent one. *)
Record Handler : Type := mkHandler {
  updates : list Update;
  request : option Request
}.

Definition on_state (f : State -> State) : Update :=
  fun w => Return {| state := f (state w); localStorage := localStorage w |}.

Definition setConversations (v : list Entry) : State -> State :=
  fun s =>
    {| conversations := v;
       currentConversationId := currentConversationId s;
       currentConversation := currentConversation s;
       isLoading := isLoading s;
       councilModels := councilModels s;
       chairmanModel := chairmanModel s;
       pendingClarification := pendingClarification s;
       originalQuery := originalQuery s |}.

Definition setCurrentConversation (v : option Conversation) : State -> State :=
  fun s =>
    {| conversations := conversations s;
       currentConversationId := currentConversationId s;
       currentConversation := v;
       isLoading := isLoading s;
       councilModels := councilModels s;
       chairmanModel := chairmanModel s;
       pendingClarification := pendingClarification s;
       originalQuery := originalQuery s |}.

Definition setIsLoading (v : bool) : State -> State :=
  fun s =>
    {| conversations := conversations s;
       currentConversationId := currentConversationId s;
       currentConversation := currentConversation s;
       isLoading := v;
       councilModels := councilModels s;
       chairmanModel := chairmanModel s;
       pendingClarification := pendingClarification s;
       originalQuery := originalQuery s |}.

Definition setPendingClarification (v : value) : State -> State :=
  fun s =>
    {| conversations := conversations s;
       currentConversationId := currentConversationId s;
       currentConversation := currentConversation s;
       isLoading := isLoading s;
       councilModels := councilModels s;
       chairmanModel := chairmanModel s;
       pendingClarification := v;
       originalQuery := originalQuery s |}.

Definition setOriginalQuery (v : option string) : State -> State :=
  fun s =>
    {| conversations := conversations s;
       currentConversationId := currentConversationId s;
       currentConversation := currentConversation s;
       isLoading := isLoading s;
       councilModels := councilModels s;
       chairmanModel := chairmanModel s;
       pendingClarification := pendingClarification s;
       originalQuery := v |}.

(** [{ ...prev, messages }]. *)
Definition with_messages (prev : Conversation) (ms : list Message) : Conversation :=
  {| id := id prev; created_at := created_at prev; title := title prev;
     messages := Some ms |}.

(** [{ ...prev, title }]. *)
Definition with_title (prev : Conversation) (t : option string) : Conversation :=
  {| id := id prev; created_at := created_at prev; title := t;
     messages := messages prev |}.

(** The placeholder that the events fill in. *)
Definition assistantMessage : Assistant :=
  {| clarification := VNull; stage1 := VNull; stage2 := VNull;
     stage3 := VNull; metadata := VNull;
     loading := {| l_clarification := false; l_stage1 := false;
                   l_stage2 := false; l_stage3 := false |} |}.

(** [lastMsg.loading.<stage> = b]. *)
Definition set_l_clarification (b : bool) (l : Loading) : Loading :=
  {| l_clarification := b; l_stage1 := l_stage1 l;
     l_stage2 := l_stage2 l; l_stage3 := l_stage3 l |}.
Definition set_l_stage1 (b : bool) (l : Loading) : Loading :=
  {| l_clarification := l_clarification l; l_stage1 := b;
     l_stage2 := l_stage2 l; l_stage3 := l_stage3 l |}.
Definition set_l_stage2 (b : bool) (l : Loading) : Loading :=
  {| l_clarification := l_clarification l; l_stage1 := l_stage1 l;
     l_stage2 := b; l_stage3 := l_stage3 l |}.
Definition set_l_stage3 (b : bool) (l : Loading) : Loading :=
  {| l_clarification := l_clarification l; l_stage1 := l_stage1 l;
     l_stage2 := l_stage2 l; l_stage3 := b |}.

(** The writes of the event cases on [lastMsg]. *)
Definition clarification_start (a : Assistant) : Assistant :=
  {| clarification := clarification a; stage1 := stage1 a; stage2 := stage2 a;
     stage3 := stage3 a; metadata := metadata a;
     loading := set_l_clarification true (loading a) |}.

Definition clarification_needed (data : value) (a : Assistant) : Assistant :=
  {| clarification := data; stage1 := stage1 a; stage2 := stage2 a;
     stage3 := stage3 a; metadata := metadata a;
     loading := set_l_clarification false (loading a) |}.

Definition clarification_complete (a : Assistant) : Assistant :=
  {| clarification := clarification a; stage1 := stage1 a; stage2 := stage2 a;
     stage3 := stage3 a; metadata := metadata a;
     loading := set_l_clarification false (loading a) |}.

Definition stage1_start (a : Assistant) : Assistant :=
  {| clarification := clarification a; stage1 := stage1 a; stage2 := stage2 a;
     stage3 := stage3 a; metadata := metadata a;
     loading := set_l_stage1 true (loading a) |}.

Definition stage1_complete (data : value) (a : Assistant) : Assistant :=
  {| clarification := clarification a; stage1 := data; stage2 := stage2 a;
     stage3 := stage3 a; metadata := metadata a;
     loading := set_l_stage1 false (loading a) |}.

Definition stage2_start (a : Assistant) : Assistant :=
  {| clarification := clarification a; stage1 := stage1 a; stage2 := stage2 a;
     stage3 := stage3 a; metadata := metadata a;
     loading := set_l_stage2 true (loading a) |}.

Definition stage2_complete (data meta : value) (a : Assistant) : Assistant :=
  {| clarification := clarification a; stage1 := stage1 a; stage2 := data;
     stage3 := stage3 a; metadata := meta;
     loading := set_l_stage2 false (loading a) |}.

Definition stage3_start (a : Assistant) : Assistant :=
  {| clarification := clarification a; stage1 := stage1 a; stage2 := stage2 a;
     stage3 := stage3 a; metadata := metadata a;
     loading := set_l_stage3 true (loading a) |}.

Definition stage3_complete (data : value) (a : Assistant) : Assistant :=
  {| clarification := clarification a; stage1 := stage1 a; stage2 := stage2 a;
     stage3 := data; metadata := metadata a;
     loading := set_l_stage3 false (loading a) |}.

(** [const messages = [...prev.messages];
     const lastMsg = messages[messages.length - 1];] and the writes [f] on
    [lastMsg]. With no last message [lastMsg] is [undefined], and a user
    message has no [loading]: the write throws a [TypeError]. *)
Fixpoint write_last (f : Assistant -> Assistant) (ms : list Message)
  : outcome (list Message) :=
  match ms with
  | [] => Throw TypeError
  | [m] =>
      match m with
      | Assistant_ a => Return [Assistant_ (f a)]
      | User _ => Throw TypeError
      end
  | m :: rest => do rest' <- write_last f rest; Return (m :: rest')
  end.

(** [prev.messages.slice(0, -2)]. *)
Definition slice_0_m2 (ms : list Message) : list Message :=
  take (length ms - 2) ms.

Section Session.

(** The host's collation and clock, as [Store] reads them. *)
Variable localeCompare : string -> string -> Z.
Variable now : string.

(** [localConversations.save(next)] inside an updater, then the new state
    [next]; [refresh] is [setConversations(localConversations.list())]. *)
Definition save_and_set (refresh : bool) (next : Conversation) : Update :=
  fun w =>
    do r <- Store.save localeCompare now (Some next) (localStorage w);
    let ls := snd r in
    let s := setCurrentConversation (Some next) (state w) in
    Return {| state := if refresh then setConversations (Store.list_ ls) s else s;
              localStorage := ls |}.

(** [setCurrentConversation((prev) => { const next = { ...prev, messages:
    [...prev.messages, m] }; ... })]. *)
Definition append_message (m : Message) : Update :=
  fun w =>
    match currentConversation (state w) with
    | Some prev =>
        match messages prev with
        | Some ms => save_and_set true (with_messages prev (ms ++ [m])%list) w
        | None => Throw TypeError
        end
    | None => Throw TypeError
    end.

(** The updater of an event case that writes on [lastMsg]. The code
    writes in place, on the object that [prev] shares with [next]; the
    update drops [prev], so the new log is the old one with its last
    message rewritten. *)
Definition on_last (f : Assistant -> Assistant) : Update :=
  fun w =>
    match currentConversation (state w) with
    | Some prev =>
        match messages prev with
        | Some ms =>
            do ms' <- write_last f ms;
            save_and_set false (with_messages prev ms') w
        | None => Throw TypeError
        end
    | None => Throw TypeError
    end.

(** The updater of [title_complete]: [{ ...prev, title:
    event.data?.title || prev.title }]. The service sends a string, and
    a title of [Conversation] is a string: a title in the event that is
    truthy and not a string has no counterpart here, and the previous
    title is kept for it. *)
Definition on_title (t : value) : Update :=
  fun w =>
    match currentConversation (state w) with
    | Some prev =>
        save_and_set true
          (with_title prev (match t with
                            | VStr s => if String.eqb s "" then title prev else Some s
                            | _ => title prev
                            end)) w
    | None =>
        if truthy t then Throw (Error "Conversation missing id")
        else Throw TypeError
    end.

(** The updater of the [catch] block. *)
Definition rollback : Update :=
  fun w =>
    match currentConversation (state w) with
    | Some prev =>
        match messages prev with
        | Some ms => save_and_set true (with_messages prev (slice_0_m2 ms)) w
        | None => Throw TypeError
        end
    | None => Return w
    end.

(** [setConversations(localConversations.list())]; the list is read when
    the update is applied, and only [conversations] depends on when. *)
Definition refresh_list : Update :=
  fun w => Return {| state := setConversations (Store.list_ (localStorage w)) (state w);
                     localStorage := localStorage w |}.

(** The callback given to [api.sendMessageStream]: the updates queued
    for one event. The reader has read [event.type], so [event] is
    neither [null] nor [undefined] and reading [event.data] does not
    throw. *)
Definition onEvent (eventType event : value) : list Update :=
  let data := get_opt event "data" in
  if is_str eventType "clarification_start" then
    [on_last clarification_start]
  else if is_str eventType "clarification_needed" then
    [on_last (clarification_needed data);
     on_state (setPendingClarification data);
     on_state (setIsLoading false)]
  else if is_str eventType "clarification_complete" then
    [on_last clarification_complete]
  else if is_str eventType "stage1_start" then
    [on_last stage1_start]
  else if is_str eventType "stage1_complete" then
    [on_last (stage1_complete data)]
  else if is_str eventType "stage2_start" then
    [on_last stage2_start]
  else if is_str eventType "stage2_complete" then
    [on_last (stage2_complete data (get_opt event "metadata"))]
  else if is_str eventType "stage3_start" then
    [on_last stage3_start]
  else if is_str eventType "stage3_complete" then
    [on_last (stage3_complete data)]
  else if is_str eventType "title_complete" then
    [on_title (get_opt data "title")]
  else if is_str eventType "complete" then
    [on_state (setIsLoading false);
     on_state (setOriginalQuery None);
     refresh_list]
  else if is_str eventType "error" then
    [on_state (setIsLoading false)]
  else
    [].

(** The updates of the [catch] block. *)
Definition onCatch : list Update :=
  [rollback; on_state (setIsLoading false)].

(** The separator of the combined query. *)
Definition separator : string :=
  String Sse.newline (String Sse.newline "Additional context: ").

(** [handleSendMessage(content, skipClarification)] up to the call of
    [api.sendMessageStream], in a render whose state is [s]: the state
    variables it reads are the constants of that render. *)
Definition handleSendMessage (s : State) (content : string)
  (skipClarification : bool) : Handler :=
  match currentConversationId s, currentConversation s with
  | Some cid, Some conv =>
      if String.eqb cid "" then {| updates := []; request := None |}
      else
        let isFirstMessage :=
          match messages conv with
          | Some ms => Nat.eqb (length ms) 0
          | None => true
          end in
        let clarifying :=
          truthy (pendingClarification s) && nonempty (originalQuery s) in
        let finalContent :=
          if clarifying
          then default "" (originalQuery s) ++ separator ++ content
          else content in
        {| updates :=
             [on_state (setIsLoading true)]
             ++ (if clarifying
                 then [on_state (setPendingClarification VNull);
                       on_state (setOriginalQuery None)]
                 else [on_state (setOriginalQuery (Some content))])
             ++ [append_message (User content);
                 append_message (Assistant_ assistantMessage)];
           request :=
             Some {| conversationId := cid;
                     content := finalContent;
                     chairman_model := chairmanModel s;
                     council_models := councilModels s;
                     skip_clarification :=
                       if clarifying then true else skipClarification;
                     is_first_message := isFirstMessage |} |}
  | _, _ => {| updates := []; request := None |}
  end.

(** [handleSkipClarification()], in a render whose state is [s]. The
    [handleSendMessage] it calls is the one of the same render: the
    queued [setPendingClarification(null)] has not changed the
    [pendingClarification] that call reads. *)
Definition handleSkipClarification (s : State) : Handler :=
  match originalQuery s with
  | Some q =>
      if String.eqb q "" then {| updates := []; request := None |}
      else
        let h := handleSendMessage s q true in
        {| updates := on_state (setPendingClarification VNull) :: updates h;
           request := request h |}
  | None => {| updates := []; request := None |}
  end.

(** [JSON.parse] on the payload of a line of the stream. *)
Variable JSON_parse : string -> outcome value.

(** A whole call of a handler: the queue it leaves behind once the
    stream has ended or the transport has failed, applied in order. *)
Definition run (h : Handler) (t : Sse.Transport) (w : World) : outcome World :=
  match request h with
  | None => apply_all (updates h) w
  | Some _ =>
      let '(queue, _, result) :=
        Sse.sendMessageStream JSON_parse
          (fun eventType event queue =>
             Return (queue ++ onEvent eventType event)%list)
          t (updates h) in
      apply_all (match result with
                 | Return _ => queue
                 | Throw _ => (queue ++ onCatch)%list
                 end) w
  end.

End Session.

(** ** The fields of an assistant message *)

Inductive Field : Type :=
| F_clarification | F_stage1 | F_stage2 | F_stage3 | F_metadata
| F_loading_clarification | F_loading_stage1 | F_loading_stage2
| F_loading_stage3.

(** The content of a field: a payload or a flag. *)
Definition read (f : Field) (a : Assistant) : value + bool :=
  match f with
  | F_clarification => inl (clarification a)
  | F_stage1 => inl (stage1 a)
  | F_stage2 => inl (stage2 a)
  | F_stage3 => inl (stage3 a)
  | F_metadata => inl (metadata a)
  | F_loading_clarification => inr (l_clarification (loading a))
  | F_loading_stage1 => inr (l_stage1 (loading a))
  | F_loading_stage2 => inr (l_stage2 (loading a))
  | F_loading_stage3 => inr (l_stage3 (loading a))
  end.

(** The fields that the specification's table gives to each event. *)
Definition own_fields (eventType : value) : list Field :=
  if is_str eventType "clarification_start" then [F_loading_clarification]
  else if is_str eventType "clarification_needed"
       then [F_clarification; F_loading_clarification]
  else if is_str eventType "clarification_complete" then [F_loading_clarification]
  else if is_str eventType "stage1_start" then [F_loading_stage1]
  else if is_str eventType "stage1_complete" then [F_stage1; F_loading_stage1]
  else if is_str eventType "stage2_start" then [F_loading_stage2]
  else if is_str eventType "stage2_complete"
       then [F_stage2; F_metadata; F_loading_stage2]
  else if is_str eventType "stage3_start" then [F_loading_stage3]
  else if is_str eventType "stage3_complete" then [F_stage3; F_loading_stage3]
  else [].

(** ** The message log *)

(** The log in memory. *)
Definition in_memory (w : World) : option (list Message) :=
  match currentConversation (state w) with
  | Some c => messages c
  | None => None
  end.

(** The log of the record stored under [i]. *)
Definition persisted (i : string) (w : World) : option (list Message) :=
  match Store.get i (localStorage w) with
  | Some (Store.JObject c) => messages c
  | _ => None
  end.

(** The current conversation has the id [i] and the log [ms]. *)
Definition holds (i : string) (ms : list Message) (w : World) : Prop :=
  exists conv : Conversation,
    currentConversation (state w) = Some conv
    /\ id conv = Some i /\ i ≠ "" /\ messages conv = Some ms.

(** A conversation is selected, and it is the current one. *)
Definition current (i : string) (ms : list Message) (w : World) : Prop :=
  nonempty (currentConversationId (state w)) = true /\ holds i ms w.

(** What an update leaves alone in the session. *)
Definition same_session (w w' : World) : Prop :=
  currentConversationId (state w') = currentConversationId (state w)
  /\ pendingClarification (state w') = pendingClarification (state w)
  /\ originalQuery (state w') = originalQuery (state w)
  /\ isLoading (state w') = isLoading (state w).

(** A queue that takes the open assistant message [a] at the end of the
    log to [a'] and leaves the rest of the log, and the stored copy with
    it, in step. *)
Definition takes (i : string) (init : list Message) (a a' : Assistant)
  (q : list Update) : Prop :=
  forall w : World,
    holds i (init ++ [Assistant_ a])%list w ->
    exists w' : World,
      apply_all q w = Return w'
      /\ holds i (init ++ [Assistant_ a'])%list w'
      /\ (persisted i w = Some (init ++ [Assistant_ a])%list
          -> persisted i w' = Some (init ++ [Assistant_ a'])%list)
      /\ currentConversationId (state w') = currentConversationId (state w).

(** The transport call throws. *)
Definition throws (t : Sse.Transport) : Prop :=
  match t with
  | Sse.Body _ false => False
  | _ => True
  end.

(** The events that the reader delivers, and how the transport call ends. *)
Definition delivered (JSON_parse : string -> outcome value) (t : Sse.Transport)
  : list (value * value) :=
  match t with
  | Sse.Body chunks _ => Sse.events JSON_parse chunks
  | _ => []
  end.

Definition result_of (t : Sse.Transport) : outcome unit :=
  match t with
  | Sse.FetchRejects => Throw TypeError
  | Sse.ResponseNotOk => Throw (Error "Failed to send message")
  | Sse.Body _ rejects => if rejects then Throw TypeError else Return tt
  end.

(** The queue of a call whose reader delivered [delivered] and whose
    transport call ended with [result]. *)
Definition queue_of (localeCompare : string -> string -> Z) (now : string)
  (h : Handler) (delivered : list (value * value)) (result : outcome unit)
  : list Update :=
  (updates h
   ++ flat_map (fun e => onEvent localeCompare now (fst e) (snd e)) delivered
   ++ match result with
      | Return _ => []
      | Throw _ => onCatch localeCompare now
      end)%list.

(** ** The scenario of the specification *)

(** A conversation just created, stored and indexed. *)
Definition fresh_conversation : Conversation :=
  {| id := Some "c1"; created_at := Some "2024-05-01T10:00:00.000Z";
     title := Some "New Conversation"; messages := Some [] |}.

Definition fresh_world : World :=
  {| state :=
       {| conversations :=
            [mkEntry "c1" "2024-05-01T10:00:00.000Z" "New Conversation" 0];
          currentConversationId := Some "c1";
          currentConversation := Some fresh_conversation;
          isLoading := false;
          councilModels := [];
          chairmanModel := None;
          pendingClarification := VNull;
          originalQuery := None |};
     localStorage :=
       Store.setIndex
         [mkEntry "c1" "2024-05-01T10:00:00.000Z" "New Conversation" 0]
         (<[Store.convKey "c1" :=
              Store.JSON_stringify (Store.JObject fresh_conversation)]> ∅) |}.

(** A double quote, and a quoted word. *)
Definition dq : string := String (ascii_of_nat 34) EmptyString.
Definition quoted (s : string) : string := dq ++ s ++ dq.

(** The payloads of two lines of the stream. *)
Definition text_stage1_complete : string :=
  "{" ++ quoted "type" ++ ":" ++ quoted "stage1_complete" ++ ","
  ++ quoted "data" ++ ":{" ++ quoted "a" ++ ":" ++ quoted "4" ++ "}}".
Definition text_error : string :=
  "{" ++ quoted "type" ++ ":" ++ quoted "error" ++ ","
  ++ quoted "message" ++ ":" ++ quoted "model unavailable" ++ "}".

(** [JSON.parse] on these two texts; it is not asked about another. *)
Definition parse_scenario (s : string) : outcome value :=
  if String.eqb s text_stage1_complete then
    Return (VObj [("type", VStr "stage1_complete");
                  ("data", VObj [("a", VStr "4")])])
  else if String.eqb s text_error then
    Return (VObj [("type", VStr "error");
                  ("message", VStr "model unavailable")])
  else Throw (Error "SyntaxError").

(** The two events, each in a chunk of its own. *)
Definition scenario_chunks : list string :=
  ["data: " ++ text_stage1_complete ++ String Sse.newline (String Sse.newline "");
   "data: " ++ text_error ++ String Sse.newline (String Sse.newline "")].

(** The claim about the [error] event, as the specification words it:
    the log is as long as before the turn. *)
Definition error_rolls_back (localeCompare : string -> string -> Z) (now : string)
  (JSON_parse : string -> outcome value) (content : string)
  (chunks : list string) (w : World) : Prop :=
  (exists ev : value,
     (VStr "error", ev) ∈ Sse.events JSON_parse chunks)
  -> exists w' : World,
       run localeCompare now JSON_parse
         (handleSendMessage localeCompare now (state w) content false)
         (Sse.Body chunks false) w = Return w'
       /\ length <$> in_memory w' = length <$> in_memory w.

(** The [error] event of the scenario. *)
Definition error_event : value :=
  VObj [("type", VStr "error"); ("message", VStr "model unavailable")].

(** A session in which a clarification is pending. *)
Definition pending_state : State :=
  {| conversations :=
       [mkEntry "c1" "2024-05-01T10:00:00.000Z" "New Conversation" 2];
     currentConversationId := Some "c1";
     currentConversation :=
       Some {| id := Some "c1"; created_at := Some "2024-05-01T10:00:00.000Z";
               title := Some "New Conversation";
               messages :=
                 Some [User "What is 2+2?";
                       Assistant_
                         (clarification_needed
                            (VObj [("needs_clarification", VBool true);
                                   ("questions", VArr [VStr "Which year?"])])
                            assistantMessage)] |};
     isLoading := false;
     councilModels := [];
     chairmanModel := None;
     pendingClarification :=
       VObj [("needs_clarification", VBool true);
             ("questions", VArr [VStr "Which year?"])];
     originalQuery := Some "What is 2+2?" |}.

Definition pending_world : World :=
  {| state := pending_state; localStorage := ∅ |}.


(** ** The life of a conversation *)

Definition setCurrentConversationId (v : option string) : State -> State :=
  fun s =>
    {| conversations := conversations s;
       currentConversationId := v;
       currentConversation := currentConversation s;
       isLoading := isLoading s;
       councilModels := councilModels s;
       chairmanModel := chairmanModel s;
       pendingClarification := pendingClarification s;
       originalQuery := originalQuery s |}.

(** The state of a component just mounted: the initial values of
    [useState]. *)
Definition initial : State :=
  {| conversations := [];
     currentConversationId := None;
     currentConversation := None;
     isLoading := false;
     councilModels := [];
     chairmanModel := None;
     pendingClarification := VNull;
     originalQuery := None |}.

(** What the component reads of the object that [localConversations.get]
    returned: an array has none of the four properties. *)
Definition as_conversation (j : Store.json) : Conversation :=
  match j with
  | Store.JObject c => c
  | _ => Store.empty_object
  end.

(** [loadConversation(id)]. *)
Definition loadConversation (id : string) (w : World) : World :=
  {| state := setCurrentConversation
                (as_conversation <$> Store.get id (localStorage w)) (state w);
     localStorage := localStorage w |}.

(** The effect on [currentConversationId]. *)
Definition on_select (w : World) : World :=
  match currentConversationId (state w) with
  | Some id =>
      if String.eqb id "" then w
      else
        let w1 := loadConversation id w in
        {| state := setOriginalQuery None
                      (setPendingClarification VNull (state w1));
           localStorage := localStorage w1 |}
  | None => w
  end.

(** The render after a handler: the effect runs when its dependency is
    not the one of the render [before]. *)
Definition commit (before : State) (w : World) : World :=
  if decide (currentConversationId (state w) = currentConversationId before)
  then w else on_select w.

(** [handleSelectConversation(id)]. *)
Definition handleSelectConversation (id : string) (w : World) : World :=
  {| state := setCurrentConversationId (Some id) (state w);
     localStorage := localStorage w |}.

Section Lifecycle.

Variable localeCompare : string -> string -> Z.
Variable now : string.

(** [loadConversations()], in a render whose state is that of [w]. *)
Definition loadConversations (w : World) : World :=
  let convs := Store.list_ (localStorage w) in
  let s := setConversations convs (state w) in
  {| state := match convs with
              | c :: _ =>
                  if nonempty (currentConversationId (state w)) then s
                  else setCurrentConversationId (Some (e_id c)) s
              | [] => s
              end;
     localStorage := localStorage w |}.

(** [handleNewConversation()]; [fresh] is what [randomId()] returns.
    [create] does not throw on the store of a session
    ([LocalConversationsFacts.create_embed]), so the [catch] is not
    reached. *)
Definition handleNewConversation (fresh : string) (w : World) : World :=
  let '(newConv, index, ls) :=
    Store.create localeCompare fresh now (localStorage w) in
  {| state := setOriginalQuery None
                (setPendingClarification VNull
                   (setCurrentConversation (Some newConv)
                      (setCurrentConversationId (id newConv)
                         (setConversations index (state w)))));
     localStorage := ls |}.

End Lifecycle.

(** The first render of the component over a store: the mount effect
    lists the conversations, and the next render loads the one it
    selected. The model settings come from the service and stay out. *)
Definition mount (ls : Store.Storage) : World :=
  commit initial (loadConversations {| state := initial; localStorage := ls |}).

(** ** What a turn leaves *)

(** The record in memory is the record in the store. *)
Definition synced (i : string) (w : World) : Prop :=
  exists conv : Conversation,
    currentConversation (state w) = Some conv
    /\ id conv = Some i /\ i ≠ ""
    /\ Store.get i (localStorage w) = Some (Store.JObject conv).

(** The current conversation has the id [i]. *)
Definition selected (i : string) (w : World) : Prop :=
  exists conv : Conversation,
    currentConversation (state w) = Some conv /\ id conv = Some i.

(** An update that, when it returns, leaves the session variables alone. *)
Definition quiet (u : Update) : Prop :=
  forall w w', u w = Return w' -> same_session w w'.

(** An update that, when it returns, has stored what it shows. *)
Definition saving (i : string) (u : Update) : Prop :=
  forall w w', u w = Return w' -> selected i w -> synced i w'.

(** An update that, when it returns, keeps the conversation and keeps it
    stored if it was. *)
Definition steady (i : string) (u : Update) : Prop :=
  forall w w', u w = Return w' ->
    (selected i w -> selected i w') /\ (synced i w -> synced i w').

(** The events whose case ends the wait with [setIsLoading(false)]. *)
Definition closes (eventType : value) : bool :=
  is_str eventType "clarification_needed"
  || is_str eventType "complete"
  || is_str eventType "error".

(** [pendingClarification] after the events [delivered]: the payload of
    the last [clarification_needed] among them. *)
Definition last_needed (start : value) (delivered : list (value * value)) : value :=
  foldl (fun acc e =>
           if is_str (fst e) "clarification_needed"
           then get_opt (snd e) "data" else acc)
    start delivered.

(** An event of the stream: its [type] and its other fields. *)
Definition event (eventType : string) (fields : list (string * value))
  : value * value :=
  (VStr eventType, VObj (("type", VStr eventType) :: fields)).

(** The events of a turn in which the council answers: the three stages,
    the title and the end. *)
Definition council_events (s1 s2 meta s3 : value) (t : string)
  : list (value * value) :=
  [event "stage1_start" [];
   event "stage1_complete" [("data", s1)];
   event "stage2_start" [];
   event "stage2_complete" [("data", s2); ("metadata", meta)];
   event "stage3_start" [];
   event "stage3_complete" [("data", s3)];
   event "title_complete" [("data", VObj [("title", VStr t)])];
   event "complete" []].

(** The text of an event, as the service writes it. *)
Definition text_of (eventType rest : string) : string :=
  "{" ++ quoted "type" ++ ":" ++ quoted eventType ++ rest ++ "}".

(** [JSON.parse] on the texts of a list; it is not asked about another. *)
Definition parse_texts (texts : list (string * value)) (s : string)
  : outcome value :=
  match find (fun p => String.eqb s (fst p)) texts with
  | Some p => Return (snd p)
  | None => Throw (Error "SyntaxError")
  end.

(** A stream that sends each text in a chunk of its own. *)
Definition chunks_of (texts : list (string * value)) : list string :=
  map (fun p => "data: " ++ fst p
                ++ String Sse.newline (String Sse.newline "")) texts.

(** The texts of a turn that the council answers, with what they hold. *)
Definition council_texts : list (string * value) :=
  [(text_of "stage1_start" "", snd (event "stage1_start" []));
   (text_of "stage1_complete" ("," ++ quoted "data" ++ ":[]"),
    snd (event "stage1_complete" [("data", VArr [])]));
   (text_of "stage2_start" "", snd (event "stage2_start" []));
   (text_of "stage2_complete"
      ("," ++ quoted "data" ++ ":[]," ++ quoted "metadata" ++ ":{}"),
    snd (event "stage2_complete" [("data", VArr []); ("metadata", VObj [])]));
   (text_of "stage3_start" "", snd (event "stage3_start" []));
   (text_of "stage3_complete" ("," ++ quoted "data" ++ ":{}"),
    snd (event "stage3_complete" [("data", VObj [])]));
   (text_of "title_complete"
      ("," ++ quoted "data" ++ ":{" ++ quoted "title" ++ ":" ++ quoted "Sums" ++ "}"),
    snd (event "title_complete" [("data", VObj [("title", VStr "Sums")])]));
   (text_of "complete" "", snd (event "complete" []))].

(** The texts of a turn in which the service asks back. *)
Definition clarification_texts : list (string * value) :=
  [(text_of "clarification_start" "", snd (event "clarification_start" []));
   (text_of "clarification_needed"
      ("," ++ quoted "data" ++ ":{" ++ quoted "questions" ++ ":["
       ++ quoted "Which year?" ++ "]}"),
    snd (event "clarification_needed"
           [("data", VObj [("questions", VArr [VStr "Which year?"])])]))].

(** [showInputForm] of [ChatInterface]: the form is shown before the
    first message and while a clarification is pending. *)
Definition showInputForm (messages : list Message) (pendingClarification : value)
  : bool :=
  Nat.eqb (length messages) 0 || truthy pendingClarification.


(** ** A clarification without its query *)

(** The texts of a turn in which the service asks back and then ends
    the stream with [complete]. *)
Definition needed_then_complete_texts : list (string * value) :=
  (clarification_texts
   ++ [(text_of "complete" "", snd (event "complete" []))])%list.

(** The claim about a send while a clarification is pending, as the
    specification words it: whatever flag the caller passes, the request
    has [skip_clarification] true. *)
Definition pending_send_skips (localeCompare : string -> string -> Z)
  (now : string) (s : State) (content : string) (skipClarification : bool)
  : Prop :=
  truthy (pendingClarification s) = true ->
  exists req : Request,
    request (handleSendMessage localeCompare now s content skipClarification)
    = Some req
    /\ skip_clarification req = true.


(** ** A turn among other handlers *)

(** [handleSendMessage] is suspended at its [await] while the stream is
    read: between the updates of the turn React runs the handlers of
    other events and applies what they queue. A step is an update of the
    turn or an update of another handler. *)
Inductive Step : Type :=
| Own (u : Update)
| Aside (u : Update).

Definition update_of (s : Step) : Update :=
  match s with
  | Own u => u
  | Aside u => u
  end.

(** The updates of the turn among the steps, and the others. *)
Definition own (steps : list Step) : list Update :=
  omap (fun s => match s with Own u => Some u | Aside _ => None end) steps.

Definition asides (steps : list Step) : list Update :=
  omap (fun s => match s with Aside u => Some u | Own _ => None end) steps.

(** The steps, applied in order. *)
Definition run_among (steps : list Step) (w : World) : outcome World :=
  apply_all (map update_of steps) w.

(** [handleSelectConversation(id)], from a click in the sidebar, and the
    render that follows it. *)
Definition select (id : string) : Update :=
  fun w => Return (commit (state w) (handleSelectConversation id w)).

Definition setCouncilModels (v : list string) : State -> State :=
  fun s =>
    {| conversations := conversations s;
       currentConversationId := currentConversationId s;
       currentConversation := currentConversation s;
       isLoading := isLoading s;
       councilModels := v;
       chairmanModel := chairmanModel s;
       pendingClarification := pendingClarification s;
       originalQuery := originalQuery s |}.

(** A click on a model of the settings panel: [onCouncilModelsChange] is
    [setCouncilModels]. *)
Definition toggle_model (model : string) : Update :=
  fun w =>
    Return {| state := setCouncilModels
                         (Sidebar.toggled (councilModels (state w)) model)
                         (state w);
              localStorage := localStorage w |}.

(** An update of another handler that leaves the current conversation
    and the store as they are. *)
Definition bystander (u : Update) : Prop :=
  forall w : World,
    exists w' : World,
      u w = Return w'
      /\ currentConversation (state w') = currentConversation (state w)
      /\ localStorage w' = localStorage w.

(** A property of the current conversation and the store alone. *)
Definition stable (P : World -> Prop) : Prop :=
  forall w w' : World,
    currentConversation (state w') = currentConversation (state w) ->
    localStorage w' = localStorage w ->
    P w -> P w'.

(** From a world in [P] the update returns, with a world in [Q]. *)
Definition leads (P Q : World -> Prop) (u : Update) : Prop :=
  forall w : World, P w -> exists w' : World, u w = Return w' /\ Q w'.

(** A queue that leads from [P] to [Q] through stable properties. *)
Inductive chain : (World -> Prop) -> list Update -> (World -> Prop) -> Prop :=
| chain_nil (P : World -> Prop) : stable P -> chain P [] P
| chain_cons (P R Q : World -> Prop) (u : Update) (q : list Update) :
    stable P -> leads P R u -> chain R q Q -> chain P (u :: q) Q.

(** The current conversation has the id [i] and the log [log], and is
    stored as it is shown. *)
Definition shown (i : string) (log : list Message) (w : World) : Prop :=
  exists conv : Conversation,
    currentConversation (state w) = Some conv
    /\ id conv = Some i /\ i ≠ "" /\ messages conv = Some log
    /\ Store.get i (localStorage w) = Some (Store.JObject conv).

(** ** A selection during a turn *)

(** An earlier conversation, with a question and its answer. *)
Definition earlier_conversation : Conversation :=
  {| id := Some "c0"; created_at := Some "2024-04-30T09:00:00.000Z";
     title := Some "Greeting";
     messages := Some [User "Hello";
                       Assistant_ (stage3_complete (VStr "Hi") assistantMessage)] |}.

(** The session of [fresh_world] with the earlier conversation in the
    store and in the list. *)
Definition two_conversations : World :=
  {| state :=
       setConversations
         [mkEntry "c1" "2024-05-01T10:00:00.000Z" "New Conversation" 0;
          mkEntry "c0" "2024-04-30T09:00:00.000Z" "Greeting" 2]
         (state fresh_world);
     localStorage :=
       Store.setIndex
         [mkEntry "c1" "2024-05-01T10:00:00.000Z" "New Conversation" 0;
          mkEntry "c0" "2024-04-30T09:00:00.000Z" "Greeting" 2]
         (<[Store.convKey "c0" :=
              Store.JSON_stringify (Store.JObject earlier_conversation)]>
            (<[Store.convKey "c1" :=
                 Store.JSON_stringify (Store.JObject fresh_conversation)]> ∅)) |}.

(** A turn on the new conversation whose request is rejected, with a
    click on the earlier conversation while the request is pending. *)
Definition selection_during_turn (localeCompare : string -> string -> Z)
  (now : string) : list Step :=
  (map Own (updates (handleSendMessage localeCompare now
                       (state two_conversations) "What is 2+2?" false))
   ++ [Aside (select "c0")]
   ++ map Own (onCatch localeCompare now))%list.

End App.

(* ===================================================================== *)
(** * WaveEncoder: proofs *)
(* ===================================================================== *)

Module WavFacts.

Import Wav.

Local Open Scope Z_scope.
Local Open Scope list_scope.

(** ** Bytes and views *)

Lemma length_le_bytes n v : length (le_bytes n v) = n.
Proof. revert v. induction n as [|n IH]; intros v; simpl; [done|]. by rewrite IH. Qed.

Lemma length_store view off bs : length (store view off bs) = length view.
Proof.
  revert view off. induction bs as [|b bs IH]; intros view off; cbn [store]; [done|].
  by rewrite IH, length_insert.
Qed.

(** Writing over the zeros that follow a prefix. *)
Lemma store_next (pre bs suf old : list Z) :
  length old = length bs ->
  store (pre ++ old ++ suf) (length pre) bs = pre ++ bs ++ suf.
Proof.
  revert pre old. induction bs as [|b bs IH]; intros pre old Hlen; cbn [store].
  - destruct old; [done|discriminate].
  - destruct old as [|o old]; [discriminate|]. simpl in Hlen.
    rewrite insert_app_r_alt by lia. rewrite Nat.sub_diag. cbn [app].
    change (<[0%nat:=b]> (o :: old ++ suf)) with (b :: old ++ suf).
    replace (pre ++ b :: old ++ suf) with ((pre ++ [b]) ++ old ++ suf)
      by (by rewrite <- app_assoc).
    replace (S (length pre)) with (length (pre ++ [b]))
      by (rewrite length_app; simpl; lia).
    rewrite IH by lia. by rewrite <- app_assoc.
Qed.

Lemma SetViewValue_next (pre bs : list Z) (m m' off : nat) :
  off = length pre -> m = (length bs + m')%nat ->
  SetViewValue (pre ++ replicate m 0) off bs = Return ((pre ++ bs) ++ replicate m' 0).
Proof.
  intros -> ->. unfold SetViewValue.
  rewrite length_app, length_replicate.
  destruct (Nat.leb_spec (length pre + length bs) (length pre + (length bs + m'))) as [_|?];
    [|lia].
  rewrite replicate_add.
  rewrite (store_next pre bs (replicate m' 0) (replicate (length bs) 0))
    by apply length_replicate.
  by rewrite app_assoc.
Qed.

Lemma writeCodes_next (codes pre : list Z) (m m' off : nat) :
  off = length pre -> m = (length codes + m')%nat ->
  writeCodes (pre ++ replicate m 0) off codes
  = Return ((pre ++ map ToUint8 codes) ++ replicate m' 0).
Proof.
  revert pre m off. induction codes as [|c codes IH]; intros pre m off -> ->;
    cbn [writeCodes map length].
  - by rewrite app_nil_r.
  - unfold setUint8.
    rewrite (SetViewValue_next pre _ _ (length codes + m')%nat (length pre))
      by (cbn [le_bytes length]; lia).
    cbn [Js.bind le_bytes].
    assert (Hb : ToUint8 c mod 256 = ToUint8 c)
      by (unfold ToUint8; apply Z.mod_mod; lia).
    rewrite Hb.
    rewrite (IH (pre ++ [ToUint8 c]) (length codes + m')%nat (S (length pre))).
    + by rewrite <- !app_assoc.
    + rewrite length_app. simpl. lia.
    + done.
Qed.

(** ** Quantisation *)

Lemma Qle_bool_true (x y : Q) :
  Qle_bool x y = true <-> (Qnum x * Zpos (Qden y) <= Qnum y * Zpos (Qden x)).
Proof. rewrite Qle_bool_iff. reflexivity. Qed.

Lemma Qle_bool_false (x y : Q) :
  Qle_bool x y = false <-> (Qnum y * Zpos (Qden x) < Qnum x * Zpos (Qden y)).
Proof.
  destruct (Qle_bool x y) eqn:E.
  - apply Qle_bool_true in E. split; [discriminate|lia].
  - split; [|done]. intros _.
    destruct (Z_lt_le_dec (Qnum y * Zpos (Qden x)) (Qnum x * Zpos (Qden y))) as [?|H];
      [done|].
    apply Qle_bool_true in H. congruence.
Qed.

(** The clamped sample lies in [-1, 1]. *)
Lemma clamp_range (q : Q) :
  - Zpos (Qden (clamp q)) <= Qnum (clamp q) <= Zpos (Qden (clamp q)).
Proof.
  unfold clamp.
  destruct (Qle_bool q (-1)) eqn:E1; [simpl; lia|].
  destruct (Qle_bool 1 q) eqn:E2; [simpl; lia|].
  apply Qle_bool_false in E1, E2. simpl in E1, E2. lia.
Qed.

(** What the code computes from a finite sample is the clamped one. *)
Lemma min_max_clamp (q : Q) : Math_max_m1 (Math_min_1 (Fin q)) = Fin (clamp q).
Proof.
  unfold clamp, Math_min_1, Math_max_m1.
  destruct (Qle_bool 1 q) eqn:E2.
  - replace (Qle_bool 1 (-1)) with false by reflexivity.
    destruct (Qle_bool q (-1)) eqn:E1; [|done].
    apply Qle_bool_true in E1, E2. simpl in E1, E2. lia.
  - by destruct (Qle_bool q (-1)).
Qed.

Lemma truncate_scaled (c : Q) (k : Z) :
  0 <= k ->
  - Zpos (Qden c) <= Qnum c <= Zpos (Qden c) ->
  - k <= truncate (Qmult c (inject_Z k)) <= k.
Proof.
  intros Hk Hc. unfold truncate. simpl. rewrite Pos.mul_1_r.
  set (d := Zpos (Qden c)) in *. assert (0 < d) by (unfold d; lia).
  split.
  - rewrite <- (Z.quot_mul (- k) d) by lia.
    apply Z.quot_le_mono; [done|nia].
  - rewrite <- (Z.quot_mul k d) at 2 by lia.
    apply Z.quot_le_mono; [done|nia].
Qed.

Lemma truncate_scaled_nonneg (c : Q) (k : Z) :
  0 <= k -> 0 <= Qnum c -> 0 <= truncate (Qmult c (inject_Z k)).
Proof.
  intros Hk Hc. unfold truncate. simpl. apply Z.quot_pos; lia.
Qed.

Lemma truncate_scaled_nonpos (c : Q) (k : Z) :
  0 <= k -> Qnum c <= 0 -> truncate (Qmult c (inject_Z k)) <= 0.
Proof.
  intros Hk Hc. unfold truncate. simpl.
  replace (Qnum c * k) with (- (- Qnum c * k)) by lia.
  rewrite Z.quot_opp_l by lia.
  assert (0 <= (- Qnum c * k) ÷ Zpos (Qden c * 1)); [|lia].
  apply Z.quot_pos; nia.
Qed.

(** The quantised sample fits a signed 16-bit integer. *)
Lemma quantize_range (q : Q) : -32768 <= quantize q <= 32767.
Proof.
  unfold quantize. pose proof (clamp_range q) as Hc.
  destruct (Qle_bool 0 (clamp q)) eqn:E.
  - apply Qle_bool_true in E. simpl in E.
    pose proof (truncate_scaled (clamp q) 32767 ltac:(lia) Hc).
    pose proof (truncate_scaled_nonneg (clamp q) 32767 ltac:(lia) ltac:(lia)).
    lia.
  - pose proof (truncate_scaled (clamp q) 32768 ltac:(lia) Hc).
    apply Qle_bool_false in E. simpl in E.
    pose proof (truncate_scaled_nonpos (clamp q) 32768 ltac:(lia) ltac:(lia)).
    lia.
Qed.

Lemma pcm16_range (x : number) : -32768 <= pcm16 x <= 32767.
Proof. destruct x; simpl; try lia. apply quantize_range. Qed.

(** A value in range survives [ToInt16]. *)
Lemma wrap16_id (v : Z) :
  -32768 <= v <= 32767 ->
  (if 32768 <=? v mod 65536 then v mod 65536 - 65536 else v mod 65536) = v.
Proof.
  intros Hv. destruct (Z_lt_le_dec v 0).
  - replace (v mod 65536) with (v + 65536).
    + destruct (Z.leb_spec 32768 (v + 65536)); lia.
    + apply Z.mod_unique with (-1); lia.
  - rewrite Z.mod_small by lia. destruct (Z.leb_spec 32768 v); lia.
Qed.

(** The code's sample is the specification's. *)
Lemma ToInt16_scaled (x : number) : ToInt16 (scaled x) = pcm16 x.
Proof.
  unfold scaled. destruct x as [q| | |].
  - rewrite min_max_clamp. cbn [lt0 pcm16]. unfold quantize.
    pose proof (quantize_range q) as Hr. unfold quantize in Hr.
    destruct (Qle_bool 0 (clamp q)); cbn [negb mulc ToInt16]; by apply wrap16_id.
  - reflexivity.
  - reflexivity.
  - reflexivity.
Qed.

(** ** Reading a written field back *)

Lemma getUint_le_bytes (pre suf : list Z) (n off : nat) (v : Z) :
  off = length pre ->
  getUint (pre ++ le_bytes n v ++ suf) off n = Some (v mod 256 ^ Z.of_nat n).
Proof.
  revert pre off v. induction n as [|n IH]; intros pre off v ->; cbn [getUint le_bytes].
  - by rewrite Z.mod_1_r.
  - rewrite lookup_app_r by lia. rewrite Nat.sub_diag. cbn [app lookup list_lookup].
    replace (pre ++ v `mod` 256 :: le_bytes n (v / 256) ++ suf)
      with ((pre ++ [v mod 256]) ++ le_bytes n (v / 256) ++ suf)
      by (by rewrite <- app_assoc).
    rewrite (IH (pre ++ [v mod 256]) (S (length pre)) (v / 256))
      by (rewrite length_app; simpl; lia).
    f_equal. rewrite Nat2Z.inj_succ, Z.pow_succ_r by lia.
    rewrite (Z.mul_comm 256), Z.rem_mul_r by lia. lia.
Qed.

(** ** The container, byte for byte *)

Lemma length_payload samples : length (payload samples) = (2 * length samples)%nat.
Proof.
  unfold payload. induction samples as [|x samples IH]; [done|].
  cbn [flat_map]. rewrite length_app, IH, length_le_bytes. simpl. lia.
Qed.

Lemma length_header sr nc n : length (header sr nc n) = 44%nat.
Proof. reflexivity. Qed.

Lemma floatTo16BitPCM_payload (input : list number) (pre : list Z) (m off : nat) :
  off = length pre -> m = (2 * length input)%nat ->
  floatTo16BitPCM (pre ++ replicate m 0) off input = Return (pre ++ payload input).
Proof.
  revert pre m off. induction input as [|x input IH]; intros pre m off -> ->;
    cbn [floatTo16BitPCM length].
  - simpl. by rewrite app_nil_r.
  - fold (scaled x). unfold setInt16. rewrite ToInt16_scaled.
    rewrite (SetViewValue_next pre _ _ (2 * length input)%nat (length pre))
      by (rewrite ?length_le_bytes; lia).
    cbn [Js.bind].
    rewrite (IH (pre ++ le_bytes 2 (pcm16 x mod 65536)) (2 * length input)%nat).
    + unfold payload. cbn [flat_map]. by rewrite <- !app_assoc.
    + rewrite length_app, length_le_bytes. lia.
    + done.
Qed.

Lemma encodeWav_bytes (samples : list number) (sampleRate numChannels : Z) :
  encodeWav samples sampleRate numChannels
  = Return (header sampleRate numChannels (length samples) ++ payload samples).
Proof.
  unfold encodeWav, new_ArrayBuffer, writeString, setUint32, setUint16.
  set (n := length samples).
  change (replicate (44 + n * 2) 0) with ([] ++ replicate (44 + n * 2) 0).
  rewrite (writeCodes_next _ [] _ (40 + n * 2) 0) by (simpl; lia).
  cbn [Js.bind].
  rewrite (SetViewValue_next _ _ _ (36 + n * 2)%nat) by (simpl; lia).
  cbn [Js.bind].
  rewrite (writeCodes_next _ _ _ (32 + n * 2)%nat) by (simpl; lia).
  cbn [Js.bind].
  rewrite (writeCodes_next _ _ _ (28 + n * 2)%nat) by (simpl; lia).
  cbn [Js.bind].
  rewrite (SetViewValue_next _ _ _ (24 + n * 2)%nat) by (simpl; lia).
  cbn [Js.bind].
  rewrite (SetViewValue_next _ _ _ (22 + n * 2)%nat) by (simpl; lia).
  cbn [Js.bind].
  rewrite (SetViewValue_next _ _ _ (20 + n * 2)%nat) by (simpl; lia).
  cbn [Js.bind].
  rewrite (SetViewValue_next _ _ _ (16 + n * 2)%nat) by (simpl; lia).
  cbn [Js.bind].
  rewrite (SetViewValue_next _ _ _ (12 + n * 2)%nat) by (simpl; lia).
  cbn [Js.bind].
  rewrite (SetViewValue_next _ _ _ (10 + n * 2)%nat) by (simpl; lia).
  cbn [Js.bind].
  rewrite (SetViewValue_next _ _ _ (8 + n * 2)%nat) by (simpl; lia).
  cbn [Js.bind].
  rewrite (writeCodes_next _ _ _ (4 + n * 2)%nat) by (simpl; lia).
  cbn [Js.bind].
  rewrite (SetViewValue_next _ _ _ (n * 2)%nat) by (simpl; lia).
  cbn [Js.bind].
  rewrite floatTo16BitPCM_payload by (simpl; lia).
  unfold header. rewrite <- !app_assoc. reflexivity.
Qed.

Lemma getUint_slice (n : nat) (buf : list Z) (off : nat) (v : Z) :
  slice buf off n = le_bytes n v ->
  getUint buf off n = Some (v mod 256 ^ Z.of_nat n).
Proof.
  unfold slice. revert buf off v.
  induction n as [|n IH]; intros buf off v; cbn [getUint le_bytes].
  - by rewrite Z.mod_1_r.
  - destruct (buf !! off) as [b|] eqn:Hb.
    + rewrite (drop_S _ _ _ Hb). cbn [take]. intros [= -> Hrest].
      rewrite (IH _ _ _ Hrest). f_equal.
      rewrite Nat2Z.inj_succ, Z.pow_succ_r by lia.
      rewrite (Z.mul_comm 256), Z.rem_mul_r by lia. lia.
    + rewrite drop_ge by (by apply lookup_ge_None). discriminate.
Qed.

Lemma getUint32_field (buf : list Z) (off : nat) (v : Z) :
  slice buf off 4 = le_bytes 4 (ToUint32 v) ->
  0 <= v < 4294967296 ->
  getUint buf off 4 = Some v.
Proof.
  intros Hs Hv. rewrite (getUint_slice _ _ _ _ Hs). f_equal.
  unfold ToUint32. change (256 ^ Z.of_nat 4) with 4294967296.
  rewrite Z.mod_mod by lia. apply Z.mod_small. lia.
Qed.

Lemma getUint16_field (buf : list Z) (off : nat) (v : Z) :
  slice buf off 2 = le_bytes 2 (ToUint16 v) ->
  0 <= v < 65536 ->
  getUint buf off 2 = Some v.
Proof.
  intros Hs Hv. rewrite (getUint_slice _ _ _ _ Hs). f_equal.
  unfold ToUint16. change (256 ^ Z.of_nat 2) with 65536.
  rewrite Z.mod_mod by lia. apply Z.mod_small. lia.
Qed.

Lemma payload_app (xs ys : list number) : payload (xs ++ ys) = payload xs ++ payload ys.
Proof. unfold payload. apply flat_map_app. Qed.

(** The sample at index [i] is read back from offset [44 + 2 i]. *)
Lemma getInt16_sample (samples : list number) (sr nc : Z) (i : nat) (x : number) :
  samples !! i = Some x ->
  getInt16 (header sr nc (length samples) ++ payload samples) (44 + 2 * i)
  = Some (pcm16 x).
Proof.
  intros Hi. unfold getInt16.
  rewrite <- (take_drop_middle samples i x Hi) at 2.
  rewrite payload_app.
  change (payload (x :: drop (S i) samples))
    with (le_bytes 2 (pcm16 x mod 65536) ++ payload (drop (S i) samples)).
  rewrite (app_assoc (header _ _ _)).
  rewrite getUint_le_bytes.
  - change (256 ^ Z.of_nat 2) with 65536. rewrite Z.mod_mod by lia.
    f_equal. apply wrap16_id, pcm16_range.
  - rewrite length_app, length_header, length_payload, length_take.
    apply lookup_lt_Some in Hi. lia.
Qed.

(** ** The claim *)

(** C1, as stated, fails: a sample rate of 2^31 is positive, and the
    32-bit byte-rate field of the header then holds 0, not 2^32. *)
Lemma encodeWav_byte_rate_wraps :
  0 < 2147483648 /\ ~ encodes [] 2147483648.
Proof.
  split; [lia|].
  intros (buf & Hbuf & _ & _ & _ & _ & Hrate & _).
  vm_compute in Hbuf. injection Hbuf as <-.
  vm_compute in Hrate. discriminate.
Qed.

(** C1, amended: for every sequence of samples and every positive sample
    rate below 2^31, with fewer than 2^31 samples, [encodeWav] with one
    channel returns a buffer of 44 + 2 * length bytes whose header
    declares linear PCM, one channel, the sample rate, byte rate =
    sample rate * block align, block align 2, 16 bits per sample and a
    data size of 2 * length; each sample reads back as the signed 16-bit
    little-endian integer of the sample clamped to [-1, 1] and scaled by
    32768 below zero and by 32767 from zero on, NaN being written as 0. *)
Theorem encodeWav_container (samples : list number) (sampleRate : Z) :
  0 < sampleRate < 2147483648 ->
  Z.of_nat (length samples) < 2147483648 ->
  encodes samples sampleRate.
Proof.
  intros Hrate Hlen. exists (header sampleRate 1 (length samples) ++ payload samples).
  split; [apply encodeWav_bytes|].
  unfold container. split_and!.
  - rewrite length_app, length_header, length_payload. lia.
  - apply getUint16_field; [reflexivity|lia].
  - apply getUint16_field; [reflexivity|lia].
  - apply getUint32_field; [reflexivity|lia].
  - apply getUint32_field; [reflexivity|lia].
  - apply getUint16_field; [reflexivity|lia].
  - apply getUint16_field; [reflexivity|lia].
  - replace (2 * Z.of_nat (length samples)) with (Z.of_nat (length samples) * 2) by lia.
    apply getUint32_field; [reflexivity|lia].
  - intros i x. apply getInt16_sample.
Qed.

Lemma encodeWav_container_witness :
  encodes [Fin (1 # 2); Fin (-3 # 1); NaN; PInf] 44100.
Proof. apply encodeWav_container; simpl; lia. Defined.

End WavFacts.

(* ===================================================================== *)
(** * AudioCapturer: proofs *)
(* ===================================================================== *)

Module CaptureFacts.

Import Wav Capture.

Local Open Scope list_scope.

Lemma set_from_next (pre src suf old : list number) :
  length old = length src ->
  set_from (pre ++ old ++ suf) (length pre) src = pre ++ src ++ suf.
Proof.
  revert pre old. induction src as [|x src IH]; intros pre old Hlen; cbn [set_from].
  - destruct old; [done|discriminate].
  - destruct old as [|o old]; [discriminate|]. simpl in Hlen.
    rewrite insert_app_r_alt by lia. rewrite Nat.sub_diag. cbn [app].
    change (<[0%nat:=x]> (o :: old ++ suf)) with (x :: old ++ suf).
    replace (pre ++ x :: old ++ suf) with ((pre ++ [x]) ++ old ++ suf)
      by (by rewrite <- app_assoc).
    replace (S (length pre)) with (length (pre ++ [x]))
      by (rewrite length_app; simpl; lia).
    rewrite IH by lia. by rewrite <- app_assoc.
Qed.

Lemma totalLength_from (chunks : list (list number)) (k : nat) :
  foldl (fun sum a => (sum + length a)%nat) k chunks = (k + length (concat chunks))%nat.
Proof.
  revert k. induction chunks as [|c chunks IH]; intros k; simpl; [lia|].
  rewrite IH, length_app. lia.
Qed.

Lemma totalLength_concat (chunks : list (list number)) :
  totalLength chunks = length (concat chunks).
Proof. unfold totalLength. by rewrite totalLength_from. Qed.

Lemma merge_loop_next (chunks : list (list number)) (pre : list number) (m : nat) :
  m = length (concat chunks) ->
  merge_loop (pre ++ replicate m (Fin 0)) (length pre) chunks
  = Return (pre ++ concat chunks).
Proof.
  revert pre m. induction chunks as [|c chunks IH]; intros pre m ->; cbn [merge_loop concat].
  - simpl. by rewrite app_nil_r.
  - unfold Float32Array_set.
    rewrite !length_app, length_replicate.
    destruct (Nat.leb_spec (length pre + length c)
                (length pre + (length c + length (concat chunks)))) as [_|?]; [|lia].
    cbn [Js.bind]. rewrite replicate_add.
    rewrite (set_from_next pre c _ (replicate (length c) (Fin 0)))
      by apply length_replicate.
    rewrite app_assoc, <- length_app.
    rewrite (IH (pre ++ c) _ eq_refl). by rewrite <- app_assoc.
Qed.

(** The merged buffer is the concatenation of the blocks, in arrival order. *)
Lemma merge_concat (chunks : list (list number)) :
  merge chunks = Return (concat chunks).
Proof.
  unfold merge. rewrite totalLength_concat.
  apply (merge_loop_next chunks [] _ eq_refl).
Qed.

(** C9, as stated, fails: [stop] on a capturer that is not recording
    returns, with nothing changed, where the claim has it fail. *)
Lemma stopRecording_idle_returns :
  isRecording idle = false
  /\ stopRecording (fun s => s) (Return None) idle = Return (idle, no_trace)
  /\ ~ fails (stopRecording (fun s => s) (Return None) idle).
Proof.
  split_and!; [reflexivity|reflexivity|]. intros [e He]. discriminate He.
Qed.

(** C9, amended: [stop] on a capturer that is not recording returns
    without an error and without any effect; on one that is recording it
    releases the audio-processing graph and the input device, leaves the
    capturer idle, and hands the concatenation of the accumulated blocks,
    in arrival order, with the session's sample rate and channel count 1
    to the encoder, whose blob is what it uploads. *)
Theorem stopRecording_spec (trim : string -> string)
  (reply : outcome (option string)) (c : Chat) :
  match isRecording c, recordingRef c with
  | true, Some session =>
      exists (c' : Chat) (wav : list Z),
        stopRecording trim reply c
        = Return (c', {| released := Some (mkDevice false false false false);
                         encoded := Some (concat (chunks session),
                                          sampleRate session, 1%Z);
                         uploaded := Some wav |})
        /\ encodeWav (concat (chunks session)) (sampleRate session) 1 = Return wav
        /\ isRecording c' = false
        /\ recordingRef c' = None
        /\ isTranscribing c' = false
  | _, _ => stopRecording trim reply c = Return (c, no_trace)
  end.
Proof.
  unfold stopRecording.
  destruct (isRecording c); [|done].
  destruct (recordingRef c) as [session|]; [|done].
  rewrite merge_concat, WavFacts.encodeWav_bytes.
  destruct reply as [text|e]; eexists _, _; split_and!; try reflexivity;
    apply WavFacts.encodeWav_bytes.
Qed.

End CaptureFacts.

(* ===================================================================== *)
(** * ConversationStore: proofs *)
(* ===================================================================== *)

Module StoreFacts.

Import Data Store.

Local Open Scope list_scope.

Lemma convKey_not_index (i : string) : convKey i ≠ INDEX_KEY.
Proof. unfold convKey, CONV_PREFIX, INDEX_KEY. simpl. discriminate. Qed.

Lemma getIndex_insert_conv (i : string) (t : text) (ls : Storage) :
  getIndex (<[convKey i := t]> ls) = getIndex ls.
Proof.
  unfold getIndex. by rewrite lookup_insert_ne by apply convKey_not_index.
Qed.

Lemma getIndex_setIndex (index : list Entry) (ls : Storage) :
  getIndex (setIndex index ls) = index.
Proof. unfold getIndex, setIndex. by rewrite lookup_insert_eq. Qed.

(** ** Replace if present, else prepend *)

Lemma findIndex_None (i : string) (index : list Entry) :
  findIndex i index = None <-> Forall (fun c => e_id c ≠ i) index.
Proof.
  induction index as [|c index IH]; cbn [findIndex].
  - split; [constructor|done].
  - destruct (String.eqb_spec (e_id c) i) as [Heq|Hne].
    + split; [discriminate|]. intros H. inversion H; subst. done.
    + destruct (findIndex i index) eqn:E; cbn.
      * split; [discriminate|]. intros H. inversion H as [|? ? _ Hrest]; subst.
        apply IH in Hrest. discriminate.
      * split; [|done]. intros _. constructor; [done|by apply IH].
Qed.

Lemma findIndex_Some (i : string) (index : list Entry) (k : nat) :
  findIndex i index = Some k ->
  exists before c after,
    index = before ++ c :: after
    /\ length before = k
    /\ e_id c = i
    /\ Forall (fun c => e_id c ≠ i) before.
Proof.
  revert k. induction index as [|c index IH]; intros k; cbn [findIndex]; [done|].
  destruct (String.eqb_spec (e_id c) i) as [Heq|Hne].
  - intros [= <-]. by exists [], c, index.
  - destruct (findIndex i index) as [k'|] eqn:E; cbn; [|done].
    intros [= <-]. destruct (IH k' eq_refl) as (before & c' & after & -> & Hlen & Hid & Hb).
    exists (c :: before), c', after. split_and!; [done|simpl; lia|done|by constructor].
Qed.

(** [upsert] as the specification words it. *)
Lemma upsert_spec (nextItem : Entry) (index : list Entry) :
  upserted nextItem index (upsert nextItem index).
Proof.
  unfold upsert. destruct (findIndex (e_id nextItem) index) as [k|] eqn:E.
  - right. destruct (findIndex_Some _ _ _ E) as (before & c & after & -> & Hlen & Hid & Hb).
    exists before, c, after. split_and!; try done.
    rewrite insert_app_r_alt by lia. by rewrite Hlen, Nat.sub_diag.
  - left. split; [by apply findIndex_None|done].
Qed.

(** ** Sorting *)

Section Sorted.

Variable localeCompare : string -> string -> Z.

(** The comparator is consistent, as [Array.prototype.sort] asks. *)
Hypothesis localeCompare_total :
  forall x y : string, (0 < localeCompare x y)%Z -> (localeCompare y x <= 0)%Z.
Hypothesis localeCompare_trans :
  forall x y z : string,
    (localeCompare x y <= 0)%Z -> (localeCompare y z <= 0)%Z ->
    (localeCompare x z <= 0)%Z.

Local Abbreviation not_older := (Store.not_older localeCompare).

Lemma insert_sorted_perm (x : Entry) (l : list Entry) :
  insert_sorted localeCompare x l ≡ₚ x :: l.
Proof.
  induction l as [|y l IH]; cbn [insert_sorted]; [done|].
  destruct (newest_first localeCompare x y <=? 0)%Z; [done|].
  rewrite IH. apply Permutation_swap.
Qed.

Lemma sort_perm (l : list Entry) : sort localeCompare l ≡ₚ l.
Proof.
  unfold sort. induction l as [|x l IH]; cbn [foldr]; [done|].
  by rewrite insert_sorted_perm, IH.
Qed.

Lemma insert_sorted_sorted (x : Entry) (l : list Entry) :
  StronglySorted not_older l ->
  StronglySorted not_older (insert_sorted localeCompare x l).
Proof.
  induction 1 as [|y l Hl IH Hy]; cbn [insert_sorted].
  - repeat constructor.
  - destruct (Z.leb_spec (newest_first localeCompare x y) 0) as [Hxy|Hxy].
    + constructor; [by constructor|]. constructor; [done|].
      eapply Forall_impl; [exact Hy|]. intros z Hyz. unfold Store.not_older, newest_first in *.
      eapply localeCompare_trans; eassumption.
    + constructor; [done|].
      rewrite insert_sorted_perm. constructor; [|done].
      unfold Store.not_older, newest_first in *. by apply localeCompare_total.
Qed.

Lemma sort_sorted (l : list Entry) : StronglySorted not_older (sort localeCompare l).
Proof.
  unfold sort. induction l as [|x l IH]; cbn [foldr]; [constructor|].
  by apply insert_sorted_sorted.
Qed.

Lemma or_else_twice (s : option string) (d : string) :
  d ≠ "" -> or_else (Some (or_else s d)) d = or_else s d.
Proof.
  intros Hd. unfold or_else. destruct s as [s|].
  - destruct (String.eqb_spec s "") as [->|Hs].
    + by destruct (String.eqb_spec d "").
    + by destruct (String.eqb_spec s "").
  - by destruct (String.eqb_spec d "").
Qed.

End Sorted.

(** ** A consistent collation *)

Lemma byCodeUnit_total (x y : string) :
  (0 < byCodeUnit x y)%Z -> (byCodeUnit y x <= 0)%Z.
Proof.
  unfold byCodeUnit.
  destruct (String_as_OT.compare_spec x y) as [Heq|Hlt|Hgt]; try lia.
  intros _. unfold String_as_OT.lt in Hgt. rewrite Hgt. lia.
Qed.

Lemma byCodeUnit_le (x y : string) :
  (byCodeUnit x y <= 0)%Z <-> x = y \/ String_as_OT.lt x y.
Proof.
  unfold byCodeUnit.
  destruct (String_as_OT.compare_spec x y) as [Heq|Hlt|Hgt].
  - split; [by left|lia].
  - split; [by right|lia].
  - split; [lia|]. intros [->|Hlt].
    + by apply (StrictOrder_Irreflexive (R := String_as_OT.lt)) in Hgt.
    + exfalso. apply (StrictOrder_Irreflexive (R := String_as_OT.lt) x).
      by transitivity y.
Qed.

Lemma byCodeUnit_trans (x y z : string) :
  (byCodeUnit x y <= 0)%Z -> (byCodeUnit y z <= 0)%Z -> (byCodeUnit x z <= 0)%Z.
Proof.
  rewrite !byCodeUnit_le. intros [->|Hxy] [->|Hyz]; auto.
  right. by transitivity y.
Qed.

(** ** Reading degrades, never raises *)

(** C7, as stated, fails: an object with none of the fields of a record
    is not a well-formed record, and [get] returns it. *)
Lemma get_returns_any_object :
  (exists t : text,
     ({[convKey "c1" := Json (JObject empty_object)]} : Storage) !! convKey "c1" = Some t
     /\ ~ well_formed_record t)
  /\ get "c1" {[convKey "c1" := Json (JObject empty_object)]}
     = Some (JObject empty_object)
  /\ ~ absent_unless_record "c1" {[convKey "c1" := Json (JObject empty_object)]}.
Proof.
  assert (Hl : ({[convKey "c1" := Json (JObject empty_object)]} : Storage)
               !! convKey "c1" = Some (Json (JObject empty_object)))
    by apply lookup_singleton_eq.
  assert (Hw : ~ well_formed_record (Json (JObject empty_object))).
  { intros [[x Hx] _]. discriminate Hx. }
  assert (Hg : get "c1" {[convKey "c1" := Json (JObject empty_object)]}
               = Some (JObject empty_object)).
  { unfold get. by rewrite Hl. }
  split_and!; [by eexists|done|].
  intros H. rewrite H in Hg; [discriminate|]. right. by eexists.
Qed.

(** C7, amended: [list] returns the empty sequence when the index is
    missing or does not parse to an array; [get] returns [null] when
    nothing is stored under the id or when the stored text does not
    parse to an object (it is not parseable, or it holds [null] or a
    primitive), and returns a stored object as it is, whatever fields it
    has. Both are total: a corrupt text never makes them raise. *)
Theorem list_get_degrade (ls : Storage) (id : string) :
  ((ls !! INDEX_KEY = None
    \/ exists t : text, ls !! INDEX_KEY = Some t /\ ~ parses_to_array t)
   -> list_ ls = [])
  /\ ((ls !! convKey id = None
       \/ exists t : text,
            ls !! convKey id = Some t
            /\ ~ parses_to_object t /\ ~ parses_to_array t)
      -> get id ls = None)
  /\ (forall c : Conversation,
        ls !! convKey id = Some (Json (JObject c)) -> get id ls = Some (JObject c)).
Proof.
  split_and!.
  - unfold list_, getIndex. intros [->|(t & -> & Ht)]; [done|].
    destruct t as [[| |entries|c]|s]; simpl in *; try done.
    by destruct (String.eqb s "").
  - unfold get. intros [->|(t & -> & Ho & Ha)]; [done|].
    destruct t as [[| |entries|c]|s]; simpl in *; try done.
    by destruct (String.eqb s "").
  - intros c Hc. unfold get. by rewrite Hc.
Qed.

End StoreFacts.

(* ===================================================================== *)
(** * The streaming reader: proofs *)
(* ===================================================================== *)

Module SseFacts.

Import Data Sse.

Local Open Scope list_scope.

Section Reader.

Variable JSON_parse : string -> outcome value.
Context {S : Type}.
Variable onEvent : value -> value -> S -> outcome S.

Local Abbreviation on_line := (Sse.on_line JSON_parse onEvent).
Local Abbreviation event_of_line := (Sse.event_of_line JSON_parse).
Local Abbreviation deliver := (Sse.deliver onEvent).

(** One line: an event is delivered, or the state stays. *)
Lemma on_line_state (line : string) (st : S * list string) :
  fst (on_line line st)
  = match event_of_line line with
    | Some e => deliver (fst st) e
    | None => fst st
    end.
Proof.
  unfold Sse.on_line, Sse.event_of_line, Sse.deliver.
  destruct (String.prefix "data: " line); [|done].
  destruct (JSON_parse (slice_from 6 line)) as [event|e]; cbn [Js.bind]; [|done].
  destruct (Data.get event "type") as [eventType|e]; cbn [Js.bind]; [|done].
  cbn [fst snd]. by destruct (onEvent eventType event (fst st)).
Qed.

Lemma foldl_on_line_state (lines : list string) (st : S * list string) :
  fst (foldl (fun st line => on_line line st) st lines)
  = foldl deliver (fst st) (omap event_of_line lines).
Proof.
  revert st. induction lines as [|line lines IH]; intros st; [done|].
  cbn [foldl]. rewrite IH, on_line_state.
  change (omap event_of_line (line :: lines))
    with (match event_of_line line with
          | Some e => e :: omap event_of_line lines
          | None => omap event_of_line lines
          end).
  by destruct (Sse.event_of_line JSON_parse line).
Qed.

Lemma foldl_on_chunk_state (chunks : list string) (st : S * list string) :
  fst (foldl (fun st chunk => on_chunk JSON_parse onEvent chunk st) st chunks)
  = foldl deliver (fst st) (events JSON_parse chunks).
Proof.
  unfold events. revert st.
  induction chunks as [|chunk chunks IH]; intros st; cbn [foldl map concat]; [done|].
  rewrite IH. unfold on_chunk. rewrite foldl_on_line_state.
  by rewrite omap_app, foldl_app.
Qed.

(** With a callback that does not throw, the console holds one entry per
    skipped line. *)
Lemma on_line_console (line : string) (st : S * list string) :
  (forall ty ev s, exists s', onEvent ty ev s = Return s') ->
  length (snd (on_line line st))
  = (length (snd st) + if skipped JSON_parse line then 1 else 0)%nat.
Proof.
  intros Htotal. unfold Sse.on_line, skipped, Sse.event_of_line.
  destruct (String.prefix "data: " line); cbn [andb]; [|lia].
  destruct (JSON_parse (slice_from 6 line)) as [event|e]; cbn [Js.bind].
  - destruct (Data.get event "type") as [eventType|e]; cbn [Js.bind].
    + destruct (Htotal eventType event (fst st)) as [s' ->].
      rewrite bool_decide_eq_false_2 by done. cbn [snd]. lia.
    + rewrite bool_decide_eq_true_2 by done. cbn [snd]. rewrite length_app. simpl. lia.
  - rewrite bool_decide_eq_true_2 by done. cbn [snd]. rewrite length_app. simpl. lia.
Qed.

Lemma foldl_on_line_console (lines : list string) (st : S * list string) :
  (forall ty ev s, exists s', onEvent ty ev s = Return s') ->
  length (snd (foldl (fun st line => on_line line st) st lines))
  = (length (snd st) + length (filter (fun l => skipped JSON_parse l = true) lines))%nat.
Proof.
  intros Htotal. revert st.
  induction lines as [|line lines IH]; intros st; cbn [foldl]; [simpl; lia|].
  rewrite IH, on_line_console by done.
  destruct (skipped JSON_parse line) eqn:E.
  - rewrite filter_cons_True by done. simpl. lia.
  - rewrite filter_cons_False by (by rewrite E). lia.
Qed.

Lemma foldl_on_chunk_console (chunks : list string) (st : S * list string) :
  (forall ty ev s, exists s', onEvent ty ev s = Return s') ->
  length (snd (foldl (fun st chunk => on_chunk JSON_parse onEvent chunk st) st chunks))
  = (length (snd st)
     + length (filter (fun l => skipped JSON_parse l = true)
                 (concat (map split_lines chunks))))%nat.
Proof.
  intros Htotal. revert st.
  induction chunks as [|chunk chunks IH]; intros st; cbn [foldl map concat]; [simpl; lia|].
  rewrite IH. unfold on_chunk. rewrite foldl_on_line_console by done.
  rewrite filter_app, length_app. lia.
Qed.

(** The state and the result of a call whose body yields [chunks]. *)
Lemma sendMessageStream_state (chunks : list string) (rejects : bool) (s : S) :
  sendMessageStream JSON_parse onEvent (Body chunks rejects) s
  = (foldl deliver s (events JSON_parse chunks),
     snd (foldl (fun st chunk => on_chunk JSON_parse onEvent chunk st) (s, []) chunks),
     if rejects then Throw TypeError else Return tt).
Proof.
  cbn [sendMessageStream].
  pose proof (foldl_on_chunk_state chunks (s, [])) as H. cbn [fst] in H.
  rewrite <- H. by destruct (foldl _ _ _).
Qed.

End Reader.

End SseFacts.

(* ===================================================================== *)
(** * ConversationSession and StreamSessionController: proofs *)
(* ===================================================================== *)

Module AppFacts.

Import Data App.

Local Open Scope list_scope.

Lemma apply_all_app (q1 q2 : list Update) (w : World) :
  apply_all (q1 ++ q2) w = Js.bind (apply_all q1 w) (apply_all q2).
Proof.
  revert w. induction q1 as [|u q1 IH]; intros w; cbn [apply_all app Js.bind]; [done|].
  destruct (u w) as [w'|e]; cbn [Js.bind]; [apply IH|done].
Qed.

Lemma write_last_app (f : Assistant -> Assistant) (init : list Message) (a : Assistant) :
  write_last f (init ++ [Assistant_ a]) = Return (init ++ [Assistant_ (f a)]).
Proof.
  induction init as [|m init IH]; [done|].
  cbn [app write_last]. rewrite IH. cbn [Js.bind].
  by destruct (init ++ [Assistant_ a]) eqn:E; [destruct init; discriminate E|].
Qed.

Lemma slice_0_m2_app (ms : list Message) (m1 m2 : Message) :
  slice_0_m2 (ms ++ [m1; m2]) = ms.
Proof.
  unfold slice_0_m2. rewrite length_app. cbn [length].
  replace (length ms + 2 - 2)%nat with (length ms) by lia.
  by rewrite take_app_length.
Qed.

Section Session.

Variable localeCompare : string -> string -> Z.
Variable now : string.

Local Abbreviation save_and_set := (App.save_and_set localeCompare now).
Local Abbreviation append_message := (App.append_message localeCompare now).
Local Abbreviation on_last := (App.on_last localeCompare now).
Local Abbreviation on_title := (App.on_title localeCompare now).
Local Abbreviation rollback := (App.rollback localeCompare now).
Local Abbreviation onEvent := (App.onEvent localeCompare now).
Local Abbreviation onCatch := (App.onCatch localeCompare now).
Local Abbreviation handleSendMessage := (App.handleSendMessage localeCompare now).

(** ** One update at a time *)

(** Saving a conversation that has an id returns, and the stored copy
    is the conversation. *)
Lemma save_and_set_returns (refresh : bool) (next : Conversation) (i : string)
  (w : World) :
  id next = Some i -> i ≠ "" ->
  exists index : list Entry,
    save_and_set refresh next w
    = Return {| state :=
                  (if refresh then setConversations index else fun s => s)
                    (setCurrentConversation (Some next) (state w));
                localStorage :=
                  Store.setIndex index
                    (<[Store.convKey i := Store.JSON_stringify (Store.JObject next)]>
                       (localStorage w)) |}.
Proof.
  intros Hid Hi. unfold App.save_and_set, Store.save. rewrite Hid.
  destruct (String.eqb_spec i "") as [->|_]; [done|].
  cbn [Js.bind snd]. unfold Store.upsertIndexItem. cbn [snd fst].
  eexists. unfold Store.list_. rewrite StoreFacts.getIndex_setIndex.
  by destruct refresh.
Qed.

Lemma get_after_save (i : string) (c : Conversation) (index : list Entry)
  (ls : Store.Storage) :
  Store.get i (Store.setIndex index
                 (<[Store.convKey i := Store.JSON_stringify (Store.JObject c)]> ls))
  = Some (Store.JObject c).
Proof.
  unfold Store.get, Store.setIndex.
  rewrite lookup_insert_ne by (symmetry; apply StoreFacts.convKey_not_index).
  by rewrite lookup_insert_eq.
Qed.

Lemma append_message_step (m : Message) (i : string) (ms : list Message) (w : World) :
  holds i ms w ->
  exists w' : World,
    append_message m w = Return w'
    /\ holds i (ms ++ [m]) w' /\ same_session w w'
    /\ persisted i w' = Some (ms ++ [m]).
Proof.
  intros (conv & Hc & Hid & Hi & Hms). unfold App.append_message. rewrite Hc, Hms.
  destruct (save_and_set_returns true (with_messages conv (ms ++ [m])) i w Hid Hi)
    as [index ->].
  eexists. split; [reflexivity|]. split_and!.
  - by eexists.
  - done.
  - unfold persisted. cbn [localStorage]. by rewrite get_after_save.
Qed.

Lemma on_last_step (f : Assistant -> Assistant) (i : string) (init : list Message)
  (a : Assistant) (w : World) :
  holds i (init ++ [Assistant_ a]) w ->
  exists w' : World,
    on_last f w = Return w'
    /\ holds i (init ++ [Assistant_ (f a)]) w' /\ same_session w w'
    /\ persisted i w' = Some (init ++ [Assistant_ (f a)]).
Proof.
  intros (conv & Hc & Hid & Hi & Hms). unfold App.on_last. rewrite Hc, Hms.
  rewrite write_last_app. cbn [Js.bind].
  destruct (save_and_set_returns false
              (with_messages conv (init ++ [Assistant_ (f a)])) i w Hid Hi)
    as [index ->].
  eexists. split; [reflexivity|]. split_and!.
  - by eexists.
  - done.
  - unfold persisted. cbn [localStorage]. by rewrite get_after_save.
Qed.

Lemma on_title_step (t : value) (i : string) (ms : list Message) (w : World) :
  holds i ms w ->
  exists w' : World,
    on_title t w = Return w' /\ holds i ms w' /\ same_session w w'
    /\ persisted i w' = Some ms.
Proof.
  intros (conv & Hc & Hid & Hi & Hms). unfold App.on_title. rewrite Hc.
  match goal with
  | |- context [App.save_and_set _ _ _ ?next _] =>
      destruct (save_and_set_returns true next i w Hid Hi) as [index ->]
  end.
  eexists. split; [reflexivity|]. split_and!.
  - by eexists.
  - done.
  - unfold persisted. cbn [localStorage]. by rewrite get_after_save.
Qed.

Lemma rollback_step (i : string) (ms : list Message) (m1 m2 : Message) (w : World) :
  holds i (ms ++ [m1; m2]) w ->
  exists w' : World,
    rollback w = Return w' /\ holds i ms w' /\ same_session w w'
    /\ persisted i w' = Some ms.
Proof.
  intros (conv & Hc & Hid & Hi & Hms). unfold App.rollback. rewrite Hc, Hms.
  rewrite slice_0_m2_app.
  destruct (save_and_set_returns true (with_messages conv ms) i w Hid Hi)
    as [index ->].
  eexists. split; [reflexivity|]. split_and!.
  - by eexists.
  - done.
  - unfold persisted. cbn [localStorage]. by rewrite get_after_save.
Qed.

(** ** One event at a time *)

Section Open.

Variable i : string.
Variable init : list Message.

Local Abbreviation takes := (App.takes i init).

Lemma takes_nil (a : Assistant) : takes a a [].
Proof. intros w Hw. by exists w. Qed.

Lemma takes_cons (a a' a'' : Assistant) (u : Update) (q : list Update) :
  takes a a' [u] -> takes a' a'' q -> takes a a'' (u :: q).
Proof.
  intros Hu Hq w Hw. destruct (Hu w Hw) as (w1 & H1 & Hh1 & Hp1 & Hc1).
  cbn [apply_all] in H1 |- *. destruct (u w) as [w1'|e]; [|discriminate H1].
  cbn [Js.bind] in H1 |- *. injection H1 as ->.
  destruct (Hq w1 Hh1) as (w2 & H2 & Hh2 & Hp2 & Hc2).
  exists w2. split_and!; [done|done|auto|congruence].
Qed.

Lemma takes_on_last (f : Assistant -> Assistant) (a : Assistant) :
  takes a (f a) [on_last f].
Proof.
  intros w Hw. destruct (on_last_step f i init a w Hw) as (w' & H & Hh & Hs & Hp).
  exists w'. cbn [apply_all]. rewrite H. split_and!; [done|done|done|apply Hs].
Qed.

Lemma takes_on_title (t : value) (a : Assistant) : takes a a [on_title t].
Proof.
  intros w Hw. destruct (on_title_step t i _ w Hw) as (w' & H & Hh & Hs & Hp).
  exists w'. cbn [apply_all]. rewrite H. split_and!; [done|done|done|apply Hs].
Qed.

Lemma takes_on_state (g : State -> State) (a : Assistant) :
  (forall s, currentConversation (g s) = currentConversation s) ->
  (forall s, currentConversationId (g s) = currentConversationId s) ->
  takes a a [on_state g].
Proof.
  intros Hg1 Hg2 w (conv & Hc & Hrest). eexists. cbn [apply_all on_state Js.bind].
  split; [reflexivity|]. split_and!.
  - exists conv. cbn [state]. by rewrite Hg1.
  - done.
  - cbn [state]. apply Hg2.
Qed.

Lemma takes_refresh_list (a : Assistant) : takes a a [refresh_list].
Proof.
  intros w (conv & Hc & Hrest). eexists. cbn [apply_all refresh_list Js.bind].
  split; [reflexivity|]. split_and!; [by exists conv|done|done].
Qed.

(** Each event writes its own fields of the open message, and no other. *)
Lemma onEvent_takes (eventType event : value) (a : Assistant) :
  exists a' : Assistant,
    takes a a' (onEvent eventType event)
    /\ forall f : Field, f ∉ own_fields eventType -> read f a' = read f a.
Proof.
  unfold App.onEvent, own_fields.
  repeat match goal with
         | |- context [if is_str ?v ?s then _ else _] =>
             destruct (is_str v s); cbv iota
         end.
  all: eexists; split;
    [ repeat first
        [ apply takes_nil
        | apply takes_on_last
        | apply takes_on_title
        | apply takes_refresh_list
        | apply takes_on_state; reflexivity
        | eapply takes_cons ]
    | intros [] Hf; try reflexivity; exfalso; apply Hf; set_solver ].
Qed.

Lemma events_take (delivered : list (value * value)) (a : Assistant) :
  exists a' : Assistant,
    takes a a' (flat_map (fun e => onEvent (fst e) (snd e)) delivered)
    /\ forall f : Field,
         (forall e, e ∈ delivered -> f ∉ own_fields (fst e)) ->
         read f a' = read f a.
Proof.
  revert a. induction delivered as [|[ty ev] delivered IH]; intros a; cbn [flat_map].
  - exists a. split; [apply takes_nil|done].
  - destruct (onEvent_takes ty ev a) as (a1 & H1 & F1).
    destruct (IH a1) as (a2 & H2 & F2). exists a2. cbn [fst snd]. split.
    + intros w Hw. destruct (H1 w Hw) as (w1 & E1 & Hh1 & Hp1 & Hc1).
      destruct (H2 w1 Hh1) as (w2 & E2 & Hh2 & Hp2 & Hc2).
      exists w2. rewrite apply_all_app, E1. cbn [Js.bind].
      split_and!; [done|done|auto|congruence].
    + intros f Hf. rewrite F2, F1; [done| |].
      * apply (Hf (ty, ev)). left.
      * intros e He. apply Hf. by right.
Qed.

End Open.

(** ** A whole turn *)

Lemma foldl_enqueue (delivered : list (value * value)) (queue : list Update) :
  foldl (Sse.deliver (fun eventType event queue =>
                        Return (queue ++ onEvent eventType event)))
    queue delivered
  = queue ++ flat_map (fun e => onEvent (fst e) (snd e)) delivered.
Proof.
  revert queue. induction delivered as [|e delivered IH]; intros queue;
    cbn [foldl flat_map].
  - by rewrite app_nil_r.
  - rewrite IH. unfold Sse.deliver. by rewrite <- app_assoc.
Qed.

(** The queue that [run] applies. *)
Lemma run_queue (JSON_parse : string -> outcome value) (h : Handler)
  (t : Sse.Transport) (w : World) :
  is_Some (request h) ->
  run localeCompare now JSON_parse h t w
  = apply_all (queue_of localeCompare now h (delivered JSON_parse t) (result_of t)) w.
Proof.
  intros [req Hreq]. unfold run, queue_of. rewrite Hreq.
  destruct t as [| |chunks rejects].
  - done.
  - done.
  - rewrite SseFacts.sendMessageStream_state, foldl_enqueue.
    cbn [delivered result_of]. destruct rejects.
    + by rewrite <- app_assoc.
    + by rewrite app_nil_r.
Qed.

(** The updates that [handleSendMessage] queues before the request: the
    user message and the placeholder are appended and stored. *)
Lemma handleSendMessage_appends (content : string) (skipClarification : bool)
  (i : string) (ms : list Message) (w : World) :
  current i ms w ->
  let h := handleSendMessage (state w) content skipClarification in
  let clarifying :=
    truthy (pendingClarification (state w)) && nonempty (originalQuery (state w)) in
  is_Some (request h)
  /\ exists w1 : World,
       apply_all (updates h) w = Return w1
       /\ holds i (ms ++ [User content; Assistant_ assistantMessage]) w1
       /\ persisted i w1 = Some (ms ++ [User content; Assistant_ assistantMessage])
       /\ pendingClarification (state w1)
          = (if clarifying then VNull else pendingClarification (state w))
       /\ originalQuery (state w1)
          = (if clarifying then None else Some content).
Proof.
  intros [Hcid (conv & Hc & Hid & Hi & Hms)]. cbv zeta.
  unfold App.handleSendMessage. rewrite Hc.
  destruct (currentConversationId (state w)) as [cid|]; [|discriminate Hcid].
  cbn [nonempty] in Hcid. destruct (String.eqb cid ""); [discriminate Hcid|].
  cbn [request updates]. split; [by eexists|].
  set (clarifying := truthy (pendingClarification (state w))
                     && nonempty (originalQuery (state w))).
  set (w0 := {| state :=
                  (if clarifying
                   then setOriginalQuery None
                          (setPendingClarification VNull
                             (setIsLoading true (state w)))
                   else setOriginalQuery (Some content)
                          (setIsLoading true (state w)));
                localStorage := localStorage w |}).
  assert (H0 : holds i ms w0).
  { exists conv. unfold w0. by destruct clarifying. }
  destruct (append_message_step (User content) i ms w0 H0)
    as (w1 & E1 & H1 & S1 & _).
  destruct (append_message_step (Assistant_ assistantMessage) i _ w1 H1)
    as (w2 & E2 & H2 & S2 & P2).
  exists w2. rewrite <- app_assoc in H2, P2. cbn [app] in H2, P2.
  destruct S1 as (_ & Sp1 & So1 & _). destruct S2 as (_ & Sp2 & So2 & _).
  split_and!; [|done|done| |].
  - destruct clarifying;
      cbn [app apply_all on_state Js.bind state localStorage];
      fold w0; rewrite E1; cbn [Js.bind]; by rewrite E2.
  - rewrite Sp2, Sp1. unfold w0. by destruct clarifying.
  - rewrite So2, So1. unfold w0. by destruct clarifying.
Qed.

Lemma holds_in_memory (i : string) (ms : list Message) (w : World) :
  holds i ms w -> in_memory w = Some ms.
Proof. intros (conv & Hc & _ & _ & Hms). unfold in_memory. by rewrite Hc. Qed.

(** A turn up to the end of the stream: the two messages are appended,
    the events fill in the second, and the stored copy keeps in step. *)
Lemma turn_stays_open (content : string) (skipClarification : bool)
  (delivered : list (value * value)) (i : string) (ms : list Message) (w : World) :
  current i ms w ->
  exists (w2 : World) (a : Assistant),
    apply_all (updates (handleSendMessage (state w) content skipClarification)
               ++ flat_map (fun e => onEvent (fst e) (snd e)) delivered) w
    = Return w2
    /\ holds i (ms ++ [User content; Assistant_ a]) w2
    /\ persisted i w2 = Some (ms ++ [User content; Assistant_ a]).
Proof.
  intros Hw.
  destruct (handleSendMessage_appends content skipClarification i ms w Hw)
    as (_ & w1 & E1 & H1 & P1 & _).
  destruct (events_take i (ms ++ [User content]) delivered assistantMessage)
    as (a & Ha & _).
  replace (ms ++ [User content; Assistant_ assistantMessage])
    with ((ms ++ [User content]) ++ [Assistant_ assistantMessage]) in H1, P1
    by (by rewrite <- app_assoc).
  destruct (Ha w1 H1) as (w2 & E2 & H2 & P2 & _).
  exists w2, a. rewrite apply_all_app, E1. cbn [Js.bind].
  rewrite <- app_assoc in H2. cbn [app] in H2.
  split_and!; [done|done|].
  apply P2 in P1. rewrite <- app_assoc in P1. exact P1.
Qed.

(** C2, amended: the handler of an [error] event changes no message and
    nothing stored, it only clears the loading flag; a turn whose stream
    delivered an [error] event and then ended ends with the user message
    and the assistant message still appended, in memory and in the
    stored record: the log is two messages longer than before the turn. *)
Theorem error_event_keeps_turn (JSON_parse : string -> outcome value)
  (content : string) (skipClarification : bool) (chunks : list string)
  (ev : value) (i : string) (ms : list Message) (w : World) :
  current i ms w ->
  (VStr "error", ev) ∈ Sse.events JSON_parse chunks ->
  (forall w0 : World,
     apply_all (onEvent (VStr "error") ev) w0
     = Return {| state := setIsLoading false (state w0);
                 localStorage := localStorage w0 |})
  /\ exists (w' : World) (a : Assistant),
       run localeCompare now JSON_parse
         (handleSendMessage (state w) content skipClarification)
         (Sse.Body chunks false) w
       = Return w'
       /\ in_memory w' = Some (ms ++ [User content; Assistant_ a])
       /\ persisted i w' = Some (ms ++ [User content; Assistant_ a])
       /\ length <$> in_memory w' = Some (length ms + 2)%nat.
Proof.
  intros Hw _. split; [done|].
  destruct (handleSendMessage_appends content skipClarification i ms w Hw)
    as (Hreq & _).
  destruct (turn_stays_open content skipClarification
              (delivered JSON_parse (Sse.Body chunks false)) i ms w Hw)
    as (w2 & a & E2 & H2 & P2).
  exists w2, a. pose proof (holds_in_memory _ _ _ H2) as M2.
  split_and!; [|done|done|].
  - rewrite run_queue by done. unfold queue_of. cbn [result_of].
    by rewrite app_nil_r.
  - rewrite M2. cbn. rewrite length_app. cbn. done.
Qed.


(** C8: on a conversation whose last message is an assistant message,
    the handler of an event returns and leaves every message before the
    last as it was; of the last it changes at most the event's own
    fields. So after any sequence of events, in any order, a field of
    the last message that none of them owns is as it was. *)
Theorem event_writes_own_fields (i : string) (init : list Message)
  (a : Assistant) (w : World) :
  holds i (init ++ [Assistant_ a]) w ->
  (forall eventType event : value,
     exists (w' : World) (a' : Assistant),
       apply_all (onEvent eventType event) w = Return w'
       /\ in_memory w' = Some (init ++ [Assistant_ a'])
       /\ forall f : Field, f ∉ own_fields eventType -> read f a' = read f a)
  /\ (forall delivered : list (value * value),
        exists (w' : World) (a' : Assistant),
          apply_all (flat_map (fun e => onEvent (fst e) (snd e)) delivered) w
          = Return w'
          /\ in_memory w' = Some (init ++ [Assistant_ a'])
          /\ forall f : Field,
               (forall e, e ∈ delivered -> f ∉ own_fields (fst e)) ->
               read f a' = read f a).
Proof.
  intros Hw. split.
  - intros eventType event.
    destruct (onEvent_takes i init eventType event a) as (a' & Ht & Hf).
    destruct (Ht w Hw) as (w' & E & H' & _).
    exists w', a'. split_and!; [done|exact (holds_in_memory _ _ _ H')|done].
  - intros delivered.
    destruct (events_take i init delivered a) as (a' & Ht & Hf).
    destruct (Ht w Hw) as (w' & E & H' & _).
    exists w', a'. split_and!; [done|exact (holds_in_memory _ _ _ H')|done].
Qed.

End Session.

(** ** The scenario of the specification *)

Lemma fresh_world_current : current "c1" [] fresh_world.
Proof.
  split; [reflexivity|]. exists fresh_conversation. by split_and!.
Qed.

Lemma pending_world_current :
  current "c1"
    [User "What is 2+2?";
     Assistant_
       (clarification_needed
          (VObj [("needs_clarification", VBool true);
                 ("questions", VArr [VStr "Which year?"])])
          assistantMessage)]
    pending_world.
Proof.
  split; [reflexivity|]. eexists. by split_and!.
Qed.

(** The pending session is the one a clarification round leaves: the
    first message is sent, and the stream delivers [clarification_start]
    and [clarification_needed] and ends. *)
Lemma clarification_round_reaches_pending :
  match apply_all
          (queue_of Store.byCodeUnit "2024-05-01T10:00:05.000Z"
             (handleSendMessage Store.byCodeUnit "2024-05-01T10:00:05.000Z"
                (state fresh_world) "What is 2+2?" false)
             [(VStr "clarification_start",
               VObj [("type", VStr "clarification_start")]);
              (VStr "clarification_needed",
               VObj [("type", VStr "clarification_needed");
                     ("data",
                      VObj [("needs_clarification", VBool true);
                            ("questions", VArr [VStr "Which year?"])])])]
             (Return tt))
          fresh_world with
  | Return w' => state w' = pending_state
  | Throw _ => False
  end.
Proof. vm_compute. reflexivity. Qed.

Lemma scenario_has_error :
  (VStr "error", error_event) ∈ Sse.events parse_scenario scenario_chunks.
Proof. vm_compute. right. left. Qed.

(** C2, as stated, fails: in the scenario of the specification the
    stream delivers [stage1_complete] and then [error]; the log had no
    message before the turn and has two after it. *)
Lemma error_event_leaves_two_messages :
  (exists ev : value,
     (VStr "error", ev) ∈ Sse.events parse_scenario scenario_chunks)
  /\ length <$> in_memory fresh_world = Some 0%nat
  /\ match run Store.byCodeUnit "2024-05-01T10:00:05.000Z" parse_scenario
            (handleSendMessage Store.byCodeUnit "2024-05-01T10:00:05.000Z"
               (state fresh_world) "What is 2+2?" false)
            (Sse.Body scenario_chunks false) fresh_world with
     | Return w' => length <$> in_memory w' = Some 2%nat
     | Throw _ => False
     end
  /\ ~ error_rolls_back Store.byCodeUnit "2024-05-01T10:00:05.000Z" parse_scenario
         "What is 2+2?" scenario_chunks fresh_world.
Proof.
  assert (Hrun : match run Store.byCodeUnit "2024-05-01T10:00:05.000Z" parse_scenario
            (handleSendMessage Store.byCodeUnit "2024-05-01T10:00:05.000Z"
               (state fresh_world) "What is 2+2?" false)
            (Sse.Body scenario_chunks false) fresh_world with
     | Return w' => length <$> in_memory w' = Some 2%nat
     | Throw _ => False
     end) by (vm_compute; reflexivity).
  split_and!.
  - exists error_event. apply scenario_has_error.
  - reflexivity.
  - exact Hrun.
  - intros H. destruct H as (w' & E & Hlen).
    + exists error_event. apply scenario_has_error.
    + rewrite E in Hrun. rewrite Hrun in Hlen. discriminate Hlen.
Qed.

Lemma error_event_keeps_turn_witness :
  exists (w' : World) (a : Assistant),
    run Store.byCodeUnit "2024-05-01T10:00:05.000Z" parse_scenario
      (handleSendMessage Store.byCodeUnit "2024-05-01T10:00:05.000Z"
         (state fresh_world) "What is 2+2?" false)
      (Sse.Body scenario_chunks false) fresh_world
    = Return w'
    /\ in_memory w' = Some [User "What is 2+2?"; Assistant_ a].
Proof.
  destruct (error_event_keeps_turn Store.byCodeUnit "2024-05-01T10:00:05.000Z"
              parse_scenario "What is 2+2?" false scenario_chunks error_event
              "c1" [] fresh_world fresh_world_current scenario_has_error)
    as [_ (w' & a & Hrun & Hmem & _)].
  exists w', a. split; assumption.
Defined.

(** C3: the rollback does not always remove the messages of the failed
    turn. The updater of the [catch] block slices the conversation that
    is current when it runs. With a click on another conversation while
    the request is pending, the steps are the updates of the turn, with
    the selection before those of the [catch]; after them the two
    messages of the failed turn are still in the stored log of the
    conversation of the turn, and the conversation that was selected has
    lost its last two messages, in memory and in the store. *)
Lemma rollback_hits_the_selected_conversation :
  own (selection_during_turn Store.byCodeUnit "2024-05-01T10:00:05.000Z")
  = queue_of Store.byCodeUnit "2024-05-01T10:00:05.000Z"
      (handleSendMessage Store.byCodeUnit "2024-05-01T10:00:05.000Z"
         (state two_conversations) "What is 2+2?" false)
      (delivered parse_scenario Sse.FetchRejects)
      (result_of Sse.FetchRejects)
  /\ current "c1" [] two_conversations
  /\ persisted "c1" two_conversations = Some []
  /\ persisted "c0" two_conversations
     = Some [User "Hello";
             Assistant_ (stage3_complete (VStr "Hi") assistantMessage)]
  /\ match run_among
             (selection_during_turn Store.byCodeUnit "2024-05-01T10:00:05.000Z")
             two_conversations with
     | Return w' =>
         persisted "c1" w'
         = Some [User "What is 2+2?"; Assistant_ assistantMessage]
         /\ currentConversationId (state w') = Some "c0"
         /\ in_memory w' = Some []
         /\ persisted "c0" w' = Some []
     | Throw _ => False
     end.
Proof.
  split_and!.
  - reflexivity.
  - split; [reflexivity|]. exists fresh_conversation. by split_and!.
  - reflexivity.
  - reflexivity.
  - vm_compute. split_and!; reflexivity.
Qed.



(** C5: skipping a pending clarification does not send the original
    query unchanged. [handleSkipClarification] calls the
    [handleSendMessage] of its own render, which still reads the pending
    clarification, so the request carries the original query twice,
    around the separator. *)
Lemma skip_sends_the_query_twice :
  truthy (pendingClarification pending_state) = true
  /\ originalQuery pending_state = Some "What is 2+2?"
  /\ request (handleSkipClarification Store.byCodeUnit "2024-05-01T10:00:05.000Z"
                pending_state)
     = Some {| conversationId := "c1";
               content := ("What is 2+2?" ++ separator ++ "What is 2+2?")%string;
               chairman_model := None;
               council_models := [];
               skip_clarification := true;
               is_first_message := false |}
  /\ ("What is 2+2?" ++ separator ++ "What is 2+2?")%string ≠ "What is 2+2?".
Proof. split_and!; [reflexivity|reflexivity|reflexivity|discriminate]. Qed.

Lemma event_writes_own_fields_witness :
  exists (w' : World) (a' : Assistant),
    apply_all (onEvent Store.byCodeUnit "2024-05-01T10:00:05.000Z"
                 (VStr "stage2_complete")
                 (VObj [("type", VStr "stage2_complete");
                        ("data", VArr [VStr "ranking"]);
                        ("metadata", VObj [])]))
      pending_world
    = Return w'
    /\ read F_clarification a'
       = inl (VObj [("needs_clarification", VBool true);
                    ("questions", VArr [VStr "Which year?"])])
    /\ read F_stage1 a' = inl VNull.
Proof.
  destruct (event_writes_own_fields Store.byCodeUnit "2024-05-01T10:00:05.000Z"
              "c1" [User "What is 2+2?"] _ pending_world
              (proj2 pending_world_current))
    as [Hone _].
  destruct (Hone (VStr "stage2_complete")
              (VObj [("type", VStr "stage2_complete");
                     ("data", VArr [VStr "ranking"]);
                     ("metadata", VObj [])]))
    as (w' & a' & Hrun & _ & Hframe).
  exists w', a'. split_and!; [assumption| |].
  - rewrite (Hframe F_clarification); [reflexivity|].
    intros H. vm_compute in H.
    repeat (apply elem_of_cons in H as [H|H]; [discriminate H|]).
    by apply elem_of_nil in H.
  - rewrite (Hframe F_stage1); [reflexivity|].
    intros H. vm_compute in H.
    repeat (apply elem_of_cons in H as [H|H]; [discriminate H|]).
    by apply elem_of_nil in H.
Defined.

End AppFacts.

(* ===================================================================== *)
(** * WaveEncoder: further properties *)
(* ===================================================================== *)

Module WavProps.

Import Wav WavFacts.

Local Open Scope Z_scope.
Local Open Scope list_scope.

Lemma le_bytes_bytes (n : nat) (v : Z) : Forall (fun b => 0 <= b < 256) (le_bytes n v).
Proof.
  revert v. induction n as [|n IH]; intros v; cbn [le_bytes]; constructor.
  - apply Z.mod_pos_bound. lia.
  - apply IH.
Qed.

Lemma charCodes_bytes (s : string) :
  Forall (fun b => 0 <= b < 256) (map ToUint8 (charCodes s)).
Proof.
  apply Forall_forall. intros b (c & -> & _)%list_elem_of_fmap.
  unfold ToUint8. apply Z.mod_pos_bound. lia.
Qed.

Lemma payload_bytes (samples : list number) :
  Forall (fun b => 0 <= b < 256) (payload samples).
Proof.
  unfold payload. induction samples as [|x samples IH]; cbn [flat_map]; [constructor|].
  apply Forall_app. split; [apply le_bytes_bytes|apply IH].
Qed.

(** X1: no write of [encodeWav] falls outside the buffer: for every sample
    sequence, sample rate and channel count it returns, and what it
    returns is 44 + 2 * length bytes, each in [0, 256). *)
Theorem encodeWav_in_range (samples : list number) (sampleRate numChannels : Z) :
  exists buf : list Z,
    encodeWav samples sampleRate numChannels = Return buf
    /\ length buf = (44 + 2 * length samples)%nat
    /\ Forall (fun b => 0 <= b < 256) buf.
Proof.
  rewrite encodeWav_bytes. eexists. split; [reflexivity|]. split.
  - rewrite length_app, length_header, length_payload. lia.
  - apply Forall_app. split; [|apply payload_bytes].
    unfold header.
    repeat (apply Forall_app; split);
      first [apply le_bytes_bytes | apply charCodes_bytes].
Qed.

(** X2: the chunks of the container: the tags are in place, the format chunk
    declares 16 bytes, and while they fit 32 bits the two sizes are the
    length of the buffer less 8 and less 44. *)
Theorem encodeWav_chunks (samples : list number) (sampleRate numChannels : Z) :
  exists buf : list Z,
    encodeWav samples sampleRate numChannels = Return buf
    /\ slice buf 0 4 = charCodes "RIFF"
    /\ slice buf 8 4 = charCodes "WAVE"
    /\ slice buf 12 4 = charCodes "fmt "
    /\ getUint buf 16 4 = Some 16
    /\ slice buf 36 4 = charCodes "data"
    /\ (Z.of_nat (length buf) - 8 < 4294967296 ->
        getUint buf 4 4 = Some (Z.of_nat (length buf) - 8)
        /\ getUint buf 40 4 = Some (Z.of_nat (length buf) - 44)).
Proof.
  rewrite encodeWav_bytes. eexists. split; [reflexivity|].
  split; [reflexivity|]. split; [reflexivity|]. split; [reflexivity|].
  split; [apply getUint32_field; [reflexivity|lia]|].
  split; [reflexivity|].
  rewrite length_app, length_header, length_payload. intros Hfit. split.
  - replace (Z.of_nat (44 + 2 * length samples) - 8)
      with (36 + Z.of_nat (length samples) * 2) by lia.
    apply getUint32_field; [reflexivity|lia].
  - replace (Z.of_nat (44 + 2 * length samples) - 44)
      with (Z.of_nat (length samples) * 2) by lia.
    apply getUint32_field; [reflexivity|lia].
Qed.

(** X3: the sample data of a concatenation is the concatenation of the
    sample data: blocks are encoded one after the other, each sample on
    its own. *)
Theorem encodeWav_data_app (xs ys : list number) (sampleRate numChannels : Z) :
  exists b b1 b2 : list Z,
    encodeWav (xs ++ ys) sampleRate numChannels = Return b
    /\ encodeWav xs sampleRate numChannels = Return b1
    /\ encodeWav ys sampleRate numChannels = Return b2
    /\ drop 44 b = drop 44 b1 ++ drop 44 b2.
Proof.
  rewrite !encodeWav_bytes. eexists _, _, _. split_and!; try reflexivity.
  rewrite !drop_app_length' by reflexivity. apply payload_app.
Qed.

(** ** Accuracy *)

Lemma truncate_error (x : Q) :
  (Qabs (inject_Z (truncate x) - x) < 1)%Q.
Proof.
  destruct x as [n d]. unfold truncate. cbn [Qnum Qden].
  unfold Qlt, Qabs, Qminus, Qplus, Qopp, inject_Z. cbn [Qnum Qden].
  rewrite Pos.mul_1_l, Z.mul_1_r, Z.mul_1_l.
  pose proof (Z.quot_rem' n (Zpos d)) as Hqr.
  pose proof (Z.rem_bound_abs n (Zpos d) ltac:(lia)) as Hr.
  lia.
Qed.

(** X4: a finite sample is read back from the container within one unit
    of its clamped value on the 16-bit scale: of 32767 from zero on, of
    32768 below. *)
Theorem sample_error (samples : list number) (sampleRate numChannels : Z)
  (i : nat) (q : Q) :
  samples !! i = Some (Fin q) ->
  exists (buf : list Z) (v : Z),
    encodeWav samples sampleRate numChannels = Return buf
    /\ getInt16 buf (44 + 2 * i) = Some v
    /\ (Qabs (inject_Z v
              - clamp q * inject_Z (if Qle_bool 0 (clamp q) then 32767 else 32768))
        < 1)%Q
    /\ -32768 <= v <= 32767.
Proof.
  intros Hi. rewrite encodeWav_bytes. eexists _, _. split; [reflexivity|].
  split; [by apply getInt16_sample|]. split; [|apply pcm16_range].
  cbn [pcm16]. unfold quantize.
  destruct (Qle_bool 0 (clamp q)); apply truncate_error.
Qed.

Lemma sample_error_witness :
  exists (buf : list Z) (v : Z),
    encodeWav [Fin (1 # 3); Fin (-1 # 2)] 44100 1 = Return buf
    /\ getInt16 buf 46 = Some v
    /\ -32768 <= v <= 32767.
Proof.
  destruct (sample_error [Fin (1 # 3); Fin (-1 # 2)] 44100 1 1 (-1 # 2) eq_refl)
    as (buf & v & Henc & Hget & _ & Hrange).
  exists buf, v. split; [assumption|]. split; assumption.
Defined.

(** ** Order *)

Lemma truncate_mono (x y : Q) : (x <= y)%Q -> truncate x <= truncate y.
Proof.
  destruct x as [a b], y as [c d]. unfold Qle, truncate. cbn [Qnum Qden].
  intros H.
  rewrite <- (Z.quot_mul_cancel_r a (Zpos b) (Zpos d)) by lia.
  rewrite <- (Z.quot_mul_cancel_r c (Zpos d) (Zpos b)) by lia.
  rewrite (Z.mul_comm (Zpos d) (Zpos b)).
  apply Z.quot_le_mono; lia.
Qed.

Lemma clamp_mono (x y : Q) : (x <= y)%Q -> (clamp x <= clamp y)%Q.
Proof.
  intros H. unfold clamp.
  destruct (Qle_bool x (-1)) eqn:X1; destruct (Qle_bool y (-1)) eqn:Y1;
    try destruct (Qle_bool 1 x) eqn:X2; try destruct (Qle_bool 1 y) eqn:Y2;
    rewrite ?Qle_bool_true, ?Qle_bool_false in *;
    unfold Qle in *; cbn [Qnum Qden] in *; nia.
Qed.

Lemma quantize_mono (x y : Q) : (x <= y)%Q -> quantize x <= quantize y.
Proof.
  intros H%clamp_mono. unfold quantize.
  destruct (Qle_bool 0 (clamp x)) eqn:X; destruct (Qle_bool 0 (clamp y)) eqn:Y.
  - apply truncate_mono. apply Qmult_le_compat_r; [done|]. by unfold Qle.
  - apply Qle_bool_true in X. apply Qle_bool_false in Y.
    unfold Qle in H. cbn [Qnum Qden] in *. nia.
  - apply Qle_bool_false in X. apply Qle_bool_true in Y. cbn [Qnum Qden] in *.
    pose proof (truncate_scaled_nonpos (clamp x) 32768 ltac:(lia) ltac:(lia)).
    pose proof (truncate_scaled_nonneg (clamp y) 32767 ltac:(lia) ltac:(lia)).
    lia.
  - apply truncate_mono. apply Qmult_le_compat_r; [done|]. by unfold Qle.
Qed.

(** X5: of two samples, the one that is not smaller is not encoded lower:
    the two scales meet at zero without crossing. *)
Theorem samples_keep_order (samples : list number) (sampleRate numChannels : Z)
  (i j : nat) (x y : Q) :
  samples !! i = Some (Fin x) ->
  samples !! j = Some (Fin y) ->
  (x <= y)%Q ->
  exists (buf : list Z) (u v : Z),
    encodeWav samples sampleRate numChannels = Return buf
    /\ getInt16 buf (44 + 2 * i) = Some u
    /\ getInt16 buf (44 + 2 * j) = Some v
    /\ u <= v.
Proof.
  intros Hi Hj Hxy. rewrite encodeWav_bytes. eexists _, _, _.
  split; [reflexivity|]. split; [by apply getInt16_sample|].
  split; [by apply getInt16_sample|]. by apply quantize_mono.
Qed.

Lemma samples_keep_order_witness :
  exists (buf : list Z) (u v : Z),
    encodeWav [Fin (-1 # 3); Fin (1 # 5)] 44100 1 = Return buf
    /\ getInt16 buf 44 = Some u
    /\ getInt16 buf 46 = Some v
    /\ u <= v.
Proof.
  apply (samples_keep_order [Fin (-1 # 3); Fin (1 # 5)] 44100 1 0 1
           (-1 # 3) (1 # 5) eq_refl eq_refl).
  unfold Qle. simpl. lia.
Defined.

End WavProps.

(* ===================================================================== *)
(** * AudioCapturer: further properties *)
(* ===================================================================== *)

Module CaptureProps.

Import Js Wav Capture WavFacts CaptureFacts.

Local Open Scope list_scope.

Lemma onaudioprocess_blocks (blocks : list (list number)) (c : Chat) (s : Session) :
  recordingRef c = Some s ->
  foldl (fun c b => onaudioprocess b c) c blocks
  = {| input := input c; isRecording := isRecording c;
       isTranscribing := isTranscribing c; sttError := sttError c;
       recordingRef := Some {| device := device s;
                               chunks := chunks s ++ blocks;
                               sampleRate := sampleRate s |} |}.
Proof.
  revert c s. induction blocks as [|b blocks IH]; intros c s Hs; cbn [foldl].
  - rewrite app_nil_r. destruct c as [? ? ? ? r]; cbn in *. subst r. by destruct s.
  - erewrite IH; [|unfold onaudioprocess; rewrite Hs; reflexivity].
    unfold onaudioprocess. rewrite Hs. cbn. by rewrite <- app_assoc.
Qed.

(** X6: a recording from start to stop: when the microphone is granted to a
    capturer that is free, and the blocks [blocks] arrive before [stop],
    then [stop] releases the graph, hands the encoder the blocks joined
    in arrival order with the rate of the context and one channel, and
    uploads a blob of 44 bytes and two per sample. *)
Theorem recording_round_trip (trim : string -> string)
  (reply : outcome (option string)) (rate : Z) (blocks : list (list number))
  (c : Chat) :
  isRecording c = false ->
  isTranscribing c = false ->
  let started := fst (startRecording false false (Return rate) c) in
  let recorded := foldl (fun c b => onaudioprocess b c) started blocks in
  exists (c' : Chat) (blob : DataView),
    stopRecording trim reply recorded
    = Return (c', {| released := Some (release connected);
                     encoded := Some (concat blocks, rate, 1%Z);
                     uploaded := Some blob |})
    /\ encodeWav (concat blocks) rate 1 = Return blob
    /\ length blob = (44 + 2 * length (concat blocks))%nat
    /\ isRecording c' = false
    /\ isTranscribing c' = false
    /\ recordingRef c' = None.
Proof.
  intros Hrec Htr started recorded.
  assert (Hstarted : started
    = {| input := input c; isRecording := true;
         isTranscribing := isTranscribing c; sttError := None;
         recordingRef := Some {| device := connected; chunks := [];
                                 sampleRate := rate |} |}).
  { unfold started, startRecording. by rewrite Hrec, Htr. }
  assert (Hrecorded : recorded
    = {| input := input c; isRecording := true;
         isTranscribing := isTranscribing c; sttError := None;
         recordingRef := Some {| device := connected; chunks := blocks;
                                 sampleRate := rate |} |}).
  { unfold recorded.
    rewrite (onaudioprocess_blocks blocks started
               {| device := connected; chunks := []; sampleRate := rate |})
      by (by rewrite Hstarted).
    by rewrite Hstarted. }
  rewrite Hrecorded. unfold stopRecording.
  cbn [isRecording recordingRef chunks sampleRate device input sttError].
  rewrite merge_concat, encodeWav_bytes.
  destruct reply as [text|e].
  - eexists _, _. split; [reflexivity|].
    split; [reflexivity|]. split; [|done].
    rewrite length_app, length_header, length_payload. lia.
  - eexists _, _. split; [reflexivity|].
    split; [reflexivity|]. split; [|done].
    rewrite length_app, length_header, length_payload. lia.
Qed.

Lemma recording_round_trip_witness :
  exists (c' : Chat) (blob : DataView),
    stopRecording (fun s => s) (Return (Some "hello"))
      (foldl (fun c b => onaudioprocess b c)
         (fst (startRecording false false (Return 48000%Z) idle))
         [[Fin (1 # 2)]; [Fin (-1 # 4); Fin 0]])
    = Return (c', {| released := Some (release connected);
                     encoded := Some ([Fin (1 # 2); Fin (-1 # 4); Fin 0], 48000%Z, 1%Z);
                     uploaded := Some blob |})
    /\ length blob = 50%nat.
Proof.
  destruct (recording_round_trip (fun s => s) (Return (Some "hello")) 48000%Z
              [[Fin (1 # 2)]; [Fin (-1 # 4); Fin 0]] idle eq_refl eq_refl)
    as (c' & blob & H1 & _ & H3 & _).
  exists c', blob. split; [exact H1|exact H3].
Defined.

(** X7: the three handlers keep the flag and the session together: after
    [startRecording], after a block and after [stopRecording], the
    capturer records exactly when it has a session. *)
Theorem recorder_stays_armed (c : Chat) :
  armed c ->
  (forall isLoading isMicStarting grant,
     armed (fst (startRecording isLoading isMicStarting grant c)))
  /\ (forall channel, armed (onaudioprocess channel c))
  /\ (forall trim reply,
        exists c' tr,
          stopRecording trim reply c = Return (c', tr) /\ armed c').
Proof.
  unfold armed. intros H. split_and!.
  - intros isLoading isMicStarting grant. unfold startRecording.
    destruct (isLoading || isTranscribing c || isRecording c || isMicStarting) eqn:G;
      [exact H|].
    destruct grant; cbn; [by split|exact H].
  - intros channel. unfold onaudioprocess.
    destruct (recordingRef c) as [s|] eqn:E; [|by rewrite E].
    cbn. split; [by eauto|]. intros _. apply H. by eauto.
  - intros trim reply. unfold stopRecording.
    destruct (isRecording c) eqn:R, (recordingRef c) as [s|] eqn:E;
      try (eexists _, _; split; [reflexivity|]; rewrite R, E; exact H).
    rewrite merge_concat, encodeWav_bytes.
    destruct reply; eexists _, _; (split; [reflexivity|]); cbn;
      (split; [discriminate|intros [? ?]; discriminate]).
Qed.

Lemma recorder_stays_armed_witness :
  armed (fst (startRecording false false (Return 48000%Z) idle)).
Proof.
  assert (H : armed idle).
  { unfold armed, idle. cbn. split; [discriminate|intros [? ?]; discriminate]. }
  exact (proj1 (recorder_stays_armed idle H) false false (Return 48000%Z)).
Defined.

End CaptureProps.

(* ===================================================================== *)
(** * Council selection: properties *)
(* ===================================================================== *)

Module SidebarProps.

Import Sidebar.

Local Open Scope list_scope.

Lemma includes_elem (councilModels : list string) (model : string) :
  includes councilModels model = true <-> model ∈ councilModels.
Proof.
  unfold includes. rewrite existsb_exists. split.
  - intros (m & Hin & Heq). apply String.eqb_eq in Heq. subst m.
    by apply list_elem_of_In.
  - intros Hin. exists model. split; [by apply list_elem_of_In|apply String.eqb_refl].
Qed.

Lemma includes_not_elem (councilModels : list string) (model : string) :
  includes councilModels model = false <-> model ∉ councilModels.
Proof.
  rewrite <- includes_elem. by destruct (includes councilModels model).
Qed.

Lemma filter_absent (councilModels : list string) (model : string) :
  model ∉ councilModels -> filter (fun m => m ≠ model) councilModels = councilModels.
Proof.
  induction councilModels as [|m ms IH]; intros Hnot; [done|].
  apply not_elem_of_cons in Hnot as [Hne Hnot].
  rewrite filter_cons_True by done. by rewrite IH.
Qed.

Lemma length_filter_present (councilModels : list string) (model : string) :
  NoDup councilModels -> model ∈ councilModels ->
  S (length (filter (fun m => m ≠ model) councilModels)) = length councilModels.
Proof.
  induction 1 as [|m ms Hm Hnd IH]; intros Hin; [by apply elem_of_nil in Hin|].
  destruct (decide (m = model)) as [->|Hne].
  - rewrite filter_cons_False by (intros H; by apply H).
    by rewrite filter_absent.
  - rewrite filter_cons_True by done. cbn [length]. f_equal. apply IH.
    apply elem_of_cons in Hin as [->|Hin]; [done|exact Hin].
Qed.

(** X8: a click keeps a selection of two to six distinct models one: a model
    is taken out only while more than two are selected, and put in only
    while fewer than six are; and the click changes the membership of the
    clicked model alone. *)
Theorem toggle_keeps_valid (councilModels : list string) (model : string) :
  valid councilModels ->
  valid (toggled councilModels model)
  /\ forall m, m ≠ model ->
       (m ∈ toggled councilModels model <-> m ∈ councilModels).
Proof.
  intros [Hnd [Hlo Hhi]]. unfold toggled, handleCouncilModelToggle, valid.
  destruct (includes councilModels model) eqn:Hinc.
  - apply includes_elem in Hinc.
    destruct (Nat.ltb_spec 2 (length councilModels)) as [Hgt|Hle]; cbv [default from_option id].
    + pose proof (length_filter_present councilModels model Hnd Hinc) as Hlen.
      split_and!; [by apply NoDup_filter|lia|lia|].
      intros m Hne. rewrite list_elem_of_filter. split; [by intros [_ ?]|by intros ?].
    + done.
  - apply includes_not_elem in Hinc.
    destruct (Nat.ltb_spec (length councilModels) 6) as [Hlt|Hge]; cbv [default from_option id].
    + split_and!.
      * apply NoDup_app. split_and!; [done| |apply NoDup_singleton].
        intros m Hm Hm'. apply list_elem_of_singleton in Hm'. by subst m.
      * rewrite length_app. simpl. lia.
      * rewrite length_app. simpl. lia.
      * intros m Hne. rewrite elem_of_app, list_elem_of_singleton.
        split; [by intros [?|?]|by left].
    + done.
Qed.

Lemma toggle_keeps_valid_witness :
  valid (toggled ["a/x"; "b/y"; "c/z"] "b/y").
Proof.
  refine (proj1 (toggle_keeps_valid ["a/x"; "b/y"; "c/z"] "b/y" _)).
  split; [|simpl; lia].
  apply NoDup_cons. split.
  { intros H. apply elem_of_cons in H as [H|H]; [discriminate|].
    apply elem_of_cons in H as [H|H]; [discriminate|]. by apply elem_of_nil in H. }
  apply NoDup_cons. split.
  { intros H. apply elem_of_cons in H as [H|H]; [discriminate|]. by apply elem_of_nil in H. }
  apply NoDup_cons. split; [apply not_elem_of_nil|apply NoDup_nil_2].
Defined.

(** X9: ticking a model and unticking it again gives the selection back, in
    its order: the model went to the end and is the one taken out. *)
Theorem tick_then_untick (councilModels : list string) (model : string) :
  valid councilModels ->
  model ∉ councilModels ->
  (length councilModels < 6)%nat ->
  handleCouncilModelToggle councilModels model = Some (councilModels ++ [model])
  /\ handleCouncilModelToggle (councilModels ++ [model]) model = Some councilModels.
Proof.
  intros [Hnd [Hlo Hhi]] Hnot Hlt. unfold handleCouncilModelToggle.
  rewrite (proj2 (includes_not_elem _ _) Hnot).
  destruct (Nat.ltb_spec (length councilModels) 6) as [_|?]; [|lia].
  split; [done|].
  rewrite (proj2 (includes_elem (councilModels ++ [model]) model))
    by (apply elem_of_app; right; apply list_elem_of_singleton; reflexivity).
  rewrite length_app. cbn [length].
  destruct (Nat.ltb_spec 2 (length councilModels + 1)) as [_|?]; [|lia].
  rewrite filter_app, filter_absent by done.
  rewrite filter_cons_False by (intros H; by apply H).
  rewrite filter_nil. by rewrite app_nil_r.
Qed.

Lemma tick_then_untick_witness :
  handleCouncilModelToggle ["a/x"; "b/y"] "c/z" = Some ["a/x"; "b/y"; "c/z"]
  /\ handleCouncilModelToggle ["a/x"; "b/y"; "c/z"] "c/z" = Some ["a/x"; "b/y"].
Proof.
  apply (tick_then_untick ["a/x"; "b/y"] "c/z").
  - split; [|simpl; lia].
    apply NoDup_cons. split.
    { intros H. apply elem_of_cons in H as [H|H]; [discriminate|]. by apply elem_of_nil in H. }
    apply NoDup_cons. split; [apply not_elem_of_nil|apply NoDup_nil_2].
  - intros H. apply elem_of_cons in H as [H|H]; [discriminate|].
    apply elem_of_cons in H as [H|H]; [discriminate|]. by apply elem_of_nil in H.
  - simpl. lia.
Defined.

(** X10: the handler changes nothing exactly where the panel disables the
    checkbox or the selection is full: a model in a selection of at most
    two stays, and a seventh model is not added. *)
Theorem toggle_refused (councilModels : list string) (model : string) :
  handleCouncilModelToggle councilModels model = None
  <-> disabled councilModels model = true
      \/ (includes councilModels model = false /\ (6 <= length councilModels)%nat).
Proof.
  unfold handleCouncilModelToggle, disabled.
  destruct (includes councilModels model); cbn [andb].
  - destruct (Nat.ltb_spec 2 (length councilModels));
      destruct (Nat.leb_spec (length councilModels) 2); try lia.
    + split; [done|]. by intros [?|[? _]].
    + split; [by left|done].
  - destruct (Nat.ltb_spec (length councilModels) 6); split; try done.
    + intros [?|[_ ?]]; [done|lia].
    + intros _. right. split; [done|lia].
Qed.

End SidebarProps.

(* ===================================================================== *)
(** * ConversationStore: further properties *)
(* ===================================================================== *)

Module StoreProps.

Import Data Store StoreFacts.

Local Open Scope list_scope.

Lemma convKey_inj (i j : string) : convKey i = convKey j -> i = j.
Proof. unfold convKey, CONV_PREFIX. simpl. intros [= H]. exact H. Qed.

Lemma get_insert_conv (i j : string) (t : text) (ls : Storage) :
  i ≠ j -> get j (<[convKey i := t]> ls) = get j ls.
Proof.
  intros Hij. unfold get. rewrite lookup_insert_ne; [done|].
  intros H. apply Hij. by apply convKey_inj.
Qed.

Lemma get_setIndex (j : string) (index : list Entry) (ls : Storage) :
  get j (setIndex index ls) = get j ls.
Proof.
  unfold get, setIndex.
  by rewrite lookup_insert_ne by (symmetry; apply convKey_not_index).
Qed.

Lemma save_returns (localeCompare : string -> string -> Z) (now i : string)
  (c : Conversation) (ls : Storage) :
  id c = Some i -> i ≠ "" ->
  save localeCompare now (Some c) ls
  = Return (sort localeCompare (upsert (entry_of now i c) (getIndex ls)),
            setIndex (sort localeCompare (upsert (entry_of now i c) (getIndex ls)))
              (<[convKey i := JSON_stringify (JObject c)]> ls)).
Proof.
  intros Hid Hi. unfold save. rewrite Hid.
  destruct (String.eqb_spec i "") as [->|_]; [done|].
  unfold upsertIndexItem. cbn [e_id e_created_at e_title e_message_count].
  rewrite or_else_twice by done. rewrite getIndex_insert_conv.
  replace (match messages c with Some ms => length ms | None => 0%nat end)
    with (length (default [] (messages c))) by (by destruct (messages c)).
  reflexivity.
Qed.

(** ** The index lists the record *)

Lemma upsert_elem (e : Entry) (index : list Entry) : e ∈ upsert e index.
Proof.
  destruct (upsert_spec e index)
    as [[_ ->]|(before & c & after & _ & _ & _ & ->)].
  - left.
  - apply elem_of_app. right. left.
Qed.

(** ** A sorted index *)

Section Sorted.

Variable localeCompare : string -> string -> Z.

Hypothesis localeCompare_total :
  forall x y : string, (0 < localeCompare x y)%Z -> (localeCompare y x <= 0)%Z.
Hypothesis localeCompare_trans :
  forall x y z : string,
    (localeCompare x y <= 0)%Z -> (localeCompare y z <= 0)%Z ->
    (localeCompare x z <= 0)%Z.

Local Abbreviation not_older := (Store.not_older localeCompare).
Local Abbreviation sort := (Store.sort localeCompare).
Local Abbreviation save := (Store.save localeCompare).

(** Sorting an index that is sorted changes nothing. *)
Lemma sort_sorted_id (l : list Entry) : StronglySorted not_older l -> sort l = l.
Proof.
  unfold Store.sort. induction 1 as [|x l Hl IH Hx]; cbn [foldr]; [done|].
  rewrite IH. destruct Hx as [|y l Hxy _]; cbn [insert_sorted]; [done|].
  unfold Store.not_older in Hxy. unfold newest_first.
  by destruct (Z.leb_spec (localeCompare (e_created_at y) (e_created_at x)) 0); [|lia].
Qed.

End Sorted.

(** ** Filtering *)

Lemma StronglySorted_filter_id {A : Type} (R : A -> A -> Prop) (P : A -> Prop)
  `{forall x, Decision (P x)} (l : list A) :
  StronglySorted R l -> StronglySorted R (filter P l).
Proof.
  induction 1 as [|x l Hl IH Hx]; [constructor|].
  rewrite filter_cons. destruct (decide (P x)); [|done].
  constructor; [done|]. rewrite Forall_forall in *.
  intros y [_ Hy]%list_elem_of_filter. by apply Hx.
Qed.

End StoreProps.

(* ===================================================================== *)
(** * ConversationStore over any stored index: proofs *)
(* ===================================================================== *)

Module LocalConversationsFacts.

Import Js Data LocalConversations.

Local Open Scope list_scope.

(** ** Reading an element *)

Lemma get_readable (c : value) (k : string) :
  readable c -> Data.get c k = Return (get_opt c k).
Proof. by destruct c. Qed.

Lemma get_unreadable (c : value) (k : string) :
  ~ readable c -> Data.get c k = Throw TypeError.
Proof. destruct c; cbn; try done; intros H; by destruct H. Qed.

Lemma readable_dec (c : value) : {readable c} + {~ readable c}.
Proof. destruct c; cbn; (by left) || (right; tauto). Qed.

Lemma all_readable_dec (l : list value) :
  {Forall readable l} + {~ Forall readable l}.
Proof. apply Forall_dec, readable_dec. Qed.

Lemma has_id_readable (i : string) (c : value) :
  readable c -> has_id i c = Return (is_str (get_opt c "id") i).
Proof. intros H. unfold has_id. by rewrite get_readable. Qed.

Lemma has_id_unreadable (i : string) (c : value) :
  ~ readable c -> has_id i c = Throw TypeError.
Proof. intros H. unfold has_id. by rewrite get_unreadable. Qed.

Lemma readable_entry_value (e : Entry) : readable (entry_value e).
Proof. exact I. Qed.

Lemma readable_nextItem (item : Entry) : readable (nextItem item).
Proof. exact I. Qed.

(** ** Replace if present, else prepend *)

Lemma findIndex_spec (i : string) (l : list value) :
  match findIndex i l with
  | Return None => Forall readable l /\ Forall (fun c => ~ id_is i c) l
  | Return (Some k) =>
      exists before c after,
        l = before ++ c :: after
        /\ length before = k
        /\ id_is i c /\ readable c
        /\ Forall readable before
        /\ Forall (fun c => ~ id_is i c) before
  | Throw e => e = TypeError /\ ~ Forall readable l
  end.
Proof.
  induction l as [|c l IH]; cbn [findIndex]; [by split|].
  destruct (readable_dec c) as [Hc|Hc].
  - rewrite has_id_readable by done. cbn [Js.bind].
    destruct (is_str (get_opt c "id") i) eqn:E.
    + exists [], c, l. by split_and!.
    + assert (Hne : ~ id_is i c) by (unfold id_is; by rewrite E).
      destruct (findIndex i l) as [[k|]|e]; cbn [Js.bind fmap option_fmap option_map].
      * destruct IH as (before & c' & after & -> & Hlen & Hid & Hr & Hb & Hn).
        exists (c :: before), c', after.
        split_and!; [done|simpl; lia|done|done|by constructor|by constructor].
      * destruct IH as [H1 H2]. split; by constructor.
      * destruct IH as [-> Hn]. split; [done|].
        intros H. apply Hn. by apply Forall_cons in H as [_ H].
  - rewrite has_id_unreadable by done. cbn [Js.bind]. split; [done|].
    intros H. apply Hc. by apply Forall_cons in H as [H _].
Qed.

Lemma filter_out_spec (i : string) (l : list value) :
  match filter_out i l with
  | Return kept =>
      Forall readable l /\ kept = filter (fun c => ~ id_is i c) l
  | Throw e => e = TypeError /\ ~ Forall readable l
  end.
Proof.
  induction l as [|c l IH]; cbn [filter_out]; [by split|].
  destruct (readable_dec c) as [Hc|Hc].
  - rewrite has_id_readable by done. cbn [Js.bind].
    destruct (filter_out i l) as [kept|e]; cbn [Js.bind].
    + destruct IH as [Hl ->]. split; [by constructor|].
      destruct (is_str (get_opt c "id") i) eqn:E.
      * rewrite filter_cons_False; [done|]. intros H. apply H. exact E.
      * rewrite filter_cons_True; [done|]. unfold id_is. by rewrite E.
    + destruct IH as [-> Hn]. split; [done|].
      intros H. apply Hn. by apply Forall_cons in H as [_ H].
  - rewrite has_id_unreadable by done. cbn [Js.bind]. split; [done|].
    intros H. apply Hc. by apply Forall_cons in H as [H _].
Qed.

(** ** Sorting *)

Section Sorting.

Variable localeCompare : string -> string -> Z.
Variable ToString : value -> string.

Local Abbreviation key := (LocalConversations.key ToString).
Local Abbreviation not_older := (LocalConversations.not_older localeCompare ToString).
Local Abbreviation newest_first := (LocalConversations.newest_first localeCompare ToString).
Local Abbreviation insert_sorted := (LocalConversations.insert_sorted localeCompare ToString).
Local Abbreviation sort := (LocalConversations.sort localeCompare ToString).
Local Abbreviation upsertIndexItem :=
  (LocalConversations.upsertIndexItem localeCompare ToString).
Local Abbreviation save := (LocalConversations.save localeCompare ToString).
Local Abbreviation create := (LocalConversations.create localeCompare ToString).
Local Abbreviation updateTitle := (LocalConversations.updateTitle localeCompare ToString).

Lemma newest_first_readable (x y : value) :
  readable x -> readable y ->
  newest_first x y = Return (localeCompare (key y) (key x)).
Proof.
  intros Hx Hy. unfold LocalConversations.newest_first.
  by rewrite !get_readable.
Qed.

Lemma newest_first_unreadable (x y : value) :
  ~ readable x \/ ~ readable y -> newest_first x y = Throw TypeError.
Proof.
  intros H. unfold LocalConversations.newest_first.
  destruct (readable_dec y) as [Hy|Hy].
  - rewrite (get_readable y) by done. cbn [Js.bind].
    destruct H as [Hx|?]; [|done]. by rewrite get_unreadable.
  - by rewrite get_unreadable.
Qed.

Lemma insert_sorted_permutes (x : value) (l s : list value) :
  insert_sorted x l = Return s -> s ≡ₚ x :: l.
Proof.
  revert s. induction l as [|y l IH]; intros s; cbn [LocalConversations.insert_sorted].
  - by intros [= <-].
  - destruct (newest_first x y) as [c|]; cbn [Js.bind]; [|done].
    destruct (c <=? 0)%Z; [by intros [= <-]|].
    destruct (insert_sorted x l) as [r|]; cbn [Js.bind]; [|done].
    intros [= <-]. rewrite (IH r eq_refl). apply Permutation_swap.
Qed.

Lemma sort_permutes (l s : list value) : sort l = Return s -> s ≡ₚ l.
Proof.
  revert s. induction l as [|x l IH]; intros s; cbn [LocalConversations.sort].
  - by intros [= <-].
  - destruct (sort l) as [r|]; cbn [Js.bind]; [|done].
    intros H%insert_sorted_permutes. by rewrite H, (IH r eq_refl).
Qed.

Lemma insert_sorted_returns (x : value) (l : list value) :
  readable x -> Forall readable l ->
  exists s, insert_sorted x l = Return s.
Proof.
  intros Hx. induction 1 as [|y l Hy _ IH]; cbn [LocalConversations.insert_sorted].
  - by eexists.
  - rewrite newest_first_readable by done. cbn [Js.bind].
    destruct (_ <=? 0)%Z; [by eexists|].
    destruct IH as [r ->]. by eexists.
Qed.

Lemma sort_returns (l : list value) :
  Forall readable l -> exists s, sort l = Return s.
Proof.
  induction 1 as [|x l Hx Hl IH]; cbn [LocalConversations.sort]; [by eexists|].
  destruct IH as [r Hr]. rewrite Hr. cbn [Js.bind].
  apply insert_sorted_returns; [done|].
  by rewrite (sort_permutes _ _ Hr).
Qed.

Lemma insert_sorted_throws (x y : value) (l : list value) :
  ~ readable x \/ ~ readable y -> insert_sorted x (y :: l) = Throw TypeError.
Proof.
  intros H. cbn [LocalConversations.insert_sorted].
  by rewrite newest_first_unreadable.
Qed.

(** The sort of an array of two or more reads every element. *)
Lemma sort_throws (l : list value) :
  ~ Forall readable l -> (2 <= length l)%nat -> sort l = Throw TypeError.
Proof.
  induction l as [|x l IH]; [simpl; lia|]. intros Hn Hlen.
  cbn [LocalConversations.sort].
  destruct (all_readable_dec l) as [Hl|Hl].
  - assert (Hx : ~ readable x) by (intros Hx; apply Hn; by constructor).
    destruct (sort_returns l Hl) as [s Hs]. rewrite Hs. cbn [Js.bind].
    pose proof (sort_permutes _ _ Hs) as Hp.
    destruct s as [|y s].
    { apply Permutation_nil_l in Hp. subst l. simpl in Hlen. lia. }
    apply insert_sorted_throws. by left.
  - destruct l as [|y [|z l]].
    + by destruct Hl.
    + cbn [LocalConversations.sort LocalConversations.insert_sorted Js.bind].
      rewrite newest_first_unreadable; [done|]. right. intros Hy. apply Hl.
      by repeat constructor.
    + rewrite IH; [done|done|simpl; lia].
Qed.

Section Consistent.

(** The comparator is consistent, as [Array.prototype.sort] asks. *)
Hypothesis localeCompare_total :
  forall x y : string, (0 < localeCompare x y)%Z -> (localeCompare y x <= 0)%Z.
Hypothesis localeCompare_trans :
  forall x y z : string,
    (localeCompare x y <= 0)%Z -> (localeCompare y z <= 0)%Z ->
    (localeCompare x z <= 0)%Z.

Lemma insert_sorted_keeps_order (x : value) (l s : list value) :
  readable x -> Forall readable l ->
  StronglySorted not_older l ->
  insert_sorted x l = Return s ->
  StronglySorted not_older s.
Proof.
  intros Hx Hl Hs. revert s.
  induction Hs as [|y l Hs IH Hy]; intros s; cbn [LocalConversations.insert_sorted].
  - intros [= <-]. repeat constructor.
  - apply Forall_cons in Hl as [Hry Hl].
    rewrite newest_first_readable by done. cbn [Js.bind].
    destruct (Z.leb_spec (localeCompare (key y) (key x)) 0) as [Hxy|Hxy].
    + intros [= <-]. constructor; [by constructor|]. constructor; [done|].
      eapply Forall_impl; [exact Hy|]. intros z Hyz.
      unfold LocalConversations.not_older in *.
      eapply localeCompare_trans; eassumption.
    + destruct (insert_sorted x l) as [r|] eqn:E; cbn [Js.bind]; [|done].
      intros [= <-]. constructor; [by apply IH|].
      rewrite (insert_sorted_permutes _ _ _ E). constructor; [|done].
      unfold LocalConversations.not_older. by apply localeCompare_total.
Qed.

Lemma sort_orders (l s : list value) :
  Forall readable l -> sort l = Return s -> StronglySorted not_older s.
Proof.
  intros Hl. revert s.
  induction Hl as [|x l Hx Hl IH]; intros s; cbn [LocalConversations.sort].
  - intros [= <-]. constructor.
  - destruct (sort l) as [r|] eqn:E; cbn [Js.bind]; [|done].
    apply insert_sorted_keeps_order; [done| |by apply IH].
    by rewrite (sort_permutes _ _ E).
Qed.

End Consistent.

(** Sorting an index that is sorted changes nothing. *)
Lemma sort_of_sorted (l : list value) :
  Forall readable l -> StronglySorted not_older l -> sort l = Return l.
Proof.
  intros Hl Hs. induction Hs as [|x l Hs IH Hx]; cbn [LocalConversations.sort]; [done|].
  apply Forall_cons in Hl as [Hrx Hl]. rewrite IH by done. cbn [Js.bind].
  destruct Hx as [|y l Hxy _]; cbn [LocalConversations.insert_sorted]; [done|].
  apply Forall_cons in Hl as [Hry _].
  rewrite newest_first_readable by done. cbn [Js.bind].
  unfold LocalConversations.not_older in Hxy.
  by destruct (Z.leb_spec (localeCompare (key y) (key x)) 0); [|lia].
Qed.

End Sorting.

(** ** The keys of the store *)

Lemma getIndex_after_record (i : string) (t : text) (ls : Storage) :
  getIndex (<[convKey i := t]> ls) = getIndex ls.
Proof.
  unfold getIndex. by rewrite lookup_insert_ne by apply StoreFacts.convKey_not_index.
Qed.

Lemma getIndex_delete_conv (i : string) (ls : Storage) :
  getIndex (delete (convKey i) ls) = getIndex ls.
Proof.
  unfold getIndex. by rewrite lookup_delete_ne by apply StoreFacts.convKey_not_index.
Qed.

Lemma getIndex_after_setIndex (index : list value) (ls : Storage) :
  getIndex (setIndex index ls) = index.
Proof. unfold getIndex, setIndex. by rewrite lookup_insert_eq. Qed.

Lemma get_after_setIndex (j : string) (index : list value) (ls : Storage) :
  get j (setIndex index ls) = get j ls.
Proof.
  unfold get, setIndex.
  by rewrite lookup_insert_ne by (symmetry; apply StoreFacts.convKey_not_index).
Qed.

Lemma get_other_record (i j : string) (t : text) (ls : Storage) :
  i ≠ j -> get j (<[convKey i := t]> ls) = get j ls.
Proof.
  intros Hij. unfold get. rewrite lookup_insert_ne; [done|].
  intros H. apply Hij. by apply StoreProps.convKey_inj.
Qed.

Lemma get_insert_record (i : string) (c : Conversation) (ls : Storage) :
  get i (<[convKey i := JSON_stringify (JObject c)]> ls) = Some (JObject c).
Proof. unfold get. by rewrite lookup_insert_eq. Qed.

Lemma get_delete_conv (i j : string) (ls : Storage) :
  i ≠ j -> get j (delete (convKey i) ls) = get j ls.
Proof.
  intros Hij. unfold get. rewrite lookup_delete_ne; [done|].
  intros H. apply Hij. by apply StoreProps.convKey_inj.
Qed.

(** ** The ids of an index *)

Lemma elem_of_ids (i : string) (l : list value) :
  i ∈ ids l <-> exists c, c ∈ l /\ id_is i c.
Proof.
  unfold ids. rewrite list_elem_of_omap. split.
  - intros (c & Hc & H). exists c. split; [done|]. unfold id_is.
    destruct (get_opt c "id"); try discriminate. injection H as ->.
    cbn. apply String.eqb_refl.
  - intros (c & Hc & H). exists c. split; [done|]. unfold id_is in H.
    destruct (get_opt c "id"); try discriminate. cbn in H.
    apply String.eqb_eq in H. by subst.
Qed.

Lemma ids_cons_id (i : string) (c : value) (l : list value) :
  id_is i c -> ids (c :: l) = i :: ids l.
Proof.
  intros H. unfold ids, id_is in *. cbn [omap list_omap].
  destruct (get_opt c "id"); try discriminate. cbn in H.
  apply String.eqb_eq in H. by subst.
Qed.

Lemma ids_app (l1 l2 : list value) : ids (l1 ++ l2) = ids l1 ++ ids l2.
Proof. unfold ids. apply omap_app. Qed.

Lemma id_listed_once (i : string) (l : list value) (x y : value) :
  NoDup (ids l) -> x ∈ l -> y ∈ l -> id_is i x -> id_is i y -> x = y.
Proof.
  induction l as [|c l IH]; [by intros _ ?%elem_of_nil|].
  intros Hnd [->|Hx]%elem_of_cons [->|Hy]%elem_of_cons Hix Hiy.
  - done.
  - rewrite (ids_cons_id i) in Hnd by done. apply NoDup_cons in Hnd as [Hn _].
    destruct Hn. apply elem_of_ids. by exists y.
  - rewrite (ids_cons_id i) in Hnd by done. apply NoDup_cons in Hnd as [Hn _].
    destruct Hn. apply elem_of_ids. by exists x.
  - apply IH; try done. unfold ids in *. cbn [omap list_omap] in Hnd.
    destruct (match get_opt c "id" with VStr s => Some s | _ => None end);
      [by apply NoDup_cons in Hnd as [_ ?]|done].
Qed.

Lemma upserted_elem (i : string) (entry : value) (index result : list value) :
  upserted i entry index result -> entry ∈ result.
Proof.
  intros [[_ ->]|(before & c & after & _ & _ & _ & ->)].
  - left.
  - apply elem_of_app. right. left.
Qed.

Lemma upserted_readable (i : string) (entry : value) (index result : list value) :
  upserted i entry index result ->
  readable entry -> Forall readable index -> Forall readable result.
Proof.
  intros [[_ ->]|(before & c & after & -> & _ & _ & ->)] He Hl.
  - by constructor.
  - apply Forall_app in Hl as [Hb Ha]. apply Forall_cons in Ha as [_ Ha].
    apply Forall_app. split; [done|by constructor].
Qed.

Lemma upserted_ids (i : string) (entry : value) (index result : list value) :
  upserted i entry index result -> id_is i entry ->
  NoDup (ids index) -> NoDup (ids result).
Proof.
  intros [[Hnone ->]|(before & c & after & -> & Hid & _ & ->)] He Hnd.
  - rewrite (ids_cons_id i) by done. constructor; [|done].
    intros (c & Hc & H)%elem_of_ids. rewrite Forall_forall in Hnone.
    by apply (Hnone c Hc).
  - rewrite ids_app, (ids_cons_id i) in * by done. done.
Qed.

Lemma upserted_present (i : string) (entry : value) (index result : list value) :
  upserted i entry index result ->
  NoDup (ids index) -> entry ∈ index -> id_is i entry -> result = index.
Proof.
  intros [[Hnone ->]|(before & c & after & -> & Hid & _ & ->)] Hnd Hin He.
  - rewrite Forall_forall in Hnone. by destruct (Hnone entry Hin).
  - assert (c = entry) as ->; [|done].
    apply (id_listed_once i _ _ _ Hnd); [|done|done|done].
    apply elem_of_app. right. left.
Qed.

(** ** The index *)

Section Store.

Variable localeCompare : string -> string -> Z.
Variable ToString : value -> string.

Local Abbreviation not_older := (LocalConversations.not_older localeCompare ToString).
Local Abbreviation sort := (LocalConversations.sort localeCompare ToString).
Local Abbreviation upsertIndexItem :=
  (LocalConversations.upsertIndexItem localeCompare ToString).
Local Abbreviation save := (LocalConversations.save localeCompare ToString).
Local Abbreviation create := (LocalConversations.create localeCompare ToString).
Local Abbreviation updateTitle := (LocalConversations.updateTitle localeCompare ToString).

(** On an index whose elements can be read, [upsertIndexItem] returns. *)
Lemma upsertIndexItem_readable (item : Entry) (ls : Storage) :
  Forall readable (getIndex ls) ->
  exists index unsorted : list value,
    upsertIndexItem item ls = (Return index, setIndex index ls)
    /\ upserted (e_id item) (nextItem item) (getIndex ls) unsorted
    /\ Forall readable unsorted
    /\ sort unsorted = Return index.
Proof.
  intros Hl. unfold LocalConversations.upsertIndexItem.
  pose proof (findIndex_spec (e_id item) (getIndex ls)) as Hf.
  destruct (findIndex (e_id item) (getIndex ls)) as [[k|]|e]; cbn [Js.bind].
  - destruct Hf as (before & c & after & Heq & Hlen & Hid & _ & _ & Hn).
    assert (Hup : upserted (e_id item) (nextItem item) (getIndex ls)
                    (<[k := nextItem item]> (getIndex ls))).
    { right. exists before, c, after. split_and!; try done.
      rewrite Heq, insert_app_r_alt by lia. by rewrite Hlen, Nat.sub_diag. }
    pose proof (upserted_readable _ _ _ _ Hup (readable_nextItem item) Hl) as Hr.
    destruct (sort_returns localeCompare ToString _ Hr) as [index Hs].
    rewrite Hs. by exists index, (<[k := nextItem item]> (getIndex ls)).
  - destruct Hf as [_ Hn].
    assert (Hup : upserted (e_id item) (nextItem item) (getIndex ls)
                    (nextItem item :: getIndex ls)) by (by left).
    pose proof (upserted_readable _ _ _ _ Hup (readable_nextItem item) Hl) as Hr.
    destruct (sort_returns localeCompare ToString _ Hr) as [index Hs].
    rewrite Hs. by exists index, (nextItem item :: getIndex ls).
  - by destruct Hf as [_ Hn].
Qed.

(** On an index with an element that cannot be read it throws, and the
    index stays. *)
Lemma upsertIndexItem_unreadable (item : Entry) (ls : Storage) :
  ~ Forall readable (getIndex ls) ->
  upsertIndexItem item ls = (Throw TypeError, ls).
Proof.
  intros Hl. unfold LocalConversations.upsertIndexItem.
  pose proof (findIndex_spec (e_id item) (getIndex ls)) as Hf.
  destruct (findIndex (e_id item) (getIndex ls)) as [[k|]|e]; cbn [Js.bind].
  - destruct Hf as (before & c & after & Heq & Hlen & Hid & Hc & Hb & Hn).
    rewrite Heq, insert_app_r_alt by lia. rewrite Hlen, Nat.sub_diag.
    change (<[0%nat := nextItem item]> (c :: after)) with (nextItem item :: after).
    assert (Ha : ~ Forall readable after).
    { intros Ha. apply Hl. rewrite Heq. apply Forall_app. split; [done|].
      by constructor. }
    rewrite sort_throws; [done| |].
    + intros H. apply Ha. apply Forall_app in H as [_ H].
      by apply Forall_cons in H as [_ H].
    + rewrite length_app. cbn [length]. destruct after; [by destruct Ha|].
      simpl. lia.
  - by destruct Hf as [Hr _].
  - by destruct Hf as [-> _].
Qed.

Lemma nextItem_entry_of (now i : string) (c : Conversation) :
  nextItem {| e_id := i;
              e_created_at := or_else (created_at c) now;
              e_title := or_else (title c) "New Conversation";
              e_message_count := match messages c with
                                 | Some ms => length ms
                                 | None => 0%nat
                                 end |}
  = entry_value (Store.entry_of now i c).
Proof.
  unfold nextItem, entry_value, Store.entry_of.
  cbn [e_id e_created_at e_title e_message_count].
  rewrite StoreFacts.or_else_twice by done. by destruct (messages c).
Qed.

(** [save] with an id: the record is written, then the index is
    upserted. *)
Lemma save_with_id (now i : string) (c : Conversation) (ls : Storage) :
  id c = Some i -> i ≠ "" ->
  save now (Some c) ls
  = upsertIndexItem
      {| e_id := i;
         e_created_at := or_else (created_at c) now;
         e_title := or_else (title c) "New Conversation";
         e_message_count := match messages c with
                            | Some ms => length ms
                            | None => 0%nat
                            end |}
      (<[convKey i := JSON_stringify (JObject c)]> ls).
Proof.
  intros Hid Hi. unfold LocalConversations.save. rewrite Hid.
  by destruct (String.eqb_spec i "").
Qed.

Lemma save_without_id (now : string) (c : Conversation) (ls : Storage) :
  nonempty (id c) = false ->
  save now (Some c) ls = (Throw (Error "Conversation missing id"), ls).
Proof.
  unfold LocalConversations.save, nonempty. destruct (id c) as [i|]; [|done].
  by destruct (String.eqb i "").
Qed.

Lemma save_unreadable (now i : string) (c : Conversation) (ls : Storage) :
  id c = Some i -> i ≠ "" ->
  ~ Forall readable (list_ ls) ->
  save now (Some c) ls
  = (Throw TypeError, <[convKey i := JSON_stringify (JObject c)]> ls).
Proof.
  intros Hid Hi Hl. rewrite (save_with_id _ _ _ _ Hid Hi).
  apply upsertIndexItem_unreadable. by rewrite getIndex_after_record.
Qed.

Lemma save_readable (now i : string) (c : Conversation) (ls : Storage) :
  id c = Some i -> i ≠ "" ->
  Forall readable (list_ ls) ->
  exists index unsorted : list value,
    save now (Some c) ls
    = (Return index,
       setIndex index (<[convKey i := JSON_stringify (JObject c)]> ls))
    /\ upserted i (entry_value (Store.entry_of now i c)) (list_ ls) unsorted
    /\ Forall readable unsorted
    /\ sort unsorted = Return index.
Proof.
  intros Hid Hi Hl. rewrite (save_with_id _ _ _ _ Hid Hi).
  destruct (upsertIndexItem_readable
              {| e_id := i;
                 e_created_at := or_else (created_at c) now;
                 e_title := or_else (title c) "New Conversation";
                 e_message_count := match messages c with
                                    | Some ms => length ms
                                    | None => 0%nat
                                    end |}
              (<[convKey i := JSON_stringify (JObject c)]> ls))
    as (index & unsorted & E & Hup & Hr & Hs).
  { by rewrite getIndex_after_record. }
  rewrite nextItem_entry_of, getIndex_after_record in Hup. cbn [e_id] in Hup.
  by exists index, unsorted.
Qed.

Section Consistent.

(** The comparator is consistent, as [Array.prototype.sort] asks. *)
Hypothesis localeCompare_total :
  forall x y : string, (0 < localeCompare x y)%Z -> (localeCompare y x <= 0)%Z.
Hypothesis localeCompare_trans :
  forall x y z : string,
    (localeCompare x y <= 0)%Z -> (localeCompare y z <= 0)%Z ->
    (localeCompare x z <= 0)%Z.


End Consistent.

End Store.

(** ** Records and the index *)

Section Records.

Variable localeCompare : string -> string -> Z.
Variable ToString : value -> string.

Local Abbreviation not_older := (LocalConversations.not_older localeCompare ToString).
Local Abbreviation sort := (LocalConversations.sort localeCompare ToString).
Local Abbreviation save := (LocalConversations.save localeCompare ToString).
Local Abbreviation create := (LocalConversations.create localeCompare ToString).
Local Abbreviation updateTitle := (LocalConversations.updateTitle localeCompare ToString).

Lemma id_is_entry_of (now i : string) (c : Conversation) :
  id_is i (entry_value (Store.entry_of now i c)).
Proof. unfold id_is. cbn. apply String.eqb_refl. Qed.



(** X14: [remove] deletes the record and keeps the other records as they
    were, whether or not the stored index can be read. When every
    element of the stored index can be read it returns and stores the
    index without the elements with that id, the others in their order,
    and does nothing the second time; when one cannot, it throws a
    [TypeError] after the record is removed and the index stays as it
    was. *)
Theorem remove_spec (i : string) (ls : Storage) :
  get i (snd (remove i ls)) = None
  /\ (forall j : string, j ≠ i -> get j (snd (remove i ls)) = get j ls)
  /\ (~ Forall readable (list_ ls) ->
      remove i ls = (Throw TypeError, delete (convKey i) ls))
  /\ (Forall readable (list_ ls) ->
      fst (remove i ls) = Return (filter (fun c => ~ id_is i c) (list_ ls))
      /\ list_ (snd (remove i ls)) = filter (fun c => ~ id_is i c) (list_ ls)
      /\ (StronglySorted not_older (list_ ls) ->
          StronglySorted not_older (list_ (snd (remove i ls))))
      /\ remove i (snd (remove i ls)) = remove i ls).
Proof.
  unfold remove. rewrite getIndex_delete_conv.
  pose proof (filter_out_spec i (getIndex ls)) as Hf.
  destruct (filter_out i (getIndex ls)) as [kept|e] eqn:E; cbn [fst snd].
  - destruct Hf as [Hl ->]. split_and!.
    + rewrite get_after_setIndex. unfold get. by rewrite lookup_delete_eq.
    + intros j Hj. rewrite get_after_setIndex. by apply get_delete_conv.
    + done.
    + intros _.
      assert (Hd : delete (convKey i)
                     (setIndex (filter (fun c => ~ id_is i c) (getIndex ls))
                        (delete (convKey i) ls))
                   = setIndex (filter (fun c => ~ id_is i c) (getIndex ls))
                       (delete (convKey i) ls)).
      { apply delete_id. unfold setIndex.
        rewrite lookup_insert_ne by (symmetry; apply StoreFacts.convKey_not_index).
        apply lookup_delete_eq. }
      split_and!.
      * done.
      * apply getIndex_after_setIndex.
      * rewrite getIndex_after_setIndex. apply StoreProps.StronglySorted_filter_id.
      * rewrite Hd, getIndex_after_setIndex.
        pose proof (filter_out_spec i (filter (fun c => ~ id_is i c) (getIndex ls)))
          as Hf2.
        destruct (filter_out i (filter (fun c => ~ id_is i c) (getIndex ls)))
          as [kept2|e2].
        -- destruct Hf2 as [_ ->]. rewrite list_filter_filter.
           assert (Hff : filter (fun c => ~ id_is i c /\ ~ id_is i c) (getIndex ls)
                         = filter (fun c => ~ id_is i c) (getIndex ls)).
           { apply list_filter_iff. tauto. }
           rewrite Hff. f_equal. unfold setIndex. apply insert_insert_eq.
        -- destruct Hf2 as [_ Hn]. destruct Hn.
           rewrite Forall_forall in *. intros c [_ Hc]%list_elem_of_filter. auto.
  - destruct Hf as [-> Hn]. split_and!.
    + unfold get. by rewrite lookup_delete_eq.
    + intros j Hj. by apply get_delete_conv.
    + done.
    + done.
Qed.


Section Consistent.

Hypothesis localeCompare_total :
  forall x y : string, (0 < localeCompare x y)%Z -> (localeCompare y x <= 0)%Z.
Hypothesis localeCompare_trans :
  forall x y z : string,
    (localeCompare x y <= 0)%Z -> (localeCompare y z <= 0)%Z ->
    (localeCompare x z <= 0)%Z.



End Consistent.

End Records.





(** ** [save], on examples *)



(** ** The store of a session *)

(** On a store whose arrays hold index entries, which is every store
    that the code itself has written, the functions of this module do
    what those of [Store] do: none of them throws on an element. *)

Section Embedded.

Variable localeCompare : string -> string -> Z.
Variable ToString : value -> string.

Local Abbreviation insert_sorted := (LocalConversations.insert_sorted localeCompare ToString).
Local Abbreviation sort := (LocalConversations.sort localeCompare ToString).
Local Abbreviation upsertIndexItem :=
  (LocalConversations.upsertIndexItem localeCompare ToString).
Local Abbreviation save := (LocalConversations.save localeCompare ToString).
Local Abbreviation create := (LocalConversations.create localeCompare ToString).

Lemma readable_entries (l : list Entry) : Forall readable (entry_value <$> l).
Proof. apply Forall_fmap, Forall_forall. intros e _. apply readable_entry_value. Qed.

Lemma getIndex_embed (ls : Store.Storage) :
  getIndex (embed ls) = entry_value <$> Store.getIndex ls.
Proof.
  unfold getIndex, Store.getIndex, embed. rewrite lookup_fmap.
  destruct (ls !! INDEX_KEY) as [[[| |entries|c]|s]|]; cbn; try done.
  by destruct (String.eqb s "").
Qed.

Lemma get_embed (i : string) (ls : Store.Storage) :
  get i (embed ls) = embed_json <$> Store.get i ls.
Proof.
  unfold get, Store.get, embed. rewrite lookup_fmap.
  destruct (ls !! convKey i) as [[[| |entries|c]|s]|]; cbn; try done.
  by destruct (String.eqb s "").
Qed.

Lemma setIndex_embed (index : list Entry) (ls : Store.Storage) :
  embed (Store.setIndex index ls) = setIndex (entry_value <$> index) (embed ls).
Proof. unfold embed, Store.setIndex, setIndex. by rewrite fmap_insert. Qed.

Lemma record_embed (k : string) (c : Conversation) (ls : Store.Storage) :
  embed (<[k := Store.JSON_stringify (Store.JObject c)]> ls)
  = <[k := JSON_stringify (JObject c)]> (embed ls).
Proof. unfold embed. by rewrite fmap_insert. Qed.

Lemma findIndex_entries (i : string) (l : list Entry) :
  findIndex i (entry_value <$> l) = Return (Store.findIndex i l).
Proof.
  induction l as [|e l IH]; [done|].
  cbn [fmap list_fmap findIndex Store.findIndex].
  change (has_id i (entry_value e)) with (Return (String.eqb (e_id e) i) : outcome bool).
  cbn [Js.bind]. destruct (String.eqb (e_id e) i); [done|].
  change (findIndex i (list_fmap Entry value entry_value l))
    with (findIndex i (entry_value <$> l)).
  by rewrite IH.
Qed.

Lemma insert_sorted_entries (x : Entry) (l : list Entry) :
  insert_sorted (entry_value x) (entry_value <$> l)
  = Return (entry_value <$> Store.insert_sorted localeCompare x l).
Proof.
  induction l as [|y l IH]; [done|].
  cbn [fmap list_fmap LocalConversations.insert_sorted Store.insert_sorted].
  change (LocalConversations.newest_first localeCompare ToString
            (entry_value x) (entry_value y))
    with (Return (Store.newest_first localeCompare x y) : outcome Z).
  cbn [Js.bind]. destruct (Store.newest_first localeCompare x y <=? 0)%Z; [done|].
  change (list_fmap Entry value entry_value l) with (entry_value <$> l).
  by rewrite IH.
Qed.

Lemma sort_entries (l : list Entry) :
  sort (entry_value <$> l) = Return (entry_value <$> Store.sort localeCompare l).
Proof.
  induction l as [|x l IH]; [done|].
  cbn [fmap list_fmap LocalConversations.sort].
  change (list_fmap Entry value entry_value l) with (entry_value <$> l).
  rewrite IH. cbn [Js.bind]. apply insert_sorted_entries.
Qed.

Lemma upsertIndexItem_embed (item : Entry) (ls : Store.Storage) :
  upsertIndexItem item (embed ls)
  = (Return (entry_value <$> fst (Store.upsertIndexItem localeCompare item ls)),
     embed (snd (Store.upsertIndexItem localeCompare item ls))).
Proof.
  unfold LocalConversations.upsertIndexItem, Store.upsertIndexItem, Store.upsert.
  cbn [fst snd e_id]. rewrite getIndex_embed, findIndex_entries. cbn [Js.bind].
  set (next := {| e_id := e_id item; e_created_at := e_created_at item;
                  e_title := or_else (Some (e_title item)) "New Conversation";
                  e_message_count := e_message_count item |}).
  change (nextItem item) with (entry_value next).
  destruct (Store.findIndex (e_id item) (Store.getIndex ls)) as [k|].
  - rewrite <- list_fmap_insert, sort_entries. by rewrite setIndex_embed.
  - change (entry_value next :: (entry_value <$> Store.getIndex ls))
      with (entry_value <$> (next :: Store.getIndex ls)).
    rewrite sort_entries. by rewrite setIndex_embed.
Qed.

(** [save] on a session's store: the outcome of [Store.save], and the
    store it leaves. *)
Lemma save_embed (now : string) (conversation : option Conversation)
  (ls : Store.Storage) :
  save now conversation (embed ls)
  = match Store.save localeCompare now conversation ls with
    | Return (index, ls') => (Return (entry_value <$> index), embed ls')
    | Throw e => (Throw e, embed ls)
    end.
Proof.
  unfold LocalConversations.save, Store.save.
  destruct conversation as [c|]; [|done]. destruct (id c) as [i|]; [|done].
  destruct (String.eqb i ""); [done|].
  rewrite <- record_embed, upsertIndexItem_embed.
  by destruct (Store.upsertIndexItem _ _ _).
Qed.

(** [create] on a session's store. *)
Lemma create_embed (fresh now : string) (ls : Store.Storage) :
  create fresh now (embed ls)
  = (let '(conversation, index, ls') := Store.create localeCompare fresh now ls in
     (Return (conversation, entry_value <$> index), embed ls')).
Proof.
  unfold LocalConversations.create, Store.create.
  rewrite <- record_embed, upsertIndexItem_embed.
  by destruct (Store.upsertIndexItem _ _ _).
Qed.

End Embedded.

End LocalConversationsFacts.

(* ===================================================================== *)
(** * The streaming reader: further properties *)
(* ===================================================================== *)

Module SseProps.

Import Js Data Sse SseFacts.

Local Open Scope list_scope.

Lemma split_lines_cons (s : string) :
  exists line lines, split_lines s = line :: lines.
Proof.
  induction s as [|c s IH]; cbn [split_lines]; [by eauto|].
  destruct (Ascii.eqb c newline); [by eauto|].
  destruct IH as (line & lines & ->). by eauto.
Qed.

Lemma append_nil_l (s : string) : ("" ++ s)%string = s.
Proof. reflexivity. Qed.

Lemma append_cons (c : ascii) (a b : string) :
  (String c a ++ b)%string = String c (a ++ b)%string.
Proof. reflexivity. Qed.

(** A line feed separates the lines before it from the lines after it. *)
Lemma split_lines_app (a b : string) :
  split_lines (a ++ String newline b)%string = split_lines a ++ split_lines b.
Proof.
  induction a as [|c a IH]; rewrite ?append_nil_l, ?append_cons; cbn [split_lines].
  - by rewrite Ascii.eqb_refl.
  - destruct (Ascii.eqb c newline); [by rewrite IH|].
    rewrite IH. by destruct (split_lines_cons a) as (line & lines & ->).
Qed.

Lemma split_lines_one_line (s : string) :
  one_line s = true -> split_lines s = [s].
Proof.
  induction s as [|c s IH]; cbn [one_line split_lines]; [done|].
  destruct (Ascii.eqb c newline); [done|]. cbn [negb andb]. intros H.
  by rewrite IH.
Qed.

Lemma append_assoc (a b c : string) :
  ((a ++ b) ++ c = a ++ (b ++ c))%string.
Proof.
  induction a as [|x a IH]; rewrite ?append_nil_l, ?append_cons; [done|by rewrite IH].
Qed.

Lemma prefix_data (payload : string) :
  String.prefix "data: " ("data: " ++ payload)%string = true.
Proof. by destruct payload. Qed.

Section Reader.

Variable JSON_parse : string -> outcome value.
Context {S : Type}.
Variable onEvent : value -> value -> S -> outcome S.

Local Abbreviation on_line := (Sse.on_line JSON_parse onEvent).
Local Abbreviation on_chunk := (Sse.on_chunk JSON_parse onEvent).
Local Abbreviation sendMessageStream := (Sse.sendMessageStream JSON_parse onEvent).

Lemma on_chunk_empty (st : S * list string) : on_chunk "" st = st.
Proof. reflexivity. Qed.

Lemma on_chunk_app (chunk rest : string) (st : S * list string) :
  ends_line chunk ->
  on_chunk (chunk ++ rest)%string st = on_chunk rest (on_chunk chunk st).
Proof.
  intros [body ->]. unfold Sse.on_chunk.
  rewrite append_assoc, append_cons, append_nil_l.
  rewrite !split_lines_app, !foldl_app. reflexivity.
Qed.

Lemma on_chunks_joined (chunks : list string) (st : S * list string) :
  Forall ends_line chunks ->
  foldl (fun st chunk => on_chunk chunk st) st chunks = on_chunk (joined chunks) st.
Proof.
  intros H. revert st. induction H as [|chunk chunks Hc _ IH]; intros st.
  - reflexivity.
  - cbn [foldl joined foldr]. rewrite IH. symmetry. by apply on_chunk_app.
Qed.

(** X17: however the transport cuts the stream, as long as it cuts it at line
    ends: the reader delivers the same events, logs the same failures
    and ends the same way as on the whole text in one chunk. *)
Theorem chunking_at_line_ends (chunks : list string) (rejects : bool) (s : S) :
  Forall ends_line chunks ->
  sendMessageStream (Body chunks rejects) s
  = sendMessageStream (Body [joined chunks] rejects) s.
Proof.
  intros H. cbn [Sse.sendMessageStream foldl]. by rewrite on_chunks_joined.
Qed.

(** X18: a line that a chunk boundary cuts is not put together again: when
    the head of the payload does not parse on its own, the event is
    logged as a failure and never reaches the callback, although the
    same line in one chunk is delivered. *)
Theorem cut_line_is_lost (head tail : string) (rejects : bool) (s s' : S)
  (event eventType : value) (e : exn) :
  one_line head = true ->
  one_line tail = true ->
  String.prefix "data: " tail = false ->
  JSON_parse head = Throw e ->
  JSON_parse (head ++ tail)%string = Return event ->
  Data.get event "type" = Return eventType ->
  onEvent eventType event s = Return s' ->
  sendMessageStream (Body [("data: " ++ head ++ tail)%string] rejects) s
  = (s', [], if rejects then Throw TypeError else Return tt)
  /\ sendMessageStream (Body [("data: " ++ head)%string; tail] rejects) s
     = (s, ["Failed to parse SSE event:"], if rejects then Throw TypeError else Return tt).
Proof.
  intros Hh Ht Hp He Hev Hty Hon.
  assert (Hone : forall p, one_line p = true -> one_line ("data: " ++ p)%string = true).
  { intros p Hp'. transitivity (one_line p); [reflexivity|exact Hp']. }
  assert (Hboth : one_line (head ++ tail)%string = true).
  { clear -Hh Ht.
    induction head as [|c h IH]; rewrite ?append_nil_l, ?append_cons;
      cbn [one_line]; [done|].
    cbn [one_line] in Hh. apply andb_prop in Hh as [-> Hh]. cbn [andb]. by apply IH. }
  cbn [Sse.sendMessageStream foldl]. unfold Sse.on_chunk.
  rewrite (split_lines_one_line _ (Hone _ Hboth)).
  rewrite (split_lines_one_line _ (Hone _ Hh)).
  rewrite (split_lines_one_line _ Ht).
  cbn [foldl]. split.
  - unfold Sse.on_line at 1. rewrite prefix_data.
    change (slice_from 6 ("data: " ++ head ++ tail)%string) with (head ++ tail)%string.
    cbn iota. rewrite Hev. cbn [Js.bind]. rewrite Hty. cbn [Js.bind fst snd].
    by rewrite Hon.
  - unfold Sse.on_line at 1. rewrite Hp.
    unfold Sse.on_line. rewrite prefix_data.
    change (slice_from 6 ("data: " ++ head)%string) with head.
    cbn iota. rewrite He. reflexivity.
Qed.

End Reader.

Lemma chunking_at_line_ends_witness :
  Sse.sendMessageStream App.parse_scenario
    (fun _ event seen => Return (seen ++ [event]))
    (Body App.scenario_chunks false) []
  = Sse.sendMessageStream App.parse_scenario
      (fun _ event seen => Return (seen ++ [event]))
      (Body [joined App.scenario_chunks] false) [].
Proof.
  apply (chunking_at_line_ends App.parse_scenario
           (fun _ event seen => Return (seen ++ [event]))
           App.scenario_chunks false []).
  repeat apply Forall_cons_2; [| |apply Forall_nil_2].
  - exists ("data: " ++ App.text_stage1_complete ++ String newline "")%string.
    reflexivity.
  - exists ("data: " ++ App.text_error ++ String newline "")%string.
    reflexivity.
Defined.

Lemma cut_line_is_lost_witness :
  Sse.sendMessageStream App.parse_scenario
    (fun _ event seen => Return (seen ++ [event]))
    (Body [("data: " ++ "{"
            ++ App.quoted "type" ++ ":" ++ App.quoted "error" ++ ","
            ++ App.quoted "message" ++ ":" ++ App.quoted "model unavailable"
            ++ "}")%string] false) []
  = ([App.error_event], [], Return tt)
  /\ Sse.sendMessageStream App.parse_scenario
       (fun _ event seen => Return (seen ++ [event]))
       (Body [("data: " ++ "{")%string;
              (App.quoted "type" ++ ":" ++ App.quoted "error" ++ ","
               ++ App.quoted "message" ++ ":" ++ App.quoted "model unavailable"
               ++ "}")%string] false) []
     = ([], ["Failed to parse SSE event:"], Return tt).
Proof.
  apply (cut_line_is_lost App.parse_scenario
           (fun _ event seen => Return (seen ++ [event]))
           "{"
           (App.quoted "type" ++ ":" ++ App.quoted "error" ++ ","
            ++ App.quoted "message" ++ ":" ++ App.quoted "model unavailable"
            ++ "}")%string
           false [] [App.error_event] App.error_event (VStr "error")
           (Error "SyntaxError"));
    reflexivity.
Defined.

(** ** Lines and payloads *)

Lemma prefix_slice (p t : string) :
  String.prefix p t = true -> t = (p ++ slice_from (String.length p) t)%string.
Proof.
  revert t. induction p as [|c p IH]; intros t.
  - intros _. by destruct t.
  - destruct t as [|b t]; cbn [String.prefix]; [discriminate|].
    destruct (ascii_dec c b) as [->|_]; [|discriminate].
    intros H. rewrite append_cons. cbn [String.length slice_from].
    f_equal. by apply IH.
Qed.

Lemma unlines_cons (l l2 : string) (ls : list string) :
  unlines (l :: l2 :: ls) = (l ++ String newline (unlines (l2 :: ls)))%string.
Proof. reflexivity. Qed.

Lemma split_lines_unlines (lines : list string) :
  lines ≠ [] -> Forall (fun l => one_line l = true) lines ->
  split_lines (unlines lines) = lines.
Proof.
  induction lines as [|l lines IH]; [done|]. intros _ H.
  apply Forall_cons in H as [Hl H].
  destruct lines as [|l2 lines].
  - by apply split_lines_one_line.
  - rewrite unlines_cons, split_lines_app, split_lines_one_line by done.
    cbn [app]. f_equal. by apply IH.
Qed.

Lemma unlines_split_lines (s : string) :
  unlines (split_lines s) = s
  /\ Forall (fun l => one_line l = true) (split_lines s).
Proof.
  induction s as [|c s [IH1 IH2]]; cbn [split_lines].
  - split; [done|by repeat constructor].
  - destruct (Ascii.eqb c newline) eqn:E.
    + apply Ascii.eqb_eq in E. subst c. split.
      * destruct (split_lines_cons s) as (l & ls & Hs). rewrite Hs in *.
        by rewrite unlines_cons, append_nil_l, IH1.
      * by constructor.
    + destruct (split_lines_cons s) as (l & ls & Hs). rewrite Hs in *.
      apply Forall_cons in IH2 as [Hl Hls]. split.
      * destruct ls as [|l2 ls].
        -- cbn [unlines] in *. by rewrite IH1.
        -- rewrite unlines_cons in *. by rewrite append_cons, IH1.
      * constructor; [|done]. cbn [one_line]. by rewrite E, Hl.
Qed.

(** Every chunk is the chunk of its lines, and of no other lines. *)
Lemma chunk_has_lines (chunk : string) :
  exists lines : list Line, lines_of_chunk lines /\ chunk = chunk_of lines.
Proof.
  destruct (unlines_split_lines chunk) as [Hu Hone].
  set (classify l := if String.prefix "data: " l
                     then DataLine (slice_from 6 l) else OtherLine l).
  exists (map classify (split_lines chunk)).
  assert (Htext : forall l, text_of_line (classify l) = l).
  { intros l. unfold classify. destruct (String.prefix "data: " l) eqn:E; [|done].
    cbn [text_of_line]. symmetry. by apply (prefix_slice "data: "). }
  split; [split|].
  - destruct (split_lines_cons chunk) as (l & ls & ->). done.
  - apply Forall_fmap. eapply Forall_impl; [exact Hone|].
    intros l Hl. unfold classify. cbn [compose].
    destruct (String.prefix "data: " l) eqn:E; cbn [proper].
    + pose proof (prefix_slice "data: " l E) as Heq. rewrite Heq in Hl.
      exact Hl.
    + split; [done|]. intros payload ->. by rewrite prefix_data in E.
  - assert (Hmap : forall ls, map text_of_line (map classify ls) = ls).
    { induction ls as [|l ls IH]; cbn [map]; [done|]. by rewrite Htext, IH. }
    unfold chunk_of. by rewrite Hmap.
Qed.

Lemma chunk_lines_unique (lines lines' : list Line) :
  lines_of_chunk lines -> lines_of_chunk lines' ->
  chunk_of lines = chunk_of lines' -> lines = lines'.
Proof.
  intros [Hne Hp] [Hne' Hp'] Heq.
  assert (Hone : forall ls, Forall proper ls ->
            Forall (fun l => one_line l = true) (map text_of_line ls)).
  { intros ls H. apply Forall_fmap. eapply Forall_impl; [exact H|].
    intros [p|t]; cbn; [done|by intros [? _]]. }
  assert (Hmap : map text_of_line lines = map text_of_line lines').
  { rewrite <- (split_lines_unlines (map text_of_line lines));
      [|by destruct lines|by apply Hone].
    rewrite <- (split_lines_unlines (map text_of_line lines'));
      [|by destruct lines'|by apply Hone].
    unfold chunk_of in Heq. by rewrite Heq. }
  clear Heq Hne Hne'. revert lines' Hp' Hmap.
  induction Hp as [|l lines Hl _ IH]; intros [|l' lines'] Hp' Hmap;
    try discriminate; [done|].
  apply Forall_cons in Hp' as [Hl' Hp']. injection Hmap as Ht Hrest.
  f_equal; [|by apply IH].
  destruct l as [p|t], l' as [p'|t']; cbn [text_of_line proper] in *.
  - apply (f_equal (slice_from 6)) in Ht. change (p = p') in Ht. by subst.
  - destruct Hl' as [_ Hl']. by destruct (Hl' p).
  - destruct Hl as [_ Hl]. by destruct (Hl p').
  - by subst.
Qed.

Section Lines.

Variable JSON_parse : string -> outcome value.
Context {S : Type}.
Variable onEvent : value -> value -> S -> outcome S.

Local Abbreviation on_line := (Sse.on_line JSON_parse onEvent).
Local Abbreviation on_chunk := (Sse.on_chunk JSON_parse onEvent).
Local Abbreviation deliver := (Sse.deliver onEvent).

(** What the reader does with one line. *)
Lemma on_line_proper (l : Line) (st : S * list string) :
  proper l ->
  on_line (text_of_line l) st
  = match l with
    | DataLine payload =>
        match (do event <- JSON_parse payload;
               do eventType <- Data.get event "type";
               onEvent eventType event (fst st)) with
        | Return s' => (s', snd st)
        | Throw _ => (fst st, snd st ++ ["Failed to parse SSE event:"])
        end
    | OtherLine _ => st
    end.
Proof.
  destruct l as [payload|text]; cbn [proper text_of_line]; unfold Sse.on_line.
  - intros _. rewrite prefix_data.
    change (slice_from 6 ("data: " ++ payload)%string) with payload. reflexivity.
  - intros [_ Hno]. destruct (String.prefix "data: " text) eqn:E; [|done].
    destruct (Hno (slice_from 6 text)). by apply (prefix_slice "data: ").
Qed.

Lemma on_line_delivers (l : Line) (st : S * list string) :
  proper l ->
  fst (on_line (text_of_line l) st)
  = match parsed JSON_parse l with
    | Some e => deliver (fst st) e
    | None => fst st
    end.
Proof.
  intros Hl. rewrite on_line_proper by done. unfold Sse.deliver.
  destruct l as [payload|text]; cbn [parsed]; [|done].
  destruct (JSON_parse payload) as [event|e]; cbn [Js.bind]; [|done].
  destruct (Data.get event "type") as [eventType|e]; cbn [Js.bind]; [|done].
  cbn [fst snd]. by destruct (onEvent eventType event (fst st)).
Qed.

Lemma on_line_logs (l : Line) (st : S * list string) :
  proper l ->
  (forall ty ev s, exists s', onEvent ty ev s = Return s') ->
  length (snd (on_line (text_of_line l) st))
  = (length (snd st) + if unparsed JSON_parse l then 1 else 0)%nat.
Proof.
  intros Hl Htotal. rewrite on_line_proper by done.
  destruct l as [payload|text]; cbn [unparsed parsed]; [|lia].
  destruct (JSON_parse payload) as [event|e]; cbn [Js.bind].
  - destruct (Data.get event "type") as [eventType|e]; cbn [Js.bind].
    + destruct (Htotal eventType event (fst st)) as [s' ->].
      rewrite bool_decide_eq_false_2 by done. cbn [snd]. lia.
    + rewrite bool_decide_eq_true_2 by done. cbn [snd].
      rewrite length_app. simpl. lia.
  - rewrite bool_decide_eq_true_2 by done. cbn [snd].
    rewrite length_app. simpl. lia.
Qed.

Lemma on_lines (lines : list Line) (st : S * list string) :
  Forall proper lines ->
  let st' := foldl (fun st line => on_line line st) st (map text_of_line lines) in
  fst st' = foldl deliver (fst st) (omap (parsed JSON_parse) lines)
  /\ ((forall ty ev s, exists s', onEvent ty ev s = Return s') ->
      length (snd st')
      = (length (snd st)
         + length (filter (fun l => unparsed JSON_parse l = true) lines))%nat).
Proof.
  intros H. revert st. induction H as [|l lines Hl _ IH]; intros st; cbn [map foldl].
  - split; [done|]. intros _. simpl. lia.
  - destruct (IH (on_line (text_of_line l) st)) as [IH1 IH2]. cbv zeta. split.
    + rewrite IH1, on_line_delivers by done.
      change (omap (parsed JSON_parse) (l :: lines))
        with (match parsed JSON_parse l with
              | Some e => e :: omap (parsed JSON_parse) lines
              | None => omap (parsed JSON_parse) lines
              end).
      by destruct (parsed JSON_parse l).
    + intros Htotal. rewrite IH2, on_line_logs by done.
      destruct (unparsed JSON_parse l) eqn:E.
      * rewrite filter_cons_True by done. simpl. lia.
      * rewrite filter_cons_False by (by rewrite E). lia.
Qed.

Lemma on_chunks (script : list (list Line)) (st : S * list string) :
  Forall lines_of_chunk script ->
  let st' := foldl (fun st chunk => on_chunk chunk st) st (map chunk_of script) in
  fst st' = foldl deliver (fst st) (omap (parsed JSON_parse) (concat script))
  /\ ((forall ty ev s, exists s', onEvent ty ev s = Return s') ->
      length (snd st')
      = (length (snd st)
         + length (filter (fun l => unparsed JSON_parse l = true)
                     (concat script)))%nat).
Proof.
  intros H. revert st.
  induction H as [|lines script [Hne Hp] _ IH]; intros st; cbn [map foldl concat].
  - split; [done|]. intros _. simpl. lia.
  - assert (Hsplit : split_lines (chunk_of lines) = map text_of_line lines).
    { apply split_lines_unlines; [by destruct lines|].
      apply Forall_fmap. eapply Forall_impl; [exact Hp|].
      intros [p|t]; cbn; [done|by intros [? _]]. }
    unfold Sse.on_chunk at 2 4. rewrite Hsplit.
    destruct (on_lines lines st Hp) as [L1 L2].
    destruct (IH (foldl (fun st line => on_line line st) st
                    (map text_of_line lines))) as [IH1 IH2].
    cbv zeta in *. split.
    + by rewrite IH1, L1, omap_app, foldl_app.
    + intros Htotal. rewrite IH2, L2, filter_app, length_app by done. lia.
Qed.

(** C10: a stream is chunks of lines joined by line feeds, and a data
    line is the text ["data: "] followed by its payload; every chunk is
    such a chunk, of its own lines only. On such a stream the reader
    treats the data lines, and no other line, as events: the payloads
    that parse reach the callback in the order of the lines; a data line
    whose payload does not parse is logged and skipped, and the stream
    goes on; whether the call resolves depends on the transport alone. *)
Theorem sendMessageStream_delivers :
  (forall chunk : string,
     exists lines : list Line,
       lines_of_chunk lines /\ chunk = chunk_of lines
       /\ forall lines' : list Line,
            lines_of_chunk lines' -> chunk = chunk_of lines' -> lines' = lines)
  /\ forall (script : list (list Line)) (rejects : bool) (s : S),
       Forall lines_of_chunk script ->
       let '(s', console, result) :=
         Sse.sendMessageStream JSON_parse onEvent
           (Body (map chunk_of script) rejects) s in
       s' = foldl deliver s (omap (parsed JSON_parse) (concat script))
       /\ result = (if rejects then Throw TypeError else Return tt)
       /\ ((forall ty ev s, exists s', onEvent ty ev s = Return s') ->
           length console
           = length (filter (fun l => unparsed JSON_parse l = true)
                       (concat script))).
Proof.
  split.
  - intros chunk. destruct (chunk_has_lines chunk) as (lines & Hl & Hc).
    exists lines. split_and!; [done|done|].
    intros lines' Hl' Hc'. apply chunk_lines_unique; [done|done|congruence].
  - intros script rejects s Hscript. cbn [Sse.sendMessageStream].
    destruct (on_chunks script (s, []) Hscript) as [H1 H2]. cbv zeta in *.
    destruct (foldl _ (s, []) (map chunk_of script)) as [s' console].
    cbn [fst snd] in *. split_and!; [done|done|].
    intros Htotal. by rewrite H2.
Qed.

End Lines.

Lemma sendMessageStream_delivers_witness :
  let JSON_parse := fun payload : string =>
    if String.eqb payload "1" then Return (VObj [("type", VStr "complete")])
    else Throw (Error "SyntaxError") in
  let onEvent := fun (eventType event : value) (s : list value) =>
    Return (s ++ [eventType]) : outcome (list value) in
  let script := [[DataLine "1"; OtherLine ""];
                 [DataLine "x"; OtherLine ": ping"; DataLine "1"]] in
  Forall lines_of_chunk script
  /\ let '(s', console, result) :=
       Sse.sendMessageStream JSON_parse onEvent (Body (map chunk_of script) false) [] in
     s' = foldl (Sse.deliver onEvent) [] (omap (parsed JSON_parse) (concat script))
     /\ result = Return tt
     /\ ((forall ty ev s, exists s', onEvent ty ev s = Return s') ->
         length console
         = length (filter (fun l => unparsed JSON_parse l = true) (concat script))).
Proof.
  intros JSON_parse onEvent script.
  assert (Hscript : Forall lines_of_chunk script).
  { repeat (apply Forall_cons_2 || apply Forall_nil_2).
    - split; [discriminate|].
      repeat (apply Forall_cons_2 || apply Forall_nil_2).
      + reflexivity.
      + split; [reflexivity|]. intros payload H. discriminate H.
    - split; [discriminate|].
      repeat (apply Forall_cons_2 || apply Forall_nil_2).
      + reflexivity.
      + split; [reflexivity|]. intros payload H. discriminate H.
      + reflexivity. }
  split; [exact Hscript|].
  exact (proj2 (sendMessageStream_delivers JSON_parse onEvent) script false [] Hscript).
Defined.

End SseProps.

(* ===================================================================== *)
(** * ConversationSession and StreamSessionController: further properties *)
(* ===================================================================== *)

Module AppProps.

Import Js Data App AppFacts.

Local Open Scope list_scope.

Lemma is_str_true (v : value) (s : string) : is_str v s = true -> v = VStr s.
Proof.
  destruct v; try discriminate. cbn [is_str]. by intros ->%String.eqb_eq.
Qed.

Lemma synced_selected (i : string) (w : World) : synced i w -> selected i w.
Proof. intros (conv & Hc & Hid & _). by exists conv. Qed.

Lemma saving_steady (i : string) (u : Update) : saving i u -> steady i u.
Proof.
  intros Hu w w' E. split.
  - intros Hs. apply synced_selected. by apply (Hu w w').
  - intros Hs. apply (Hu w w' E). by apply synced_selected.
Qed.

Section Session.

Variable localeCompare : string -> string -> Z.
Variable now : string.

Local Abbreviation save_and_set := (App.save_and_set localeCompare now).
Local Abbreviation append_message := (App.append_message localeCompare now).
Local Abbreviation on_last := (App.on_last localeCompare now).
Local Abbreviation on_title := (App.on_title localeCompare now).
Local Abbreviation rollback := (App.rollback localeCompare now).
Local Abbreviation onEvent := (App.onEvent localeCompare now).
Local Abbreviation onCatch := (App.onCatch localeCompare now).
Local Abbreviation handleSendMessage := (App.handleSendMessage localeCompare now).
Local Abbreviation run := (App.run localeCompare now).

(** What [save_and_set] has done when it returns. *)
Lemma save_and_set_inv (refresh : bool) (next : Conversation) (w w' : World) :
  save_and_set refresh next w = Return w' ->
  same_session w w'
  /\ currentConversation (state w') = Some next
  /\ (exists i, id next = Some i /\ i ≠ ""
                /\ Store.get i (localStorage w') = Some (Store.JObject next))
  /\ (refresh = true -> conversations (state w') = Store.list_ (localStorage w')).
Proof.
  unfold App.save_and_set, Store.save.
  destruct (id next) as [i|] eqn:Hid; [|discriminate].
  destruct (String.eqb_spec i "") as [->|Hi]; [discriminate|].
  cbn [Js.bind snd]. unfold Store.upsertIndexItem. cbn [snd fst].
  intros [= <-]. cbn [state localStorage]. split_and!.
  - by destruct refresh.
  - by destruct refresh.
  - exists i. split_and!; [done|done|]. apply get_after_save.
  - intros ->. reflexivity.
Qed.

Lemma save_and_set_saving (refresh : bool) (next : Conversation) (i : string)
  (w w' : World) :
  save_and_set refresh next w = Return w' -> id next = Some i -> synced i w'.
Proof.
  intros E Hid. destruct (save_and_set_inv _ _ _ _ E) as (_ & Hc & (j & Hj & Hne & Hg) & _).
  assert (j = i) as -> by congruence. by exists next.
Qed.

Lemma append_message_quiet (m : Message) : quiet (append_message m).
Proof.
  intros w w'. unfold App.append_message.
  destruct (currentConversation (state w)) as [prev|]; [|discriminate].
  destruct (messages prev); [|discriminate].
  intros E. apply (save_and_set_inv _ _ _ _ E).
Qed.

Lemma append_message_saving (i : string) (m : Message) : saving i (append_message m).
Proof.
  intros w w' E (conv & Hc & Hid). revert E. unfold App.append_message. rewrite Hc.
  destruct (messages conv); [|discriminate].
  intros E. by apply (save_and_set_saving _ _ _ _ _ E).
Qed.

Lemma on_last_quiet (f : Assistant -> Assistant) : quiet (on_last f).
Proof.
  intros w w'. unfold App.on_last.
  destruct (currentConversation (state w)) as [prev|]; [|discriminate].
  destruct (messages prev) as [ms|]; [|discriminate].
  destruct (write_last f ms); [|discriminate]. cbn [Js.bind].
  intros E. apply (save_and_set_inv _ _ _ _ E).
Qed.

Lemma on_last_saving (i : string) (f : Assistant -> Assistant) : saving i (on_last f).
Proof.
  intros w w' E (conv & Hc & Hid). revert E. unfold App.on_last. rewrite Hc.
  destruct (messages conv) as [ms|]; [|discriminate].
  destruct (write_last f ms); [|discriminate]. cbn [Js.bind].
  intros E. by apply (save_and_set_saving _ _ _ _ _ E).
Qed.

Lemma on_title_quiet (t : value) : quiet (on_title t).
Proof.
  intros w w'. unfold App.on_title.
  destruct (currentConversation (state w)) as [prev|].
  - intros E. apply (save_and_set_inv _ _ _ _ E).
  - by destruct (truthy t).
Qed.

Lemma on_title_saving (i : string) (t : value) : saving i (on_title t).
Proof.
  intros w w' E (conv & Hc & Hid). revert E. unfold App.on_title. rewrite Hc.
  intros E. by apply (save_and_set_saving _ _ _ _ _ E).
Qed.

Lemma rollback_quiet : quiet rollback.
Proof.
  intros w w'. unfold App.rollback.
  destruct (currentConversation (state w)) as [prev|].
  - destruct (messages prev); [|discriminate].
    intros E. apply (save_and_set_inv _ _ _ _ E).
  - by intros [= <-].
Qed.

Lemma rollback_saving (i : string) : saving i rollback.
Proof.
  intros w w' E (conv & Hc & Hid). revert E. unfold App.rollback. rewrite Hc.
  destruct (messages conv); [|discriminate].
  intros E. by apply (save_and_set_saving _ _ _ _ _ E).
Qed.

Lemma refresh_list_quiet : quiet refresh_list.
Proof. by intros w w' [= <-]. Qed.

Lemma refresh_list_steady (i : string) : steady i refresh_list.
Proof. by intros w w' [= <-]. Qed.

Lemma on_state_steady (i : string) (g : State -> State) :
  (forall s, currentConversation (g s) = currentConversation s) ->
  steady i (on_state g).
Proof.
  intros Hg w w' [= <-]. unfold selected, synced. cbn [state localStorage].
  by rewrite Hg.
Qed.

Lemma onEvent_steady (i : string) (eventType event : value) :
  Forall (steady i) (onEvent eventType event).
Proof.
  unfold App.onEvent.
  repeat match goal with
         | |- context [if is_str ?v ?s then _ else _] =>
             destruct (is_str v s); cbv iota
         end.
  all: repeat first
         [ apply Forall_nil_2
         | apply Forall_cons_2
         | apply saving_steady, on_last_saving
         | apply saving_steady, on_title_saving
         | apply refresh_list_steady
         | apply on_state_steady; reflexivity ].
Qed.

Lemma apply_all_steady (i : string) (q : list Update) (w w' : World) :
  Forall (steady i) q ->
  apply_all q w = Return w' ->
  (selected i w -> selected i w') /\ (synced i w -> synced i w').
Proof.
  intros Hq. revert w. induction Hq as [|u q Hu _ IH]; intros w; cbn [apply_all].
  - by intros [= <-].
  - destruct (u w) as [w1|] eqn:E; [|discriminate]. cbn [Js.bind]. intros E'.
    destruct (Hu w w1 E) as [H1 H2]. destruct (IH w1 E') as [H3 H4]. auto.
Qed.

Lemma apply_all_saving (i : string) (q1 q2 : list Update) (u : Update)
  (w w' : World) :
  Forall (steady i) q1 -> saving i u -> Forall (steady i) q2 ->
  apply_all (q1 ++ u :: q2) w = Return w' ->
  selected i w -> synced i w'.
Proof.
  intros H1 Hu H2. rewrite apply_all_app.
  destruct (apply_all q1 w) as [w1|] eqn:E1; [|discriminate]. cbn [Js.bind apply_all].
  destruct (u w1) as [w2|] eqn:E; [|discriminate]. cbn [Js.bind].
  intros E2 Hs.
  apply (apply_all_steady i q2 w2 w' H2 E2).
  apply (Hu w1 w2 E). by apply (apply_all_steady i q1 w w1 H1 E1).
Qed.

(** The queue of a send, split at the update that appends the user
    message. *)
Lemma updates_split (content : string) (skipClarification : bool) (s : State) :
  is_Some (request (handleSendMessage s content skipClarification)) ->
  exists q1 : list Update,
    updates (handleSendMessage s content skipClarification)
    = q1 ++ append_message (User content)
         :: [append_message (Assistant_ assistantMessage)]
    /\ forall i, Forall (steady i) q1.
Proof.
  unfold App.handleSendMessage.
  destruct (currentConversationId s) as [cid|]; [|by intros [? [=]]].
  destruct (currentConversation s) as [conv|]; [|by intros [? [=]]].
  destruct (String.eqb cid ""); [by intros [? [=]]|]. intros _. cbn [updates].
  destruct (truthy (pendingClarification s) && nonempty (originalQuery s)).
  - eexists [_; _; _]. split; [reflexivity|].
    intros i. repeat apply Forall_cons_2; try apply Forall_nil_2;
      by apply on_state_steady.
  - eexists [_; _]. split; [reflexivity|].
    intros i. repeat apply Forall_cons_2; try apply Forall_nil_2;
      by apply on_state_steady.
Qed.

Lemma onCatch_steady (i : string) : Forall (steady i) onCatch.
Proof.
  repeat apply Forall_cons_2; [| |apply Forall_nil_2].
  - apply saving_steady, rollback_saving.
  - by apply on_state_steady.
Qed.

Lemma holds_selected (i : string) (ms : list Message) (w : World) :
  holds i ms w -> selected i w.
Proof. intros (conv & Hc & Hid & _). by exists conv. Qed.

(** ** A turn among other handlers *)

Lemma stable_holds (i : string) (log : list Message) : stable (holds i log).
Proof. intros w w' Hc _ (conv & H & Hrest). exists conv. by rewrite Hc. Qed.

Lemma stable_shown (i : string) (log : list Message) : stable (shown i log).
Proof.
  intros w w' Hc Hls (conv & H & Hid & Hi & Hms & Hg). exists conv.
  by rewrite Hc, Hls.
Qed.

Lemma shown_holds (i : string) (log : list Message) (w : World) :
  shown i log w -> holds i log w.
Proof. intros (conv & H & Hid & Hi & Hms & _). by exists conv. Qed.

Lemma holds_synced_shown (i : string) (log : list Message) (w : World) :
  holds i log w -> synced i w -> shown i log w.
Proof.
  intros (conv & Hc & Hid & Hi & Hms) (conv' & Hc' & _ & _ & Hg).
  assert (conv' = conv) as -> by congruence. by exists conv.
Qed.

Lemma leads_weaken (P P' Q Q' : World -> Prop) (u : Update) :
  (forall w, P' w -> P w) -> (forall w, Q w -> Q' w) ->
  leads P Q u -> leads P' Q' u.
Proof.
  intros HP HQ Hu w Hw. destruct (Hu w (HP w Hw)) as (w' & E & Hq). eauto.
Qed.

Lemma leads_on_state (P : World -> Prop) (g : State -> State) :
  stable P ->
  (forall s, currentConversation (g s) = currentConversation s) ->
  leads P P (on_state g).
Proof.
  intros HP Hg w Hw. eexists. split; [reflexivity|].
  apply (HP w); [apply Hg|reflexivity|exact Hw].
Qed.

Lemma leads_refresh_list (P : World -> Prop) : stable P -> leads P P refresh_list.
Proof.
  intros HP w Hw. eexists. split; [reflexivity|]. by apply (HP w).
Qed.

Lemma leads_append_message (i : string) (ms : list Message) (m : Message) :
  leads (holds i ms) (shown i (ms ++ [m])) (append_message m).
Proof.
  intros w Hw.
  destruct (append_message_step localeCompare now m i ms w Hw)
    as (w' & E & H' & _).
  exists w'. split; [exact E|]. apply holds_synced_shown; [exact H'|].
  apply (append_message_saving i m w w' E). by apply (holds_selected i ms).
Qed.

Lemma leads_on_last (i : string) (init : list Message) (a : Assistant)
  (f : Assistant -> Assistant) :
  leads (shown i (init ++ [Assistant_ a])) (shown i (init ++ [Assistant_ (f a)]))
    (on_last f).
Proof.
  intros w Hw%shown_holds.
  destruct (on_last_step localeCompare now f i init a w Hw) as (w' & E & H' & _).
  exists w'. split; [exact E|]. apply holds_synced_shown; [exact H'|].
  apply (on_last_saving i f w w' E). by eapply holds_selected.
Qed.

Lemma leads_on_title (i : string) (log : list Message) (t : value) :
  leads (shown i log) (shown i log) (on_title t).
Proof.
  intros w Hw%shown_holds.
  destruct (on_title_step localeCompare now t i log w Hw) as (w' & E & H' & _).
  exists w'. split; [exact E|]. apply holds_synced_shown; [exact H'|].
  apply (on_title_saving i t w w' E). by eapply holds_selected.
Qed.

Lemma leads_rollback (i : string) (ms : list Message) (m1 m2 : Message) :
  leads (shown i (ms ++ [m1; m2])) (shown i ms) rollback.
Proof.
  intros w Hw%shown_holds.
  destruct (rollback_step localeCompare now i ms m1 m2 w Hw) as (w' & E & H' & _).
  exists w'. split; [exact E|]. apply holds_synced_shown; [exact H'|].
  apply (rollback_saving i w w' E). by eapply holds_selected.
Qed.

Lemma chain_app (P R Q : World -> Prop) (q1 q2 : list Update) :
  chain P q1 R -> chain R q2 Q -> chain P (q1 ++ q2) Q.
Proof.
  induction 1 as [P HP|P R' R u q HP Hu _ IH]; intros H2; cbn [app]; [done|].
  eapply chain_cons; [exact HP|exact Hu|by apply IH].
Qed.

Lemma chain_start (P Q : World -> Prop) (q : list Update) :
  chain P q Q -> stable P.
Proof. by destruct 1. Qed.

(** A chain holds among the updates of bystanders. *)
Lemma chain_among (P Q : World -> Prop) (steps : list Step) (w : World) :
  chain P (own steps) Q ->
  Forall bystander (asides steps) ->
  P w ->
  exists w' : World, run_among steps w = Return w' /\ Q w'.
Proof.
  unfold run_among. revert P w.
  induction steps as [|[u|u] steps IH]; intros P w Hchain Hby Hw;
    cbn [own asides omap map apply_all update_of] in *.
  - inversion Hchain; subst. by exists w.
  - inversion Hchain as [|P' R Q' u' q HP Hu Hq]; subst.
    destruct (Hu w Hw) as (w1 & E & H1). rewrite E. cbn [Js.bind].
    by apply (IH R).
  - apply Forall_cons in Hby as [Hu Hby].
    destruct (Hu w) as (w1 & E & Hc & Hls). rewrite E. cbn [Js.bind].
    apply (IH P); [done|done|].
    by apply (chain_start P Q _ Hchain w).
Qed.

Lemma onEvent_chain (i : string) (init : list Message)
  (eventType event : value) (a : Assistant) :
  exists a' : Assistant,
    chain (shown i (init ++ [Assistant_ a])) (onEvent eventType event)
      (shown i (init ++ [Assistant_ a'])).
Proof.
  unfold App.onEvent.
  repeat match goal with
         | |- context [if is_str ?v ?s then _ else _] =>
             destruct (is_str v s); cbv iota
         end.
  all: eexists;
    repeat first
      [ apply chain_nil; apply stable_shown
      | eapply chain_cons;
          [ apply stable_shown
          | first [ apply leads_on_last
                  | apply leads_on_title
                  | apply leads_refresh_list; apply stable_shown
                  | apply leads_on_state;
                      [apply stable_shown|reflexivity] ]
          | ] ].
Qed.

Lemma events_chain (i : string) (init : list Message)
  (delivered : list (value * value)) (a : Assistant) :
  exists a' : Assistant,
    chain (shown i (init ++ [Assistant_ a]))
      (flat_map (fun e => onEvent (fst e) (snd e)) delivered)
      (shown i (init ++ [Assistant_ a'])).
Proof.
  revert a. induction delivered as [|[ty ev] delivered IH]; intros a;
    cbn [flat_map fst snd].
  - exists a. apply chain_nil, stable_shown.
  - destruct (onEvent_chain i init ty ev a) as (a1 & H1).
    destruct (IH a1) as (a2 & H2). exists a2. by apply (chain_app _ _ _ _ _ H1).
Qed.

Lemma updates_chain (content : string) (skipClarification : bool)
  (i : string) (ms : list Message) (w : World) :
  current i ms w ->
  chain (holds i ms)
    (updates (handleSendMessage (state w) content skipClarification))
    (shown i ((ms ++ [User content]) ++ [Assistant_ assistantMessage])).
Proof.
  intros [Hcid (conv & Hc & _)]. unfold App.handleSendMessage. rewrite Hc.
  destruct (currentConversationId (state w)) as [cid|]; [|discriminate Hcid].
  cbn [nonempty] in Hcid. destruct (String.eqb cid ""); [discriminate Hcid|].
  cbn [updates].
  assert (Htail : chain (holds i ms)
            [append_message (User content);
             append_message (Assistant_ assistantMessage)]
            (shown i ((ms ++ [User content]) ++ [Assistant_ assistantMessage]))).
  { eapply chain_cons; [apply stable_holds|apply leads_append_message|].
    eapply chain_cons; [apply stable_shown| |apply chain_nil, stable_shown].
    eapply leads_weaken; [apply shown_holds|done|apply leads_append_message]. }
  destruct (truthy (pendingClarification (state w))
            && nonempty (originalQuery (state w))); cbn [app];
    repeat (eapply chain_cons;
              [apply stable_holds
              |apply leads_on_state; [apply stable_holds|reflexivity]
              |]);
    exact Htail.
Qed.

(** The turn alone is the turn among no other steps. *)
Lemma run_alone (JSON_parse : string -> outcome value) (h : Handler)
  (t : Sse.Transport) (w : World) :
  is_Some (request h) ->
  run JSON_parse h t w
  = run_among (map Own (queue_of localeCompare now h
                          (delivered JSON_parse t) (result_of t))) w
  /\ own (map Own (queue_of localeCompare now h
                     (delivered JSON_parse t) (result_of t)))
     = queue_of localeCompare now h (delivered JSON_parse t) (result_of t)
  /\ asides (map Own (queue_of localeCompare now h
                        (delivered JSON_parse t) (result_of t))) = [].
Proof.
  intros Hreq. rewrite run_queue by done.
  generalize (queue_of localeCompare now h (delivered JSON_parse t) (result_of t)).
  intros q. unfold run_among. split_and!.
  - f_equal. induction q as [|u q IH]; cbn [map]; [done|]. by rewrite <- IH.
  - unfold own. induction q as [|u q IH]; simpl in *; [done|by f_equal].
  - unfold asides. induction q as [|u q IH]; simpl in *; [done|exact IH].
Qed.

(** X19: a turn during which the other handlers that run leave the
    current conversation and the store as they are, whatever the
    transport does and whatever the stream delivers, returns with the
    record in memory stored as it is shown: the log is the one before
    the turn when the transport call threw, and that log with the two
    messages of the turn when it did not; loading the conversation again
    gives the record that is shown. The steps are the updates of the
    turn, in their order, with the updates of the other handlers
    anywhere among them. The store is that of a session: its index
    holds index entries and no [null], so that [save] returns
    ([LocalConversationsFacts.save_embed]). *)
Theorem turn_leaves_record_stored (JSON_parse : string -> outcome value)
  (content : string) (skipClarification : bool) (t : Sse.Transport)
  (i : string) (ms : list Message) (w : World) (steps : list Step) :
  current i ms w ->
  own steps
  = queue_of localeCompare now
      (handleSendMessage (state w) content skipClarification)
      (delivered JSON_parse t) (result_of t) ->
  Forall bystander (asides steps) ->
  exists (w' : World) (log : list Message),
    run_among steps w = Return w'
    /\ synced i w'
    /\ in_memory w' = Some log
    /\ match result_of t with
       | Throw _ => log = ms
       | Return _ => exists a, log = ms ++ [User content; Assistant_ a]
       end
    /\ currentConversation (state (loadConversation i w'))
       = currentConversation (state w').
Proof.
  intros Hw Hown Hby.
  pose proof (updates_chain content skipClarification i ms w Hw) as H1.
  destruct (events_chain i (ms ++ [User content]) (delivered JSON_parse t)
              assistantMessage) as (a & H2).
  assert (Hend : forall log w', shown i log w' ->
            synced i w' /\ in_memory w' = Some log
            /\ currentConversation (state (loadConversation i w'))
               = currentConversation (state w')).
  { intros log w' (conv & Hc & Hid & Hi & Hms & Hg). split_and!.
    - by exists conv.
    - unfold in_memory. by rewrite Hc.
    - unfold loadConversation.
      cbn [state currentConversation setCurrentConversation]. by rewrite Hg, Hc. }
  assert (Hstart : holds i ms w) by apply Hw.
  unfold queue_of in Hown. destruct (result_of t) as [[]|e].
  - rewrite app_nil_r in Hown.
    assert (Hchain : chain (holds i ms) (own steps)
                       (shown i (ms ++ [User content; Assistant_ a]))).
    { rewrite Hown. eapply chain_app; [exact H1|].
      replace (ms ++ [User content; Assistant_ a])
        with ((ms ++ [User content]) ++ [Assistant_ a])
        by (by rewrite <- app_assoc).
      exact H2. }
    destruct (chain_among _ _ steps w Hchain Hby Hstart) as (w' & E & Hs).
    exists w', (ms ++ [User content; Assistant_ a]).
    destruct (Hend _ _ Hs) as (? & ? & ?). split_and!; [done|done|done|by exists a|done].
  - assert (Hchain : chain (holds i ms) (own steps) (shown i ms)).
    { rewrite Hown. eapply chain_app; [exact H1|].
      eapply chain_app; [exact H2|].
      rewrite <- app_assoc. cbn [app]. unfold App.onCatch.
      eapply chain_cons; [apply stable_shown|apply leads_rollback|].
      eapply chain_cons;
        [apply stable_shown
        |apply leads_on_state; [apply stable_shown|reflexivity]
        |apply chain_nil, stable_shown]. }
    destruct (chain_among _ _ steps w Hchain Hby Hstart) as (w' & E & Hs).
    exists w', ms. destruct (Hend _ _ Hs) as (? & ? & ?). by split_and!.
Qed.

(** ** The session variables *)

Ltac closed_is_str :=
  repeat match goal with
         | |- context [is_str (VStr ?a) ?b] =>
             let r := eval vm_compute in (is_str (VStr a) b) in
             change (is_str (VStr a) b) with r
         end;
  cbv iota; cbn [orb].

Ltac queue_step H :=
  cbn [apply_all] in H;
  match type of H with
  | Js.bind (?u ?w) _ = Return _ =>
      let w1 := fresh "w" in
      let E := fresh "E" in
      destruct (u w) as [w1|] eqn:E; [cbn [Js.bind] in H|discriminate H]
  end.

(** What the case of an event does to the session variables. *)
Lemma onEvent_session (eventType event : value) (w w' : World) :
  apply_all (onEvent eventType event) w = Return w' ->
  currentConversationId (state w') = currentConversationId (state w)
  /\ isLoading (state w')
     = (if closes eventType then false else isLoading (state w))
  /\ originalQuery (state w')
     = (if is_str eventType "complete" then None else originalQuery (state w))
  /\ pendingClarification (state w')
     = (if is_str eventType "clarification_needed"
        then get_opt event "data" else pendingClarification (state w)).
Proof.
  unfold closes, App.onEvent.
  destruct (is_str eventType "clarification_start") eqn:H1;
    [apply is_str_true in H1; subst eventType; closed_is_str|].
  { intros H. queue_step H. injection H as <-. apply on_last_quiet in E.
    destruct E as (? & ? & ? & ?). by split_and!. }
  destruct (is_str eventType "clarification_needed") eqn:H2;
    [apply is_str_true in H2; subst eventType; closed_is_str|].
  { intros H. queue_step H. cbn [apply_all on_state Js.bind] in H.
    injection H as <-. apply on_last_quiet in E.
    destruct E as (? & ? & ? & ?). by split_and!. }
  destruct (is_str eventType "clarification_complete") eqn:H3;
    [apply is_str_true in H3; subst eventType; closed_is_str|].
  { intros H. queue_step H. injection H as <-. apply on_last_quiet in E.
    destruct E as (? & ? & ? & ?). by split_and!. }
  destruct (is_str eventType "stage1_start") eqn:H4;
    [apply is_str_true in H4; subst eventType; closed_is_str|].
  { intros H. queue_step H. injection H as <-. apply on_last_quiet in E.
    destruct E as (? & ? & ? & ?). by split_and!. }
  destruct (is_str eventType "stage1_complete") eqn:H5;
    [apply is_str_true in H5; subst eventType; closed_is_str|].
  { intros H. queue_step H. injection H as <-. apply on_last_quiet in E.
    destruct E as (? & ? & ? & ?). by split_and!. }
  destruct (is_str eventType "stage2_start") eqn:H6;
    [apply is_str_true in H6; subst eventType; closed_is_str|].
  { intros H. queue_step H. injection H as <-. apply on_last_quiet in E.
    destruct E as (? & ? & ? & ?). by split_and!. }
  destruct (is_str eventType "stage2_complete") eqn:H7;
    [apply is_str_true in H7; subst eventType; closed_is_str|].
  { intros H. queue_step H. injection H as <-. apply on_last_quiet in E.
    destruct E as (? & ? & ? & ?). by split_and!. }
  destruct (is_str eventType "stage3_start") eqn:H8;
    [apply is_str_true in H8; subst eventType; closed_is_str|].
  { intros H. queue_step H. injection H as <-. apply on_last_quiet in E.
    destruct E as (? & ? & ? & ?). by split_and!. }
  destruct (is_str eventType "stage3_complete") eqn:H9;
    [apply is_str_true in H9; subst eventType; closed_is_str|].
  { intros H. queue_step H. injection H as <-. apply on_last_quiet in E.
    destruct E as (? & ? & ? & ?). by split_and!. }
  destruct (is_str eventType "title_complete") eqn:H10;
    [apply is_str_true in H10; subst eventType; closed_is_str|].
  { intros H. queue_step H. injection H as <-. apply on_title_quiet in E.
    destruct E as (? & ? & ? & ?). by split_and!. }
  destruct (is_str eventType "complete") eqn:H11;
    [apply is_str_true in H11; subst eventType; closed_is_str|].
  { cbn [apply_all on_state refresh_list Js.bind]. by intros [= <-]. }
  destruct (is_str eventType "error") eqn:H12;
    [apply is_str_true in H12; subst eventType; closed_is_str|].
  { cbn [apply_all on_state Js.bind]. by intros [= <-]. }
  cbn [orb apply_all]. by intros [= <-].
Qed.

(** The session variables after the events of a stream. *)
Lemma events_session (delivered : list (value * value)) (w w' : World) :
  apply_all (flat_map (fun e => onEvent (fst e) (snd e)) delivered) w = Return w' ->
  currentConversationId (state w') = currentConversationId (state w)
  /\ isLoading (state w')
     = (if existsb (fun e => closes (fst e)) delivered
        then false else isLoading (state w))
  /\ originalQuery (state w')
     = (if existsb (fun e => is_str (fst e) "complete") delivered
        then None else originalQuery (state w))
  /\ pendingClarification (state w')
     = last_needed (pendingClarification (state w)) delivered.
Proof.
  revert w. induction delivered as [|[ty ev] delivered IH]; intros w;
    cbn [flat_map existsb fst snd].
  - by intros [= <-].
  - rewrite apply_all_app.
    destruct (apply_all (onEvent ty ev) w) as [w1|] eqn:E1; [|discriminate].
    cbn [Js.bind]. intros E2.
    destruct (onEvent_session ty ev w w1 E1) as (Hc1 & Hl1 & Ho1 & Hp1).
    destruct (IH w1 E2) as (Hc2 & Hl2 & Ho2 & Hp2).
    unfold last_needed in *. cbn [foldl fst snd].
    rewrite Hc2, Hl2, Ho2, Hp2, Hc1, Hl1, Ho1, Hp1.
    split_and!; [done| | |done].
    + destruct (closes ty); cbn [orb]; [|done].
      by destruct (existsb (fun e => closes (fst e)) delivered).
    + destruct (is_str ty "complete"); cbn [orb]; [|done].
      by destruct (existsb (fun e => is_str (fst e) "complete") delivered).
Qed.

(** The session variables after the updates that a send queues before
    the request. *)
Lemma updates_session (content : string) (skipClarification : bool)
  (w w1 : World) :
  is_Some (request (handleSendMessage (state w) content skipClarification)) ->
  apply_all (updates (handleSendMessage (state w) content skipClarification)) w
  = Return w1 ->
  let clarifying :=
    truthy (pendingClarification (state w)) && nonempty (originalQuery (state w)) in
  currentConversationId (state w1) = currentConversationId (state w)
  /\ isLoading (state w1) = true
  /\ originalQuery (state w1) = (if clarifying then None else Some content)
  /\ pendingClarification (state w1)
     = (if clarifying then VNull else pendingClarification (state w)).
Proof.
  unfold App.handleSendMessage.
  destruct (currentConversationId (state w)) as [cid|] eqn:Hcid; [|by intros [? [=]]].
  destruct (currentConversation (state w)) as [conv|]; [|by intros [? [=]]].
  destruct (String.eqb cid ""); [by intros [? [=]]|]. intros _. cbn [updates].
  destruct (truthy (pendingClarification (state w))
            && nonempty (originalQuery (state w)));
    cbn [app apply_all on_state Js.bind]; intros H; cbv zeta.
  - queue_step H. queue_step H. injection H as <-.
    apply append_message_quiet in E, E0.
    destruct E as (Hc0 & Hp0 & Ho0 & Hl0), E0 as (Hc & Hp & Ho & Hl).
    rewrite Hc, Hp, Ho, Hl, Hc0, Hp0, Ho0, Hl0. by split_and!.
  - queue_step H. queue_step H. injection H as <-.
    apply append_message_quiet in E, E0.
    destruct E as (Hc0 & Hp0 & Ho0 & Hl0), E0 as (Hc & Hp & Ho & Hl).
    rewrite Hc, Hp, Ho, Hl, Hc0, Hp0, Ho0, Hl0. by split_and!.
Qed.

(** The session variables while the turn is open: after the updates of
    the send and those of the events [delivered]. *)
Lemma open_turn_session (content : string) (skipClarification : bool)
  (delivered : list (value * value)) (i : string) (ms : list Message)
  (w w2 : World) :
  current i ms w ->
  apply_all (updates (handleSendMessage (state w) content skipClarification)
             ++ flat_map (fun e => onEvent (fst e) (snd e)) delivered) w
  = Return w2 ->
  let clarifying :=
    truthy (pendingClarification (state w)) && nonempty (originalQuery (state w)) in
  currentConversationId (state w2) = currentConversationId (state w)
  /\ isLoading (state w2) = negb (existsb (fun e => closes (fst e)) delivered)
  /\ originalQuery (state w2)
     = (if existsb (fun e => is_str (fst e) "complete") delivered
        then None
        else if clarifying then None else Some content)
  /\ pendingClarification (state w2)
     = last_needed (if clarifying then VNull else pendingClarification (state w))
         delivered.
Proof.
  intros Hw E2 clarifying.
  destruct (handleSendMessage_appends localeCompare now content skipClarification
              i ms w Hw) as (Hreq & w1 & E1 & _).
  destruct (updates_session content skipClarification w w1 Hreq E1)
    as (Hc1 & Hl1 & Ho1 & Hp1).
  rewrite apply_all_app, E1 in E2. cbn [Js.bind] in E2.
  destruct (events_session _ w1 w2 E2) as (Hc2 & Hl2 & Ho2 & Hp2).
  split_and!; [congruence| |by rewrite Ho2, Ho1|by rewrite Hp2, Hp1].
  rewrite Hl2, Hl1. by destruct (existsb _ _).
Qed.


(** ** A turn that the council answers *)

Lemma council_queue (s1 s2 meta s3 : value) (t : string) :
  flat_map (fun e => onEvent (fst e) (snd e)) (council_events s1 s2 meta s3 t)
  = [on_last stage1_start; on_last (stage1_complete s1);
     on_last stage2_start; on_last (stage2_complete s2 meta);
     on_last stage3_start; on_last (stage3_complete s3)]
    ++ [on_title (VStr t);
        on_state (setIsLoading false); on_state (setOriginalQuery None);
        refresh_list].
Proof. reflexivity. Qed.

(** What [save_and_set] lists when it returns. *)
Lemma save_and_set_lists (refresh : bool) (next : Conversation) (i : string)
  (w w' : World) :
  id next = Some i ->
  save_and_set refresh next w = Return w' ->
  Store.entry_of now i next ∈ Store.list_ (localStorage w').
Proof.
  intros Hid. unfold App.save_and_set.
  destruct (decide (i = "")) as [->|Hi].
  { unfold Store.save. by rewrite Hid. }
  rewrite (StoreProps.save_returns _ _ _ _ _ Hid Hi). cbn [Js.bind snd].
  intros [= <-]. cbn [localStorage]. unfold Store.list_.
  rewrite StoreFacts.getIndex_setIndex, StoreFacts.sort_perm.
  apply StoreProps.upsert_elem.
Qed.


(** ** A turn in which the service asks back *)


(** ** A new conversation *)

Local Abbreviation handleNewConversation :=
  (App.handleNewConversation localeCompare now).

Lemma handleNewConversation_world (fresh : string) (w : World) :
  let newConv := {| id := Some fresh; created_at := Some now;
                    title := Some "New Conversation"; messages := Some [] |} in
  let index :=
    Store.sort localeCompare
      (Store.upsert (mkEntry fresh now "New Conversation" 0)
         (Store.list_ (localStorage w))) in
  handleNewConversation fresh w
  = {| state := setOriginalQuery None
                  (setPendingClarification VNull
                     (setCurrentConversation (Some newConv)
                        (setCurrentConversationId (Some fresh)
                           (setConversations index (state w)))));
       localStorage :=
         Store.setIndex index
           (<[Store.convKey fresh := Store.JSON_stringify (Store.JObject newConv)]>
              (localStorage w)) |}.
Proof.
  unfold App.handleNewConversation, Store.create, Store.upsertIndexItem, Store.list_.
  cbn [e_id e_created_at e_title e_message_count or_else String.eqb id].
  by rewrite StoreFacts.getIndex_insert_conv.
Qed.

(** X23: after [handleNewConversation] and the render that follows it, the
    new conversation is the current one, without messages and without a
    pending clarification, stored as it is shown and listed with no
    message; no other record has changed; and what is sent next is a
    first message, sent as it is typed. *)
Theorem new_conversation_is_first_turn (fresh : string) (w : World) :
  fresh ≠ "" ->
  let w1 := commit (state w) (handleNewConversation fresh w) in
  current fresh [] w1
  /\ synced fresh w1
  /\ pendingClarification (state w1) = VNull
  /\ originalQuery (state w1) = None
  /\ conversations (state w1) = Store.list_ (localStorage w1)
  /\ mkEntry fresh now "New Conversation" 0 ∈ conversations (state w1)
  /\ (forall j : string,
        j ≠ fresh ->
        Store.get j (localStorage w1) = Store.get j (localStorage w))
  /\ forall (content : string) (skipClarification : bool),
       request (handleSendMessage (state w1) content skipClarification)
       = Some {| conversationId := fresh;
                 content := content;
                 chairman_model := chairmanModel (state w);
                 council_models := councilModels (state w);
                 skip_clarification := skipClarification;
                 is_first_message := true |}.
Proof.
  intros Hfresh. cbv zeta. rewrite handleNewConversation_world. cbv zeta.
  set (newConv := {| id := Some fresh; created_at := Some now;
                     title := Some "New Conversation"; messages := Some [] |}).
  set (index := Store.sort localeCompare _).
  set (w0 := {| state := _; localStorage := _ |}).
  assert (Hget : Store.get fresh (localStorage w0) = Some (Store.JObject newConv))
    by apply get_after_save.
  assert (Hw1 : commit (state w) w0 = w0).
  { unfold commit. destruct (decide _) as [_|_]; [done|].
    unfold on_select at 1. unfold w0 at 1 2. cbn [state currentConversationId setOriginalQuery
      setPendingClarification setCurrentConversation setCurrentConversationId].
    destruct (String.eqb_spec fresh "") as [?|_]; [done|].
    unfold loadConversation. fold w0. rewrite Hget. reflexivity. }
  rewrite Hw1.
  assert (Hfalse : String.eqb fresh "" = false) by (by apply String.eqb_neq).
  split_and!.
  - split; [cbn; by rewrite Hfalse|]. by exists newConv.
  - by exists newConv.
  - reflexivity.
  - reflexivity.
  - unfold w0. cbn [state localStorage conversations setOriginalQuery
      setPendingClarification setCurrentConversation setCurrentConversationId
      setConversations]. unfold Store.list_.
    by rewrite StoreFacts.getIndex_setIndex.
  - unfold w0. cbn [state conversations setOriginalQuery
      setPendingClarification setCurrentConversation setCurrentConversationId
      setConversations]. unfold index.
    rewrite StoreFacts.sort_perm. apply StoreProps.upsert_elem.
  - intros j Hj. unfold w0. cbn [localStorage].
    rewrite StoreProps.get_setIndex. by apply StoreProps.get_insert_conv.
  - intros content skipClarification. unfold App.handleSendMessage.
    unfold w0.
    cbn [state currentConversationId currentConversation pendingClarification
         originalQuery chairmanModel councilModels setOriginalQuery
         setPendingClarification setCurrentConversation setCurrentConversationId
         setConversations truthy nonempty andb messages newConv length Nat.eqb].
    by rewrite Hfalse.
Qed.

End Session.

Section Reload.

Variable localeCompare : string -> string -> Z.
Variable now : string.

(** X24: a page opened again after [handleNewConversation] shows the new
    conversation, selected and first in the list, when the list was in
    order, did not have the id yet and held nothing newer than the
    clock: what the handler put in memory is what the store gives back. *)
Theorem reload_shows_new_conversation (fresh : string) (w : World) :
  fresh ≠ "" ->
  StronglySorted (Store.not_older localeCompare) (Store.list_ (localStorage w)) ->
  fresh ∉ Store.ids (Store.list_ (localStorage w)) ->
  Forall (fun e => (localeCompare (e_created_at e) now <= 0)%Z)
    (Store.list_ (localStorage w)) ->
  let w1 := App.handleNewConversation localeCompare now fresh w in
  let w2 := mount (localStorage w1) in
  currentConversationId (state w2) = Some fresh
  /\ currentConversation (state w2) = currentConversation (state w1)
  /\ conversations (state w2) = conversations (state w1)
  /\ conversations (state w2)
     = mkEntry fresh now "New Conversation" 0 :: Store.list_ (localStorage w)
  /\ localStorage w2 = localStorage w1.
Proof.
  intros Hfresh Hsorted Hnew Hclock. cbv zeta.
  rewrite handleNewConversation_world. cbv zeta.
  set (newConv := {| id := Some fresh; created_at := Some now;
                     title := Some "New Conversation"; messages := Some [] |}).
  assert (Hindex : Store.sort localeCompare
                     (Store.upsert (mkEntry fresh now "New Conversation" 0)
                        (Store.list_ (localStorage w)))
                   = mkEntry fresh now "New Conversation" 0
                     :: Store.list_ (localStorage w)).
  { unfold Store.upsert. cbn [e_id].
    rewrite (proj2 (StoreFacts.findIndex_None fresh _)).
    2:{ apply Forall_forall. intros e He Heq. apply Hnew. unfold Store.ids.
        rewrite <- Heq. by apply (list_elem_of_fmap_2 e_id). }
    unfold Store.sort. cbn [foldr].
    change (foldr (Store.insert_sorted localeCompare) [] ?l)
      with (Store.sort localeCompare l).
    rewrite StoreProps.sort_sorted_id by done.
    destruct Hclock as [|y l Hy _]; cbn [Store.insert_sorted]; [done|].
    unfold Store.newest_first. cbn [e_created_at].
    by destruct (Z.leb_spec (localeCompare (e_created_at y) now) 0); [|lia]. }
  rewrite Hindex. cbn [state localStorage].
  set (ls1 := Store.setIndex _ _).
  assert (Hlist : Store.list_ ls1
                  = mkEntry fresh now "New Conversation" 0
                    :: Store.list_ (localStorage w)).
  { unfold ls1, Store.list_. by rewrite StoreFacts.getIndex_setIndex. }
  assert (Hget : Store.get fresh ls1 = Some (Store.JObject newConv))
    by apply get_after_save.
  unfold mount, loadConversations. cbn [state localStorage]. rewrite Hlist.
  cbn [initial currentConversationId nonempty e_id].
  unfold commit. cbn [state currentConversationId setCurrentConversationId].
  destruct (decide (Some fresh = None)) as [?|_]; [done|].
  unfold on_select. cbn [state currentConversationId setCurrentConversationId].
  destruct (String.eqb_spec fresh "") as [?|_]; [done|].
  unfold loadConversation. cbn [state localStorage]. rewrite Hget.
  by split_and!.
Qed.

End Reload.

Lemma new_conversation_is_first_turn_witness :
  current "c2" []
    (commit (state fresh_world)
       (App.handleNewConversation Store.byCodeUnit "2024-05-02T08:00:00.000Z"
          "c2" fresh_world)).
Proof.
  exact (proj1 (new_conversation_is_first_turn Store.byCodeUnit
                  "2024-05-02T08:00:00.000Z" "c2" fresh_world
                  ltac:(discriminate))).
Defined.

Lemma reload_shows_new_conversation_witness :
  currentConversationId
    (state (mount (localStorage
                     (App.handleNewConversation Store.byCodeUnit
                        "2024-05-02T08:00:00.000Z" "c2" fresh_world))))
  = Some "c2".
Proof.
  refine (proj1 (reload_shows_new_conversation Store.byCodeUnit
                   "2024-05-02T08:00:00.000Z" "c2" fresh_world
                   ltac:(discriminate) _ _ _)).
  - apply SSorted_cons; [apply SSorted_nil|apply Forall_nil_2].
  - intros H. apply elem_of_cons in H as [H|H]; [discriminate|].
    by apply elem_of_nil in H.
  - apply Forall_cons_2; [|apply Forall_nil_2]. vm_compute. discriminate.
Defined.




Lemma turn_leaves_record_stored_witness :
  exists (w' : World) (log : list Message),
    run_among
      (map Own (updates (App.handleSendMessage Store.byCodeUnit
                           "2024-05-01T10:00:05.000Z" (state fresh_world)
                           "What is 2+2?" false))
       ++ [Aside (toggle_model "a/x")]
       ++ map Own (App.onCatch Store.byCodeUnit "2024-05-01T10:00:05.000Z"))
      fresh_world
    = Return w'
    /\ synced "c1" w'
    /\ in_memory w' = Some log
    /\ log = [].
Proof.
  destruct (turn_leaves_record_stored Store.byCodeUnit "2024-05-01T10:00:05.000Z"
              parse_scenario "What is 2+2?" false Sse.FetchRejects
              "c1" [] fresh_world
              (map Own (updates (App.handleSendMessage Store.byCodeUnit
                                   "2024-05-01T10:00:05.000Z" (state fresh_world)
                                   "What is 2+2?" false))
               ++ [Aside (toggle_model "a/x")]
               ++ map Own (App.onCatch Store.byCodeUnit "2024-05-01T10:00:05.000Z"))
              fresh_world_current eq_refl)
    as (w' & log & E & Hs & Hm & Hlog & _).
  - apply Forall_cons_2; [|apply Forall_nil_2].
    intros w. eexists. split; [reflexivity|]. split; reflexivity.
  - exists w', log. split_and!; [exact E|exact Hs|exact Hm|exact Hlog].
Defined.

End AppProps.
